(** * virtualobserver: the event-detection engine and the bounded collections

    A shallow embedding of [src/finder.py] (class [Finder]) and, from
    [src/utils.py], of the list classes [NamedList], [UniqueList] and
    [CircularBufferList] and of [legalize] and [unit_convert_bytes].

    - numpy float64 values are IEEE 754 binary64 numbers, taken from the
      Standard Library's [spec_float] (prec 53, emax 1024);
    - a pandas DataFrame is a record of columns, each a list, with the
      flag that says whether the arrays it hands out can be written to
      (pandas before 3.0) or are read-only (copy-on-write, pandas 3);
    - Python methods that mutate their object and may raise are functions
      from the object to a result and the object afterwards. *)

From Stdlib Require Import ZArith Lia Floats.SpecFloat.
From stdpp Require Import base list strings gmap.

Open Scope Z_scope.
Open Scope nat_scope.

(** ** float64 *)

Module Float.

Definition float : Type := spec_float.

Definition prec : Z := 53%Z.
Definition emax : Z := 1024%Z.

Definition fadd : float -> float -> float := SFadd prec emax.
Definition fsub : float -> float -> float := SFsub prec emax.
Definition fdiv : float -> float -> float := SFdiv prec emax.
Definition fabs : float -> float := SFabs.

(** [flt x y] is Python's [x < y], [fle x y] is [x <= y]; both are
    false as soon as one side is NaN. *)
Definition flt : float -> float -> bool := SFltb.
Definition fle : float -> float -> bool := SFleb.

Definition is_nan (x : float) : bool :=
  match x with S754_nan => true | _ => false end.

Definition fzero : float := S754_zero false.
Definition fnan : float := S754_nan.

(** The float64 nearest to an integer literal. *)
Definition of_Z (z : Z) : float := binary_normalize prec emax z 0%Z false.

End Float.

(** ** Python results and sequences *)

Module Py.

Inductive exn : Type :=
  | IndexError
  | ValueError
  | KeyError
  | AttributeError.

Inductive result (A : Type) : Type :=
  | Ok (a : A)
  | Raise (e : exn).
Arguments Ok {A} a.
Arguments Raise {A} e.

(** [l[i]] for a non-negative [i]. *)
Definition index {A} (l : list A) (i : nat) : result A :=
  match l !! i with
  | Some x => Ok x
  | None => Raise IndexError
  end.

(** [l[start:]]: a negative start counts from the end, and the bound is
    clipped to the list. *)
Definition slice_from {A} (start : Z) (l : list A) : list A :=
  let n := Z.of_nat (length l) in
  let s := if (start <? 0)%Z then Z.max 0 (start + n) else Z.min start n in
  drop (Z.to_nat s) l.

(** [s.lower()] on the ASCII letters. *)
Definition lower_ascii (c : Ascii.ascii) : Ascii.ascii :=
  let n := Ascii.nat_of_ascii c in
  if (65 <=? n) && (n <=? 90) then Ascii.ascii_of_nat (n + 32) else c.

Fixpoint lower (s : string) : string :=
  match s with
  | EmptyString => EmptyString
  | String c s' => String (lower_ascii c) (lower s')
  end.

(** A method call on an object of type [S]: it returns or raises, and
    leaves the object as it has mutated it so far. *)
Definition M (S A : Type) : Type := S -> result A * S.

Definition ret {S A} (a : A) : M S A := fun s => (Ok a, s).

Definition raise {S A} (e : exn) : M S A := fun s => (Raise e, s).

Definition bind {S A B} (m : M S A) (k : A -> M S B) : M S B :=
  fun s =>
    match m s with
    | (Ok a, s') => k a s'
    | (Raise e, s') => (Raise e, s')
    end.

Definition get {S} : M S S := fun s => (Ok s, s).

Definition modify {S} (g : S -> S) : M S unit := fun s => (Ok tt, g s).

Definition lift {S A} (r : result A) : M S A := fun s => (r, s).

(** [l[i]] for any integer [i]: a negative index counts from the end. *)
Definition position {A} (l : list A) (i : Z) : result nat :=
  let n := Z.of_nat (length l) in
  if (0 <=? i)%Z && (i <? n)%Z then Ok (Z.to_nat i)
  else if (- n <=? i)%Z && (i <? 0)%Z then Ok (Z.to_nat (n + i))
  else Raise IndexError.

Definition getitem {A} (l : list A) (i : Z) : result A :=
  match position l i with
  | Ok n => index l n
  | Raise e => Raise e
  end.

(** [l[i] = x] *)
Definition setitem {A} (l : list A) (i : Z) (x : A) : result (list A) :=
  match position l i with
  | Ok n => Ok (<[n := x]> l)
  | Raise e => Raise e
  end.

(** A call that reads the object and does not touch it. *)
Definition result_bind {A B} (r : result A) (k : A -> result B) : result B :=
  match r with
  | Ok a => k a
  | Raise e => Raise e
  end.

(** A list comprehension whose element may raise: the first error
    ends it. *)
Fixpoint traverse {A B} (g : A -> result B) (l : list A) : result (list B) :=
  match l with
  | [] => Ok []
  | a :: l' =>
      match g a with
      | Raise e => Raise e
      | Ok b =>
          match traverse g l' with
          | Raise e => Raise e
          | Ok bs => Ok (b :: bs)
          end
      end
  end.

(** A comprehension with a condition that may raise. *)
Fixpoint select {A} (g : A -> result bool) (l : list A) : result (list A) :=
  match l with
  | [] => Ok []
  | a :: l' =>
      match g a with
      | Raise e => Raise e
      | Ok b =>
          match select g l' with
          | Raise e => Raise e
          | Ok rest => Ok (if b then a :: rest else rest)
          end
      end
  end.

(** Whatever the call does, the object afterwards is related by [R] to
    the object before. *)
Definition preserves {S A} (R : S -> S -> Prop) (m : M S A) : Prop :=
  forall s, R s (snd (m s)).

Notation "'let*' x ':=' m 'in' k" := (bind m (fun x => k))
  (at level 10, x name, m at level 100, k at level 200, only parsing).

End Py.

(** ** The numpy and pandas operations the finder calls *)

Module Numpy.
Import Float Py.

(** [np.maximum(a, b)] on one pair: [(a >= b || isnan(a)) ? a : b]. *)
Definition maximum (a b : float) : float :=
  if fle b a || is_nan a then a else b.

(** [np.argmax] on float64: the running maximum [mp] is replaced by every
    element [x] with [!(x <= mp)], and the scan stops at a NaN. *)
Fixpoint argmax_from (mp : float) (best i : nat) (l : list float) : nat :=
  match l with
  | [] => best
  | x :: l' =>
      if is_nan mp then best
      else if fle x mp then argmax_from mp best (S i) l'
      else argmax_from x i (S i) l'
  end.

Definition argmax (l : list float) : result nat :=
  match l with
  | [] => Raise ValueError
  | x :: l' => Ok (argmax_from x 0 1 l')
  end.

(** [np.where(mask)[0]]: the positions of the True entries. *)
Fixpoint where_from (i : nat) (mask : list bool) : list nat :=
  match mask with
  | [] => []
  | b :: mask' =>
      if b then i :: where_from (S i) mask' else where_from (S i) mask'
  end.

Definition where_true (mask : list bool) : list nat := where_from 0 mask.

(** [a[mask] = v] *)
Definition set_where {A} (a : list A) (mask : list bool) (v : A) : list A :=
  zip_with (fun x (b : bool) => if b then v else x) a mask.

(** [Series.median()]: NaN entries are skipped, the rest is sorted; the
    middle element, or the mean of the two middle ones. *)
Fixpoint insert_sorted (x : float) (l : list float) : list float :=
  match l with
  | [] => [x]
  | y :: l' => if fle x y then x :: l else y :: insert_sorted x l'
  end.

Definition sort (l : list float) : list float :=
  foldr insert_sorted [] l.

Definition median (l : list float) : float :=
  let s := sort (List.filter (fun x => negb (is_nan x)) l) in
  let n := length s in
  if Nat.eqb n 0 then fnan
  else if Nat.odd n then nth (n / 2) s fnan
  else fdiv (fadd (nth (n / 2 - 1) s fnan) (nth (n / 2) s fnan)) (of_Z 2).

End Numpy.

(** ** src/finder.py *)

Module Finder.
Import Float Py.

(** Objects the finder only passes on. *)
Definition Source : Type := nat.
Definition RawData : Type := nat.
Definition SimPars : Type := list (string * float).

(** [lc.data]: the raw columns are always there, the derived columns
    [snr], [dmag] and [detected] exist once they have been assigned.
    [writeable] is the flag of that name of the arrays that
    [lc.data[name].values] hands out: True under pandas before 3.0,
    where the array is the column's own and can be written to, False
    under copy-on-write (pandas 3), where it is read-only. *)
Record DataFrame : Type := mkDataFrame {
  flux : list float;
  fluxerr : list float;
  mag : list float;
  flag : list bool;
  snr : option (list float);
  dmag : option (list float);
  detected : option (list bool);
  writeable : bool
}.

(** The attributes of a [Lightcurve] (src/dataset.py) that the finder
    reads: its dataframe, its time stamps, its robust statistics and the
    raw data it was reduced from. *)
Record Lightcurve : Type := mkLightcurve {
  data : DataFrame;
  times : list float;
  flux_mean_robust : float;
  flux_rms_robust : float;
  raw_data : RawData
}.

(** [self.pars]; the sideband threshold may be missing from it. *)
Record Pars : Type := mkPars {
  snr_threshold : float;
  snr_threshold_sidebands : option float;
  max_det_per_lc : nat;
  abs_snr : bool
}.

(** The values of [Finder.__init__]. *)
Definition default_pars : Pars :=
  {| snr_threshold := of_Z 5;
     snr_threshold_sidebands := Some (of_Z (-2));
     max_det_per_lc := 1;
     abs_snr := true |}.

Record Detection : Type := mkDetection {
  det_source : option Source;
  det_raw_data : RawData;
  time_peak : float;
  det_snr : float;
  time_indices : list bool;
  time_start : float;
  time_end : float;
  simulated : bool;
  sim_pars : option SimPars
}.

(** Number of rows of the dataframe. *)
Definition nrows (lc : Lightcurve) : nat := length (flux (data lc)).

(** All columns of a dataframe share one index. *)
Definition same_length {A} (n : nat) (c : option (list A)) : bool :=
  match c with
  | Some l => Nat.eqb (length l) n
  | None => true
  end.

Definition wf_lc (lc : Lightcurve) : bool :=
  let n := nrows lc in
  Nat.eqb (length (fluxerr (data lc))) n
  && Nat.eqb (length (mag (data lc))) n
  && Nat.eqb (length (flag (data lc))) n
  && Nat.eqb (length (times lc)) n
  && same_length n (snr (data lc))
  && same_length n (dmag (data lc))
  && same_length n (detected (data lc)).

(** Column assignment. *)
Definition set_snr (c : list float) (lc : Lightcurve) : Lightcurve :=
  let d := data lc in
  {| data := {| flux := flux d; fluxerr := fluxerr d; mag := mag d;
                flag := flag d; snr := Some c; dmag := dmag d;
                detected := detected d;
                writeable := writeable d |};
     times := times lc;
     flux_mean_robust := flux_mean_robust lc;
     flux_rms_robust := flux_rms_robust lc;
     raw_data := raw_data lc |}.

Definition set_dmag (c : list float) (lc : Lightcurve) : Lightcurve :=
  let d := data lc in
  {| data := {| flux := flux d; fluxerr := fluxerr d; mag := mag d;
                flag := flag d; snr := snr d; dmag := Some c;
                detected := detected d;
                writeable := writeable d |};
     times := times lc;
     flux_mean_robust := flux_mean_robust lc;
     flux_rms_robust := flux_rms_robust lc;
     raw_data := raw_data lc |}.

Definition set_detected (c : option (list bool)) (lc : Lightcurve)
  : Lightcurve :=
  let d := data lc in
  {| data := {| flux := flux d; fluxerr := fluxerr d; mag := mag d;
                flag := flag d; snr := snr d; dmag := dmag d;
                detected := c;
                writeable := writeable d |};
     times := times lc;
     flux_mean_robust := flux_mean_robust lc;
     flux_rms_robust := flux_rms_robust lc;
     raw_data := raw_data lc |}.

(** A method call on a lightcurve. *)
Definition M (A : Type) : Type := Py.M Lightcurve A.

(** [lc.data[name]] raises KeyError for a column that is not there. *)
Definition column {A} (c : DataFrame -> option A) : M A :=
  fun lc =>
    match c (data lc) with
    | Some v => (Ok v, lc)
    | None => (Raise KeyError, lc)
    end.

(** [Finder.estimate_flux_noise] *)
Definition estimate_flux_noise (f : Pars) (source : option Source)
  : M (list float) :=
  let* lightcurve := get in
  ret (map (fun e => Numpy.maximum e (flux_rms_robust lightcurve))
           (fluxerr (data lightcurve))).

(** The two score columns of [ingest_lightcurves]:
    [(flux - flux_mean_robust) / noise] and [mag - mag.median()]. *)
Definition add_scores (f : Pars) (source : option Source) : M unit :=
  let* noise := estimate_flux_noise f source in
  let* lc := get in
  let* _ := modify (set_snr
    (zip_with fdiv
       (map (fun x => fsub x (flux_mean_robust lc)) (flux (data lc)))
       noise)) in
  let* lc := get in
  modify (set_dmag
    (map (fun m => fsub m (Numpy.median (mag (data lc)))) (mag (data lc)))).

(** [if "detected" not in lc.data.columns: lc.data["detected"] = False] *)
Definition init_detected : M unit :=
  let* lc := get in
  match detected (data lc) with
  | Some _ => ret tt
  | None => modify (set_detected (Some (replicate (nrows lc) false)))
  end.

(** One pass of the loop body up to [mx = snr[idx]]. With [abs_snr] the
    working array is the fresh array of [np.abs]; without it, it is the
    array that [.values] has handed out, and [snr[mask] = 0] assigns to
    that one: it writes into the column when the array is writeable, and
    raises the ValueError of numpy for a read-only destination when it
    is not, whatever the mask. *)
Definition select_peak (f : Pars) : M (nat * float) :=
  let* col := column snr in
  let snr0 := if abs_snr f then map fabs col else col in
  let* det := column detected in
  let* lc := get in
  let mask :=
    zip_with orb (zip_with orb det (flag (data lc))) (map is_nan snr0) in
  let snr1 := Numpy.set_where snr0 mask fzero in
  let* _ := (if abs_snr f then ret tt
             else if writeable (data lc) then modify (set_snr snr1)
             else raise ValueError) in
  let* idx := lift (Numpy.argmax snr1) in
  let* mx := lift (index snr1 idx) in
  ret (idx, mx).

(** The threshold of [Finder.get_event_indices]. *)
Definition event_threshold (f : Pars) : float :=
  match snr_threshold_sidebands f with
  | Some sidebands =>
      if flt sidebands fzero then fadd (snr_threshold f) sidebands
      else sidebands
  | None => snr_threshold f
  end.

(** [Finder.get_event_indices] *)
Definition get_event_indices (f : Pars) : M (list bool) :=
  let* col := column snr in
  ret (map (fun x => flt (event_threshold f) x) col).

(** [lightcurve.data.loc[peak_idx, "snr"]]: a missing label is a
    KeyError. *)
Definition loc {A} (col : list A) (label : nat) : result A :=
  match col !! label with
  | Some x => Ok x
  | None => Raise KeyError
  end.

(** [lightcurve.data.loc[time_indices, "detected"] = True]. The loop
    calls it with the column in place; without the column pandas would
    create one, which the record cannot hold: that case is a KeyError
    here. *)
Definition mark_detected (time_indices : list bool) : M unit :=
  let* det := column detected in
  modify (set_detected (Some (zip_with orb det time_indices))).

(** [Finder.make_detection] *)
Definition make_detection (f : Pars) (peak_idx : nat)
    (source : option Source) (sim : option SimPars) : M Detection :=
  let* lightcurve := get in
  let* tpeak := lift (index (times lightcurve) peak_idx) in
  let* col := column snr in
  let* s := lift (loc col peak_idx) in
  let* tidx := get_event_indices f in
  let* _ := mark_detected tidx in
  let* first := lift (index (Numpy.where_true tidx) 0) in
  let* tstart := lift (index (times lightcurve) first) in
  let* last := lift (index (Numpy.where_true tidx)
                      (length (Numpy.where_true tidx) - 1)) in
  let* tend := lift (index (times lightcurve) last) in
  ret {| det_source := source;
         det_raw_data := raw_data lightcurve;
         time_peak := tpeak;
         det_snr := s;
         time_indices := tidx;
         time_start := tstart;
         time_end := tend;
         simulated := bool_decide (sim <> None);
         sim_pars := sim |}.

(** [for i in range(max_det_per_lc): ...]: [k] passes are left. *)
Fixpoint extract (f : Pars) (k : nat) (source : option Source)
    (sim : option SimPars) : M (list Detection) :=
  match k with
  | O => ret []
  | S k' =>
      let* p := select_peak f in
      if flt (snr_threshold f) (snd p) then
        let* det := make_detection f (fst p) source sim in
        let* dets := extract f k' source sim in
        ret (det :: dets)
      else ret []
  end.

(** The body of [for lc in lightcurves]. *)
Definition ingest_lightcurve (f : Pars) (source : option Source)
    (sim : option SimPars) : M (list Detection) :=
  let* _ := add_scores f source in
  let* _ := init_detected in
  extract f (max_det_per_lc f) source sim.

(** [Finder.ingest_lightcurves] on a list of lightcurve objects, all
    different; a lone [Lightcurve] is the list of one. *)
Fixpoint ingest_lightcurves (f : Pars) (lightcurves : list Lightcurve)
    (source : option Source) (sim : option SimPars)
  : result (list Detection) * list Lightcurve :=
  match lightcurves with
  | [] => (Ok [], [])
  | lc :: rest =>
      match ingest_lightcurve f source sim lc with
      | (Ok dets, lc') =>
          match ingest_lightcurves f rest source sim with
          | (Ok dets', rest') => (Ok (dets ++ dets'), lc' :: rest')
          | (Raise e, rest') => (Raise e, lc' :: rest')
          end
      | (Raise e, lc') => (Raise e, lc' :: rest)
      end
  end.

(** *** What a run is observed by *)

(** The detections a call hands to its caller: none when it raises. *)
Definition emitted (r : result (list Detection)) : list Detection :=
  match r with
  | Ok dets => dets
  | Raise _ => []
  end.

(** The state in which the loop starts. *)
Definition scored (f : Pars) (source : option Source) (lc : Lightcurve)
  : Lightcurve :=
  snd ((let* _ := add_scores f source in init_detected) lc).

(** The values [mx] of the passes of the loop, in the order in which they
    are taken; it follows [extract] pass by pass. *)
Fixpoint peak_trace (f : Pars) (k : nat) (source : option Source)
    (sim : option SimPars) (lc : Lightcurve) : list float :=
  match k with
  | O => []
  | S k' =>
      match select_peak f lc with
      | (Ok p, lc1) =>
          snd p ::
          (if flt (snr_threshold f) (snd p) then
             match make_detection f (fst p) source sim lc1 with
             | (Ok _, lc2) => peak_trace f k' source sim lc2
             | (Raise _, _) => []
             end
           else [])
      | (Raise _, _) => []
      end
  end.

(** The working array of a pass of the loop after [snr[mask] = 0]. *)
Definition masked_snr (f : Pars) (lc : Lightcurve) : list float :=
  match snr (data lc), detected (data lc) with
  | Some col, Some det =>
      let snr0 := if abs_snr f then map fabs col else col in
      Numpy.set_where snr0
        (zip_with orb (zip_with orb det (flag (data lc))) (map is_nan snr0))
        fzero
  | _, _ => []
  end.

(** Every entry is at most the entry before it. *)
Definition non_increasing (l : list float) : Prop :=
  forall i a b, l !! i = Some a -> l !! S i = Some b -> fle b a = true.

(** The two lightcurves agree on everything but the derived columns. *)
Definition same_raw (lc lc' : Lightcurve) : Prop :=
  flux (data lc') = flux (data lc)
  /\ fluxerr (data lc') = fluxerr (data lc)
  /\ mag (data lc') = mag (data lc)
  /\ flag (data lc') = flag (data lc)
  /\ times lc' = times lc
  /\ flux_mean_robust lc' = flux_mean_robust lc
  /\ flux_rms_robust lc' = flux_rms_robust lc
  /\ raw_data lc' = raw_data lc
  /\ writeable (data lc') = writeable (data lc).

(** The columns of the loop are there and have one length. *)
Definition aligned (lc : Lightcurve) : Prop :=
  exists col det,
    snr (data lc) = Some col /\ detected (data lc) = Some det
    /\ length col = length det
    /\ length col = length (flag (data lc))
    /\ length col = length (times lc).

(** The scores are left alone: [dmag] always, [snr] when [abs_snr] is
    on. *)
Definition keeps_scores (f : Pars) (lc lc' : Lightcurve) : Prop :=
  dmag (data lc') = dmag (data lc)
  /\ (abs_snr f = true -> snr (data lc') = snr (data lc)).

(** A score as the threshold sees it. *)
Definition seen (f : Pars) (x : float) : float :=
  if abs_snr f then fabs x else x.

(** The marks of [lc] are still there in [lc'], and the columns of the
    loop stay in place. *)
Definition grows (lc lc' : Lightcurve) : Prop :=
  aligned lc ->
  aligned lc'
  /\ forall det x,
       detected (data lc) = Some det -> det !! x = Some true ->
       exists det', detected (data lc') = Some det' /\ det' !! x = Some true.

(** Two masks share no True position. *)
Definition disjoint_masks (m1 m2 : list bool) : Prop :=
  forall i, m1 !! i = Some true -> m2 !! i = Some true -> False.

(** A point the loop may still pick: not detected, not flagged, and with
    a score that is a number. *)
Definition usable (lc : Lightcurve) (i : nat) : bool :=
  match snr (data lc), detected (data lc) with
  | Some col, Some det =>
      negb (default true (det !! i))
      && negb (default true (flag (data lc) !! i))
      && negb (default true (is_nan <$> col !! i))
  | _, _ => false
  end.

End Finder.

(** ** src/utils.py: UniqueList *)

Module UniqueList.
Import Py.

(** The values of the attributes that are compared. *)
Inductive value : Type :=
  | VStr (s : string)
  | VInt (z : Z).

#[global] Instance value_eq_dec : EqDecision value.
Proof. solve_decision. Defined.

(** An element: its attributes by name. *)
Definition obj : Type := gmap string value.

Definition getattr (o : obj) (att : string) : result value :=
  match o !! att with
  | Some v => Ok v
  | None => Raise AttributeError
  end.

Record t : Type := mk {
  items : list obj;
  comparison_attributes : list string;
  ignorecase : bool
}.

Definition set_items (l : list obj) (ul : t) : t :=
  {| items := l;
     comparison_attributes := comparison_attributes ul;
     ignorecase := ignorecase ul |}.

(** [UniqueList.__init__] *)
Definition init (attributes : list string) (ignorecase : bool) : t :=
  {| items := [];
     comparison_attributes :=
       if Nat.eqb (length attributes) 0 then ["name"%string] else attributes;
     ignorecase := ignorecase |}.

(** [UniqueList._compare] *)
Definition _compare (ul : t) (key1 key2 : value) : bool :=
  match key1, key2 with
  | VStr s1, VStr s2 =>
      if ignorecase ul then bool_decide (lower s1 = lower s2)
      else bool_decide (s1 = s2)
  | _, _ => bool_decide (key1 = key2)
  end.

(** [UniqueList._check]: the loop over the comparison attributes. *)
Fixpoint check_attributes (ul : t) (atts : list string) (value other : obj)
  : result bool :=
  match atts with
  | [] => Ok true
  | att :: atts' =>
      match getattr value att with
      | Raise e => Raise e
      | Ok key1 =>
          match getattr other att with
          | Raise e => Raise e
          | Ok key2 =>
              if _compare ul key1 key2
              then check_attributes ul atts' value other
              else Ok false
          end
      end
  end.

Definition _check (ul : t) (value other : obj) : result bool :=
  check_attributes ul (comparison_attributes ul) value other.

(** [UniqueList._check_and_remove]: [i] indices are left to visit, from
    [i - 1] down to 0; a match is popped. *)
Fixpoint remove_from (value : obj) (i : nat) : M t unit :=
  match i with
  | O => ret tt
  | S j =>
      let* ul := get in
      let* other := lift (index (items ul) j) in
      let* same := lift (_check ul value other) in
      let* _ := (if same : bool then modify (set_items (delete j (items ul)))
                 else ret tt) in
      remove_from value j
  end.

Definition _check_and_remove (value : obj) : M t unit :=
  let* ul := get in
  remove_from value (length (items ul)).

(** [UniqueList.append] *)
Definition append (value : obj) : M t unit :=
  let* _ := _check_and_remove value in
  modify (fun ul => set_items (items ul ++ [value]) ul).

(** [UniqueList.extend]: every value is checked against the list, then
    all of them are added. *)
Fixpoint remove_each (values : list obj) : M t unit :=
  match values with
  | [] => ret tt
  | v :: values' =>
      let* _ := _check_and_remove v in
      remove_each values'
  end.

Definition extend (values : list obj) : M t unit :=
  let* _ := remove_each values in
  modify (fun ul => set_items (items ul ++ values) ul).

(** Two elements have equal composite keys. *)
Definition same_key (ul : t) (a b : obj) : Prop :=
  _check ul a b = Ok true.

(** No two elements of the list have equal composite keys. *)
Definition unique (ul : t) : Prop :=
  forall i j a b,
    items ul !! i = Some a -> items ul !! j = Some b ->
    same_key ul a b -> i = j.

(** A value with its strings in lower case when the case is ignored. *)
Definition normal_case (ic : bool) (k : value) : value :=
  match k with
  | VStr s => if ic then VStr (lower s) else k
  | VInt _ => k
  end.

(** [UniqueList.__setitem__] with an integer key: the value is checked
    against the element of every index [i != key], then the list is
    assigned to. *)
Fixpoint check_others (ul : t) (key : Z) (value : obj) (i : nat)
    (rest : list obj) : result unit :=
  match rest with
  | [] => Ok tt
  | other :: rest' =>
      if bool_decide (Z.of_nat i = key)
      then check_others ul key value (S i) rest'
      else
        match _check ul value other with
        | Raise e => Raise e
        | Ok true => Raise ValueError
        | Ok false => check_others ul key value (S i) rest'
        end
  end.

Definition __setitem__ (key : Z) (value : obj) : M t unit :=
  let* ul := get in
  let* _ := lift (check_others ul key value 0 (items ul)) in
  let* l := lift (setitem (items ul) key value) in
  modify (set_items l).

(** The keys of [UniqueList.__getitem__]: an integer, a string, or a
    list or tuple of values. *)
Inductive lookup_key : Type :=
  | KInt (i : Z)
  | KStr (s : string)
  | KSeq (keys : list value).

(** What it returns: an element, or a new list. *)
Inductive found : Type :=
  | Item (o : obj)
  | Narrowed (ul : t).

(** [[item for item in shortlist if self._compare(k, getattr(item, attr))]] *)
Definition matching (ul : t) (k : value) (attr : string) (shortlist : list obj)
  : result (list obj) :=
  select (fun item =>
            match getattr item attr with
            | Ok v => Ok (_compare ul k v)
            | Raise e => Raise e
            end) shortlist.

(** The loop of the sequence branch: [i] is the index of [attr]; the
    result holds the value that [i] has after the loop. [last] is that
    value when the loop runs out of attributes. *)
Fixpoint narrow (ul : t) (i last : nat) (attrs : list string)
    (key : list value) (shortlist : list obj) : result (nat * list obj) :=
  match attrs with
  | [] => Ok (last, shortlist)
  | attr :: attrs' =>
      match key !! i with
      | None => Ok (i, shortlist)
      | Some k =>
          match matching ul k attr shortlist with
          | Raise e => Raise e
          | Ok shortlist' => narrow ul (S i) i attrs' key shortlist'
          end
      end
  end.

(** A new list over the given attributes, extended with the shortlist. *)
Definition narrowed (attributes : list string) (shortlist : list obj)
  : result found :=
  match extend shortlist (init attributes false) with
  | (Ok _, new_list) => Ok (Narrowed new_list)
  | (Raise e, _) => Raise e
  end.

(** [UniqueList.__getitem__]. The list of comparison attributes is
    never empty after [__init__]; on an empty one the sequence branch
    would find [i] unbound, which is the IndexError of the string branch
    here. *)
Definition __getitem__ (ul : t) (key : lookup_key) : result found :=
  match key with
  | KInt i =>
      match getitem (items ul) i with
      | Ok o => Ok (Item o)
      | Raise e => Raise e
      end
  | KSeq keys =>
      match comparison_attributes ul with
      | [] => Raise IndexError
      | _ :: _ =>
          match narrow ul 0 0 (comparison_attributes ul) keys (items ul) with
          | Raise e => Raise e
          | Ok (i, shortlist) =>
              if bool_decide (Z.of_nat i = (Z.of_nat (length keys) - 1)%Z)
              then match index shortlist 0 with
                   | Ok o => Ok (Item o)
                   | Raise e => Raise e
                   end
              else narrowed (drop i (comparison_attributes ul)) shortlist
          end
      end
  | KStr s =>
      match comparison_attributes ul with
      | [] => Raise IndexError
      | attr :: rest =>
          match matching ul (VStr s) attr (items ul) with
          | Raise e => Raise e
          | Ok shortlist =>
              if Nat.eqb (length shortlist) 0 then Raise KeyError
              else if Nat.eqb (length (comparison_attributes ul)) 1
              then match index shortlist 0 with
                   | Ok o => Ok (Item o)
                   | Raise e => Raise e
                   end
              else narrowed rest shortlist
          end
      end
  end.

(** The element compares equal to the key on the leading attributes:
    [self._compare(key[i], getattr(item, attr))] for every [i] that both
    lists have. *)
Definition key_matches (ul : t) (keys : list value) (attrs : list string)
    (o : obj) : bool :=
  forallb (fun p : value * string =>
             match o !! p.2 with
             | Some v => _compare ul p.1 v
             | None => false
             end) (zip keys attrs).

(** What [_compare] looks at in a value: with [ignorecase], a string in
    lower case. *)
Definition normal (ul : t) (k : value) : value :=
  match k with
  | VStr s => if ignorecase ul then VStr (lower s) else k
  | VInt _ => k
  end.

(** The composite key of an element. *)
Definition key (ul : t) (o : obj) : list (option value) :=
  map (fun att => normal ul <$> o !! att) (comparison_attributes ul).

(** The element has all the comparison attributes. *)
Definition complete (ul : t) (o : obj) : Prop :=
  Forall (fun att => is_Some (o !! att)) (comparison_attributes ul).

(** The elements whose key is not the key of [value]. *)
Definition others (ul : t) (value : obj) (l : list obj) : list obj :=
  filter (fun o => key ul value <> key ul o) l.

(** A sequence of [append] calls. *)
Fixpoint append_all (values : list obj) : M t unit :=
  match values with
  | [] => ret tt
  | v :: values' => let* _ := append v in append_all values'
  end.

(** An element with the attribute [name], and a tag to tell it from
    others of that name. *)
Definition named (name : string) (tag : Z) : obj :=
  {[ "name"%string := VStr name; "tag"%string := VInt tag ]}.

End UniqueList.

(** ** src/utils.py: legalize, unit_convert_bytes

    Strings are Python strings of ASCII characters; on them [strip],
    [upper], [lower] and the classes [\w] and [\d] of [re] are the
    ones below. *)

Module Utils.
Import Py.
Import Stdlib.Strings.Ascii.

Definition code (c : Ascii.ascii) : nat := Ascii.nat_of_ascii c.

(** [str.isspace] on one character: tab to carriage return, the four
    separators, and the space. *)
Definition is_space (c : Ascii.ascii) : bool :=
  ((9 <=? code c) && (code c <=? 13)) || ((28 <=? code c) && (code c <=? 32)).

Definition is_digit (c : Ascii.ascii) : bool :=
  (48 <=? code c) && (code c <=? 57).

Definition is_upper (c : Ascii.ascii) : bool :=
  (65 <=? code c) && (code c <=? 90).

Definition is_lower (c : Ascii.ascii) : bool :=
  (97 <=? code c) && (code c <=? 122).

(** The class [\w]: letters, digits and the underscore. *)
Definition is_word (c : Ascii.ascii) : bool :=
  is_upper c || is_lower c || is_digit c || (code c =? 95).

Fixpoint lstrip (s : string) : string :=
  match s with
  | EmptyString => EmptyString
  | String c s' => if is_space c then lstrip s' else s
  end.

Fixpoint rstrip (s : string) : string :=
  match s with
  | EmptyString => EmptyString
  | String c s' =>
      match rstrip s' with
      | EmptyString => if is_space c then EmptyString else String c EmptyString
      | r => String c r
      end
  end.

(** [s.strip()] *)
Definition strip (s : string) : string := rstrip (lstrip s).

(** [s.replace(a, b)] for one-character strings [a] and [b]. *)
Fixpoint replace (a b : Ascii.ascii) (s : string) : string :=
  match s with
  | EmptyString => EmptyString
  | String c s' =>
      String (if Ascii.eqb c a then b else c) (replace a b s')
  end.

Definition upper_ascii (c : Ascii.ascii) : Ascii.ascii :=
  if is_lower c then Ascii.ascii_of_nat (code c - 32) else c.

(** [s.upper()] *)
Fixpoint upper (s : string) : string :=
  match s with
  | EmptyString => EmptyString
  | String c s' => String (upper_ascii c) (upper s')
  end.

Fixpoint all_chars (p : Ascii.ascii -> bool) (s : string) : bool :=
  match s with
  | EmptyString => true
  | String c s' => p c && all_chars p s'
  end.

Definition ascii_only (s : string) : Prop :=
  all_chars (fun c => code c <? 128) s = true.

(** A match of [(?!\d)\w+] that takes the whole string. *)
Definition word_string (s : string) : bool :=
  match s with
  | EmptyString => false
  | String c _ => negb (is_digit c) && all_chars is_word s
  end.

(** The string without a newline that ends it, if there is one. *)
Fixpoint chop_newline (s : string) : option string :=
  match s with
  | EmptyString => None
  | String c EmptyString => if code c =? 10 then Some EmptyString else None
  | String c s' =>
      match chop_newline s' with
      | Some r => Some (String c r)
      | None => None
      end
  end.

(** [re.match(LEGAL_NAME_RE, name) is not None], the expression being
    [^(?!\d)\w+$]: the dollar matches at the end of the string, and
    before a newline that ends it. *)
Definition legal_name (name : string) : bool :=
  word_string name
  || match chop_newline name with
     | Some w => word_string w
     | None => false
     end.

(** [legalize] *)
Definition legalize (name : string) (to_lower : bool) : result string :=
  let name := strip name in
  let name := replace "-"%char "_"%char (replace " "%char "_"%char name) in
  let name := if to_lower then lower name else upper name in
  if legal_name name then Ok name else Raise ValueError.

(** [s.endswith(c)] for a one-character string. *)
Fixpoint endswith (s : string) (c : Ascii.ascii) : bool :=
  match s with
  | EmptyString => false
  | String c' EmptyString => Ascii.eqb c' c
  | String _ s' => endswith s' c
  end.

(** [s[:-1]] *)
Fixpoint drop_last (s : string) : string :=
  match s with
  | EmptyString => EmptyString
  | String _ EmptyString => EmptyString
  | String c s' => String c (drop_last s')
  end.

(** The dictionary of [unit_convert_bytes], with its default. *)
Definition bytes_per (units : string) : Z :=
  if String.eqb units "byte" then 1%Z
  else if String.eqb units "kb" then 1024%Z
  else if String.eqb units "mb" then (1024 ^ 2)%Z
  else if String.eqb units "gb" then (1024 ^ 3)%Z
  else 1%Z.

(** [unit_convert_bytes] *)
Definition unit_convert_bytes (units : string) : Z :=
  let units := if endswith units "s"%char then drop_last units else units in
  bytes_per (lower units).

(** A string changed character by character. *)
Fixpoint map_chars (g : Ascii.ascii -> Ascii.ascii) (s : string) : string :=
  match s with
  | EmptyString => EmptyString
  | String c s' => String (g c) (map_chars g s')
  end.

(** What [legalize] does to one character after [strip]. *)
Definition legal_char (to_lower : bool) (c : Ascii.ascii) : Ascii.ascii :=
  let c := if Ascii.eqb c " "%char then "_"%char else c in
  let c := if Ascii.eqb c "-"%char then "_"%char else c in
  if to_lower then lower_ascii c else upper_ascii c.

(** The characters of a legal name in the chosen case. *)
Definition is_legal (to_lower : bool) (c : Ascii.ascii) : bool :=
  (if to_lower then is_lower c else is_upper c)
  || is_digit c || (code c =? 95).

End Utils.

(** ** src/utils.py: NamedList *)

Module NamedList.
Import Py.

(** The elements and their attribute values are those of [UniqueList]. *)
Definition obj : Type := UniqueList.obj.
Definition value : Type := UniqueList.value.

Record t : Type := mk {
  items : list obj;
  ignorecase : bool
}.

(** [NamedList.__init__] *)
Definition init (ignorecase : bool) : t :=
  {| items := []; ignorecase := ignorecase |}.

(** [list.append] *)
Definition append (o : obj) (nl : t) : t :=
  {| items := items nl ++ [o]; ignorecase := ignorecase nl |}.

(** [NamedList.convert_name]: only a string has [lower()]. *)
Definition convert_name (nl : t) (name : value) : result value :=
  if ignorecase nl then
    match name with
    | UniqueList.VStr s => Ok (UniqueList.VStr (lower s))
    | UniqueList.VInt _ => Raise AttributeError
    end
  else Ok name.

(** [[self.convert_name(item.name) for item in self]] *)
Definition names (nl : t) : result (list value) :=
  traverse (fun item =>
              result_bind (UniqueList.getattr item "name")
                          (convert_name nl)) (items nl).

(** [list.index(x)]: the first position of [x], or ValueError. *)
Fixpoint list_index (x : value) (l : list value) : result nat :=
  match l with
  | [] => Raise ValueError
  | y :: l' =>
      if bool_decide (y = x) then Ok 0
      else match list_index x l' with
           | Ok n => Ok (S n)
           | Raise e => Raise e
           end
  end.

(** The keys of [NamedList.__getitem__]: a string or an integer. *)
Inductive lookup_key : Type :=
  | KStr (s : string)
  | KInt (i : Z).

(** [NamedList.__getitem__] *)
Definition __getitem__ (nl : t) (index : lookup_key) : result obj :=
  match index with
  | KStr s =>
      result_bind (convert_name nl (UniqueList.VStr s)) (fun index_l =>
      result_bind (names nl) (fun all_names =>
      result_bind (list_index index_l all_names) (fun num_idx =>
      Py.index (items nl) num_idx)))
  | KInt i => getitem (items nl) i
  end.

(** [NamedList.__contains__] *)
Definition __contains__ (nl : t) (name : value) : result bool :=
  result_bind (convert_name nl name) (fun name_l =>
  result_bind (names nl) (fun all_names =>
  Ok (bool_decide (name_l ∈ all_names)))).

(** [NamedList.keys] *)
Definition keys (nl : t) : result (list value) :=
  traverse (fun item => UniqueList.getattr item "name") (items nl).

(** Every element has a name, and the name is a string. *)
Definition named (nl : t) : Prop :=
  Forall (fun o => exists s, o !! "name"%string = Some (UniqueList.VStr s))
         (items nl).

(** The name of an element as the list compares it. *)
Definition converted (nl : t) (o : obj) : option value :=
  UniqueList.normal_case (ignorecase nl) <$> o !! "name"%string.

End NamedList.

(** ** src/utils.py: CircularBufferList *)

Module CircularBufferList.
Import Py.

Section Buffer.
Context {A : Type}.

Record t : Type := mk {
  items : list A;
  size : Z;
  total : nat
}.

Definition set_items (l : list A) (b : t) : t :=
  {| items := l; size := size b; total := total b |}.

Definition set_total (n : nat) (b : t) : t :=
  {| items := items b; size := size b; total := n |}.

(** [CircularBufferList.__init__] *)
Definition init (size : Z) : t :=
  {| items := []; size := size; total := 0 |}.

(** [self.pop(0)] *)
Definition pop0 : M t A :=
  let* b := get in
  match items b with
  | [] => raise IndexError
  | x :: l => let* _ := modify (set_items l) in ret x
  end.

(** [CircularBufferList.append] *)
Definition append (value : A) : M t unit :=
  let* b := get in
  let* _ := (if (Z.of_nat (length (items b)) =? size b)%Z
             then let* _ := pop0 in ret tt
             else ret tt) in
  let* _ := modify (fun b => set_items (items b ++ [value]) b) in
  modify (fun b => set_total (total b + 1) b).

(** [CircularBufferList.extend] *)
Definition extend (value : list A) : M t unit :=
  let* _ := modify (fun b => set_total (total b + length value) b) in
  let* _ := modify (fun b => set_items (items b ++ value) b) in
  modify (fun b => set_items (slice_from (- size b) (items b)) b).

(** A call of one of the two methods. *)
Inductive op : Type :=
  | Append (value : A)
  | Extend (value : list A).

Definition run_op (o : op) : M t unit :=
  match o with
  | Append v => append v
  | Extend vs => extend vs
  end.

Fixpoint run (ops : list op) : M t unit :=
  match ops with
  | [] => ret tt
  | o :: ops' => let* _ := run_op o in run ops'
  end.

(** Everything the calls were given, in the order of insertion. *)
Definition inserted (ops : list op) : list A :=
  concat (map (fun o => match o with
                        | Append v => [v]
                        | Extend vs => vs
                        end) ops).

(** The last [n] elements of a list. *)
Definition last_n (n : nat) (l : list A) : list A :=
  drop (length l - n) l.

(** The state of a buffer of capacity [sz] that has been given [h]. *)
Definition holds (sz : Z) (h : list A) (b : t) : Prop :=
  items b = last_n (Z.to_nat sz) h /\ total b = length h /\ size b = sz.

End Buffer.
Arguments t A : clear implicits.
Arguments op A : clear implicits.

End CircularBufferList.

(** ** Concrete runs *)

Module Examples.
Import Float Py Finder.

(** A lightcurve with the given fluxes and flags, unit errors, robust
    mean 0 and robust scatter 1, so that [snr = flux]; the time stamps
    are 0, 1, 2, ...; its arrays can be written to. *)
Definition lightcurve_of (fluxes : list Z) (flags : list bool) : Lightcurve :=
  {| data := {| flux := map of_Z fluxes;
                fluxerr := map (fun _ => of_Z 1) fluxes;
                mag := map of_Z fluxes;
                flag := flags;
                snr := None; dmag := None; detected := None;
                writeable := true |};
     times := map (fun i => of_Z (Z.of_nat i)) (seq 0 (length fluxes));
     flux_mean_robust := fzero;
     flux_rms_robust := of_Z 1;
     raw_data := 0 |}.

(** The lightcurve with the read-only arrays of copy-on-write. *)
Definition read_only (lc : Lightcurve) : Lightcurve :=
  let d := data lc in
  {| data := {| flux := flux d; fluxerr := fluxerr d; mag := mag d;
                flag := flag d; snr := snr d; dmag := dmag d;
                detected := detected d; writeable := false |};
     times := times lc;
     flux_mean_robust := flux_mean_robust lc;
     flux_rms_robust := flux_rms_robust lc;
     raw_data := raw_data lc |}.

(** One point at 8, above the threshold 5. *)
Definition lc_peak : Lightcurve :=
  lightcurve_of [0; 8; 0]%Z [false; false; false].

(** One dip at -8. *)
Definition lc_dip : Lightcurve :=
  lightcurve_of [0; -8; 0]%Z [false; false; false].

(** A peak at 9 and a dip at -8. *)
Definition lc_peak_dip : Lightcurve :=
  lightcurve_of [9; -8]%Z [false; false].

(** Ten points, one of them at 8. *)
Definition lc_ten : Lightcurve :=
  lightcurve_of [1; 0; 2; 1; 8; 0; 1; 2; 0; 1]%Z (replicate 10 false).

(** No row at all. *)
Definition lc_empty : Lightcurve := lightcurve_of [] [].

(** Two points, both flagged. *)
Definition lc_flagged : Lightcurve :=
  lightcurve_of [0; 3]%Z [true; true].

(** Peaks at 9, 7 and 6. *)
Definition lc_three : Lightcurve :=
  lightcurve_of [9; 0; 7; 6]%Z [false; false; false; false].

(** The default parameters with up to [k] detections per lightcurve. *)
Definition pars_upto (k : nat) : Pars :=
  {| snr_threshold := of_Z 5;
     snr_threshold_sidebands := Some (of_Z (-2));
     max_det_per_lc := k;
     abs_snr := true |}.

(** Signed scores, and a window threshold equal to the detection
    threshold. *)
Definition pars_signed (k : nat) : Pars :=
  {| snr_threshold := of_Z 5;
     snr_threshold_sidebands := None;
     max_det_per_lc := k;
     abs_snr := false |}.

(** A window threshold of 8, above the detection threshold. *)
Definition pars_narrow (k : nat) : Pars :=
  {| snr_threshold := of_Z 5;
     snr_threshold_sidebands := Some (of_Z 8);
     max_det_per_lc := k;
     abs_snr := true |}.

(** A detection threshold below zero. *)
Definition pars_negative : Pars :=
  {| snr_threshold := of_Z (-1);
     snr_threshold_sidebands := Some (of_Z (-2));
     max_det_per_lc := 1;
     abs_snr := true |}.

(** The lightcurve [lc_three] with its scores, as the first pass of a
    call with [pars_narrow 3] finds it. *)
Definition lc_three_scored : Lightcurve :=
  scored (pars_narrow 3) None lc_three.

(** A list of names: "One" and "Two". *)
Definition nl_two : NamedList.t :=
  {| NamedList.items := [UniqueList.named "One" 1; UniqueList.named "Two" 2];
     NamedList.ignorecase := false |}.

(** A list compared by name: "a" and "b". *)
Definition ul_two : UniqueList.t :=
  {| UniqueList.items := [UniqueList.named "a" 1; UniqueList.named "b" 2];
     UniqueList.comparison_attributes := ["name"%string];
     UniqueList.ignorecase := false |}.

(** A list compared by name and tag: two elements of the name "a". *)
Definition ul_pair : UniqueList.t :=
  {| UniqueList.items :=
       [UniqueList.named "a" 1; UniqueList.named "a" 2;
        UniqueList.named "b" 3];
     UniqueList.comparison_attributes := ["name"%string; "tag"%string];
     UniqueList.ignorecase := false |}.

End Examples.

(** * Properties *)

(** ** The order of float64 *)

Section FloatOrder.
Import Float.

Ltac float_cases :=
  repeat match goal with
  | x : float |- _ => destruct x as [[]|[]| |[] ? ?]
  end.

Ltac compare_cases :=
  repeat match goal with
  | |- context [Z.compare ?a ?b] => destruct (Z.compare_spec a b)
  | H : context [Z.compare ?a ?b] |- _ => destruct (Z.compare_spec a b)
  | |- context [Pos.compare_cont Eq ?a ?b] =>
      change (Pos.compare_cont Eq a b) with (Pos.compare a b);
      destruct (Pos.compare_spec a b)
  | H : context [Pos.compare_cont Eq ?a ?b] |- _ =>
      change (Pos.compare_cont Eq a b) with (Pos.compare a b) in H;
      destruct (Pos.compare_spec a b)
  end.

Ltac float_order :=
  unfold flt, fle, SFltb, SFleb, SFcompare, is_nan, fabs, SFabs, fzero in *;
  float_cases; simpl in *; try discriminate; try reflexivity;
  compare_cases; simpl in *; try discriminate; try reflexivity; try lia.

Lemma fle_trans (x y z : float) :
  fle x y = true -> fle y z = true -> fle x z = true.
Proof. intros. float_order. Qed.

Lemma flt_fle_trans (x y z : float) :
  flt x y = true -> fle y z = true -> flt x z = true.
Proof. intros. float_order. Qed.

Lemma fle_flt_trans (x y z : float) :
  fle x y = true -> flt y z = true -> flt x z = true.
Proof. intros. float_order. Qed.

Lemma flt_trans (x y z : float) :
  flt x y = true -> flt y z = true -> flt x z = true.
Proof. intros. float_order. Qed.

Lemma flt_fle (x y : float) : flt x y = true -> fle x y = true.
Proof. intros. float_order. Qed.

Lemma fle_not_flt (x y : float) : fle x y = true -> flt y x = false.
Proof. intros. float_order. Qed.

Lemma fle_refl (x : float) : is_nan x = false -> fle x x = true.
Proof. intros. float_order. Qed.

Lemma fle_total (x y : float) :
  is_nan x = false -> is_nan y = false -> fle x y = false -> fle y x = true.
Proof. intros. float_order. Qed.

Lemma is_nan_fabs (x : float) : is_nan (fabs x) = is_nan x.
Proof. float_order. Qed.

End FloatOrder.

(** ** Method calls: what every step keeps, the whole call keeps *)

Section Preserves.
Import Py.
Context {S : Type} (R : S -> S -> Prop).
Hypothesis R_refl : forall s, R s s.
Hypothesis R_trans : forall s1 s2 s3, R s1 s2 -> R s2 s3 -> R s1 s3.

Lemma preserves_ret {A} (a : A) : preserves R (ret a).
Proof. intros s. apply R_refl. Qed.

Lemma preserves_raise {A} (e : exn) : preserves R (@raise S A e).
Proof. intros s. apply R_refl. Qed.

Lemma preserves_lift {A} (r : result A) : preserves R (lift r).
Proof. intros s. apply R_refl. Qed.

Lemma preserves_get : preserves R get.
Proof. intros s. apply R_refl. Qed.

Lemma preserves_modify (g : S -> S) :
  (forall s, R s (g s)) -> preserves R (modify g).
Proof. intros Hg s. apply Hg. Qed.

Lemma preserves_bind {A B} (m : M S A) (k : A -> M S B) :
  preserves R m -> (forall a, preserves R (k a)) -> preserves R (bind m k).
Proof.
  intros Hm Hk s. unfold bind. specialize (Hm s).
  destruct (m s) as [[a|e] s']; simpl in *.
  - eapply R_trans; [exact Hm | apply Hk].
  - exact Hm.
Qed.

End Preserves.

(** ** Method calls that return *)

Section Returns.
Import Py.
Context {S : Type}.

Lemma bind_Ok {A B} (m : M S A) (k : A -> M S B) (s s' : S) (b : B) :
  bind m k s = (Ok b, s') ->
  exists a s1, m s = (Ok a, s1) /\ k a s1 = (Ok b, s').
Proof.
  unfold bind. destruct (m s) as [[a|e] s1]; [eauto | discriminate].
Qed.

Lemma ret_Ok {A} (a b : A) (s s' : S) :
  ret a s = (Ok b, s') -> b = a /\ s' = s.
Proof. unfold ret. intros H. injection H as H1 H2. auto. Qed.

Lemma get_Ok (s s' s1 : S) : get s = (Ok s1, s') -> s1 = s /\ s' = s.
Proof. unfold get. intros H. injection H as H1 H2. auto. Qed.

Lemma modify_Ok (g : S -> S) (s s' : S) (u : unit) :
  modify g s = (Ok u, s') -> s' = g s.
Proof. unfold modify. intros H. injection H as _ H. congruence. Qed.

Lemma lift_Ok {A} (r : result A) (a : A) (s s' : S) :
  lift r s = (Ok a, s') -> r = Ok a /\ s' = s.
Proof. unfold lift. intros H. injection H as H1 H2. auto. Qed.

Lemma index_Ok {A} (l : list A) (i : nat) (x : A) :
  index l i = Ok x -> l !! i = Some x.
Proof. unfold index. destruct (l !! i); [congruence | discriminate]. Qed.

End Returns.

Ltac returns_steps :=
  repeat match goal with
  | H : Py.bind _ _ _ = (Py.Ok _, _) |- _ =>
      apply bind_Ok in H as (? & ? & ? & H)
  | H : Py.ret _ _ = (Py.Ok _, _) |- _ => apply ret_Ok in H as [? ?]
  | H : Py.get _ = (Py.Ok _, _) |- _ => apply get_Ok in H as [? ?]
  | H : Py.modify _ _ = (Py.Ok _, _) |- _ => apply modify_Ok in H
  | H : Py.lift _ _ = (Py.Ok _, _) |- _ => apply lift_Ok in H as [H ?]
  | H : Py.index _ _ = Py.Ok _ |- _ => apply index_Ok in H
  end.

Ltac preserves_steps Hrefl Htrans :=
  repeat first
    [ apply (preserves_bind _ Htrans); [| intros ?]
    | apply (preserves_ret _ Hrefl)
    | apply (preserves_raise _ Hrefl)
    | apply (preserves_lift _ Hrefl)
    | apply (preserves_get _ Hrefl)
    | match goal with
      | |- Py.preserves _ (if ?b then _ else _) => destruct b
      | |- Py.preserves _ (match ?x with _ => _ end) => destruct x
      end ].

(** ** The finder leaves the raw columns alone *)

Section Frame.
Import Float Py Finder.

Lemma same_raw_refl (lc : Lightcurve) : same_raw lc lc.
Proof. unfold same_raw. tauto. Qed.

Lemma same_raw_trans (lc1 lc2 lc3 : Lightcurve) :
  same_raw lc1 lc2 -> same_raw lc2 lc3 -> same_raw lc1 lc3.
Proof. unfold same_raw. intuition congruence. Qed.

Lemma same_raw_set_snr (c : list float) (lc : Lightcurve) :
  same_raw lc (set_snr c lc).
Proof. unfold same_raw. simpl. tauto. Qed.

Lemma same_raw_set_dmag (c : list float) (lc : Lightcurve) :
  same_raw lc (set_dmag c lc).
Proof. unfold same_raw. simpl. tauto. Qed.

Lemma same_raw_set_detected (c : option (list bool)) (lc : Lightcurve) :
  same_raw lc (set_detected c lc).
Proof. unfold same_raw. simpl. tauto. Qed.

Lemma column_preserves {A} (R : Lightcurve -> Lightcurve -> Prop)
    (c : DataFrame -> option A) :
  (forall lc, R lc lc) -> preserves R (column c).
Proof. intros Hrefl lc. unfold column. destruct (c (data lc)); apply Hrefl. Qed.

Ltac frame_steps :=
  repeat first
    [ progress preserves_steps same_raw_refl same_raw_trans
    | apply (column_preserves _ _ same_raw_refl)
    | apply preserves_modify; intros ?;
      first [ apply same_raw_set_snr | apply same_raw_set_dmag
            | apply same_raw_set_detected ] ].

Lemma add_scores_frame (f : Pars) (source : option Source) :
  preserves same_raw (add_scores f source).
Proof. unfold add_scores, estimate_flux_noise. frame_steps. Qed.

Lemma init_detected_frame : preserves same_raw init_detected.
Proof. unfold init_detected. frame_steps. Qed.

Lemma select_peak_frame (f : Pars) : preserves same_raw (select_peak f).
Proof. unfold select_peak. frame_steps. Qed.

Lemma make_detection_frame (f : Pars) (idx : nat) (source : option Source)
    (sim : option SimPars) :
  preserves same_raw (make_detection f idx source sim).
Proof.
  unfold make_detection, get_event_indices, mark_detected. frame_steps.
Qed.

Lemma extract_frame (f : Pars) (k : nat) (source : option Source)
    (sim : option SimPars) :
  preserves same_raw (extract f k source sim).
Proof.
  induction k as [|k IH]; simpl.
  - frame_steps.
  - apply (preserves_bind _ same_raw_trans); [apply select_peak_frame|].
    intros p. destruct (flt _ _); [|frame_steps].
    apply (preserves_bind _ same_raw_trans); [apply make_detection_frame|].
    intros det. apply (preserves_bind _ same_raw_trans); [apply IH|].
    intros dets. frame_steps.
Qed.

Lemma ingest_lightcurve_frame (f : Pars) (source : option Source)
    (sim : option SimPars) :
  preserves same_raw (ingest_lightcurve f source sim).
Proof.
  unfold ingest_lightcurve.
  apply (preserves_bind _ same_raw_trans); [apply add_scores_frame|].
  intros _. apply (preserves_bind _ same_raw_trans); [apply init_detected_frame|].
  intros _. apply extract_frame.
Qed.

Lemma ingest_lightcurves_frame (f : Pars) (lcs : list Lightcurve)
    (source : option Source) (sim : option SimPars) :
  Forall2 same_raw lcs (snd (ingest_lightcurves f lcs source sim)).
Proof.
  induction lcs as [|lc rest IH]; simpl; [constructor|].
  pose proof (ingest_lightcurve_frame f source sim lc) as Hlc.
  destruct (ingest_lightcurve f source sim lc) as [[dets|e] lc']; simpl in *.
  - destruct (ingest_lightcurves f rest source sim) as [[dets'|e] rest'];
      simpl in *; constructor; assumption.
  - constructor; [assumption|].
    clear. induction rest; constructor; auto using same_raw_refl.
Qed.

(** C9. A call of [ingest_lightcurves], on one lightcurve or on a list,
    with any parameters and whether it returns or raises, leaves the raw
    columns [flux], [fluxerr], [mag], [flag] and the time stamps of every
    lightcurve as they were: the lightcurve afterwards differs at most in
    the derived columns [snr], [dmag] and [detected]. *)
Theorem ingest_keeps_raw_columns (f : Pars) (source : option Source)
    (sim : option SimPars) :
  (forall lc : Lightcurve,
     let lc' := snd (ingest_lightcurve f source sim lc) in
     flux (data lc') = flux (data lc)
     /\ fluxerr (data lc') = fluxerr (data lc)
     /\ mag (data lc') = mag (data lc)
     /\ flag (data lc') = flag (data lc)
     /\ times lc' = times lc)
  /\ (forall lcs : list Lightcurve,
        Forall2 same_raw lcs (snd (ingest_lightcurves f lcs source sim))).
Proof.
  split.
  - intros lc. pose proof (ingest_lightcurve_frame f source sim lc) as H.
    unfold same_raw in H. simpl. tauto.
  - intros lcs. apply ingest_lightcurves_frame.
Qed.

End Frame.

(** ** The noise floor *)

Section Noise.
Import Float Py Finder.

Lemma maximum_upper_bound (a b : float) :
  is_nan a = false -> is_nan b = false ->
  fle a (Numpy.maximum a b) = true /\ fle b (Numpy.maximum a b) = true
  /\ (Numpy.maximum a b = a \/ Numpy.maximum a b = b).
Proof.
  intros Ha Hb. unfold Numpy.maximum. rewrite Ha, orb_false_r.
  destruct (fle b a) eqn:Hba.
  - auto using fle_refl.
  - auto using fle_refl, fle_total.
Qed.

(** C7. [estimate_flux_noise] returns, does not touch the lightcurve, and
    its array has one entry per row: entry [i] is numpy's maximum of
    [fluxerr[i]] and [flux_rms_robust] (the larger of the two, NaN when
    one of them is NaN). A second call on the lightcurve returns the same
    array again. *)
Theorem estimate_flux_noise_floor (f : Pars) (source : option Source)
    (lc : Lightcurve) :
  exists noise : list float,
    estimate_flux_noise f source lc = (Ok noise, lc)
    /\ length noise = length (fluxerr (data lc))
    /\ (wf_lc lc = true -> length noise = nrows lc)
    /\ (forall i e, fluxerr (data lc) !! i = Some e ->
          noise !! i = Some (Numpy.maximum e (flux_rms_robust lc)))
    /\ (forall i e n, fluxerr (data lc) !! i = Some e -> noise !! i = Some n ->
          is_nan e = false -> is_nan (flux_rms_robust lc) = false ->
          fle e n = true /\ fle (flux_rms_robust lc) n = true
          /\ (n = e \/ n = flux_rms_robust lc))
    /\ (let* n1 := estimate_flux_noise f source in
        let* n2 := estimate_flux_noise f source in
        ret (n1, n2)) lc = (Ok (noise, noise), lc).
Proof.
  eexists. split; [reflexivity|].
  assert (Hnth : forall i e, fluxerr (data lc) !! i = Some e ->
    map (fun e0 => Numpy.maximum e0 (flux_rms_robust lc))
        (fluxerr (data lc)) !! i
    = Some (Numpy.maximum e (flux_rms_robust lc))).
  { intros i e He. change (@map float float) with (@fmap list _ float float).
    rewrite list_lookup_fmap, He. reflexivity. }
  repeat split.
  - apply length_map.
  - intros Hwf. rewrite length_map. unfold wf_lc in Hwf.
    repeat (apply andb_prop in Hwf; destruct Hwf as [Hwf ?]).
    apply Nat.eqb_eq. assumption.
  - exact Hnth.
  - rewrite (Hnth _ _ H) in H0. injection H0 as <-.
    apply maximum_upper_bound; assumption.
  - rewrite (Hnth _ _ H) in H0. injection H0 as <-.
    apply maximum_upper_bound; assumption.
  - rewrite (Hnth _ _ H) in H0. injection H0 as <-.
    apply maximum_upper_bound; assumption.
Qed.

End Noise.

(** ** The loop: how many detections, and where it stops *)

Section Loop.
Import Float Py Finder.
Context (f : Pars) (source : option Source) (sim : option SimPars).

Lemma ingest_lightcurve_scored (lc : Lightcurve) :
  ingest_lightcurve f source sim lc
  = extract f (max_det_per_lc f) source sim (scored f source lc).
Proof.
  unfold ingest_lightcurve, scored, add_scores, init_detected,
    estimate_flux_noise, bind, get, modify, ret. simpl.
  destruct (detected (data lc)); reflexivity.
Qed.

Lemma extract_length (k : nat) (lc : Lightcurve) :
  length (emitted (fst (extract f k source sim lc))) <= k.
Proof.
  revert lc. induction k as [|k IH]; intros lc; simpl; [lia|].
  unfold bind. destruct (select_peak f lc) as [[p|e] lc1]; simpl; [|lia].
  destruct (flt _ _); simpl; [|lia].
  destruct (make_detection _ _ _ _ lc1) as [[det|e] lc2]; simpl; [|lia].
  specialize (IH lc2).
  destruct (extract f k source sim lc2) as [[dets|e] lc3]; simpl in *; lia.
Qed.

Lemma extract_stops (k : nat) (lc lc1 : Lightcurve) (p : nat * float) :
  select_peak f lc = (Ok p, lc1) ->
  flt (snr_threshold f) (snd p) = false ->
  extract f (S k) source sim lc = (Ok [], lc1).
Proof. intros Hp Hmx. simpl. unfold bind. rewrite Hp, Hmx. reflexivity. Qed.

Lemma peak_trace_stops (k : nat) (lc : Lightcurve) (i : nat) (mx : float) :
  peak_trace f k source sim lc !! i = Some mx ->
  flt (snr_threshold f) mx = false ->
  length (peak_trace f k source sim lc) = S i.
Proof.
  revert lc i. induction k as [|k IH]; intros lc i; simpl; [discriminate|].
  destruct (select_peak f lc) as [[p|e] lc1]; [|discriminate].
  destruct i as [|i]; simpl.
  - intros [= ->] Hmx. rewrite Hmx. reflexivity.
  - destruct (flt _ (snd p)); [|discriminate].
    destruct (make_detection _ _ _ _ lc1) as [[det|e] lc2]; [|discriminate].
    intros Hi Hmx. f_equal. eapply IH; eassumption.
Qed.

Lemma extract_counts (k : nat) (lc : Lightcurve) (dets : list Detection) :
  fst (extract f k source sim lc) = Ok dets ->
  length dets
  = length (List.filter (flt (snr_threshold f)) (peak_trace f k source sim lc)).
Proof.
  revert lc dets. induction k as [|k IH]; intros lc dets; simpl.
  - intros [= <-]. reflexivity.
  - unfold bind. destruct (select_peak f lc) as [[p|e] lc1]; [|discriminate].
    simpl. destruct (flt _ (snd p)); simpl.
    + destruct (make_detection _ _ _ _ lc1) as [[det|e] lc2]; [|discriminate].
      specialize (IH lc2).
      destruct (extract f k source sim lc2) as [[ds|e] lc3]; [|discriminate].
      simpl. intros [= <-]. simpl. f_equal. apply IH. reflexivity.
    + intros [= <-]. reflexivity.
Qed.

Lemma ingest_lightcurves_length (lcs : list Lightcurve) :
  length (emitted (fst (ingest_lightcurves f lcs source sim)))
  <= max_det_per_lc f * length lcs.
Proof.
  induction lcs as [|lc rest IH]; simpl; [lia|].
  pose proof (extract_length (max_det_per_lc f) (scored f source lc)) as Hlc.
  rewrite <- ingest_lightcurve_scored in Hlc.
  destruct (ingest_lightcurve f source sim lc) as [[dets|e] lc1];
    simpl in *; [|lia].
  destruct (ingest_lightcurves f rest source sim) as [[dets'|e] rest'];
    simpl in *; [|lia].
  rewrite length_app, Nat.mul_succ_r. lia.
Qed.

(** C3. One call on a lightcurve emits at most [max_det_per_lc]
    detections, and a call on a list at most that many for each
    lightcurve of the list. The loop stops at the first pass whose
    masked maximum does not exceed [snr_threshold]: that pass returns
    with nothing emitted and is the last one taken, so every detection
    comes from a pass whose maximum did exceed the threshold. *)
Theorem extractor_bounded_and_stops (lc : Lightcurve) :
  let k := max_det_per_lc f in
  let trace := peak_trace f k source sim (scored f source lc) in
  length (emitted (fst (ingest_lightcurve f source sim lc))) <= k
  /\ (forall lcs,
        length (emitted (fst (ingest_lightcurves f lcs source sim)))
        <= k * length lcs)
  /\ (forall j lc0 lc1 p,
        select_peak f lc0 = (Ok p, lc1) ->
        flt (snr_threshold f) (snd p) = false ->
        extract f (S j) source sim lc0 = (Ok [], lc1))
  /\ (forall i mx,
        trace !! i = Some mx -> flt (snr_threshold f) mx = false ->
        length trace = S i)
  /\ (forall dets,
        fst (ingest_lightcurve f source sim lc) = Ok dets ->
        length dets = length (List.filter (flt (snr_threshold f)) trace)).
Proof.
  simpl. rewrite ingest_lightcurve_scored. repeat split.
  - apply extract_length.
  - apply ingest_lightcurves_length.
  - intros. eapply extract_stops; eassumption.
  - intros. eapply peak_trace_stops; eassumption.
  - intros. apply extract_counts. assumption.
Qed.

End Loop.

(** ** One pass of the loop *)

Section Pass.
Import Float Py Finder.
Context (f : Pars).

Lemma argmax_from_spec (pre l : list float) (mp : float) (best : nat) :
  (pre ++ l) !! best = Some mp ->
  is_nan mp = false ->
  (forall j x, pre !! j = Some x -> fle x mp = true) ->
  (forall j x, l !! j = Some x -> is_nan x = false) ->
  exists m,
    (pre ++ l) !! Numpy.argmax_from mp best (length pre) l = Some m
    /\ forall j x, (pre ++ l) !! j = Some x -> fle x m = true.
Proof.
  revert pre mp best. induction l as [|y l IH]; intros pre mp best Hb Hmp Hpre Hl.
  - simpl. exists mp. split; [assumption|].
    intros j x. rewrite app_nil_r. apply Hpre.
  - simpl. rewrite Hmp.
    assert (Hy : is_nan y = false) by (apply (Hl 0); reflexivity).
    assert (Hl' : forall j x, l !! j = Some x -> is_nan x = false).
    { intros j x Hj. apply (Hl (S j)). exact Hj. }
    assert (Hlen : length (pre ++ [y]) = S (length pre)).
    { rewrite length_app. simpl. lia. }
    replace (pre ++ y :: l) with ((pre ++ [y]) ++ l) in *
      by (rewrite <- app_assoc; reflexivity).
    destruct (fle y mp) eqn:Hle.
    + rewrite <- Hlen. apply IH; try assumption.
      intros j x Hj. apply lookup_app_Some in Hj as [Hj|[_ Hj]].
      * eapply Hpre; eassumption.
      * destruct (j - length pre) as [|n]; simpl in Hj; [|discriminate].
        injection Hj as <-. assumption.
    + rewrite <- Hlen. apply IH; try assumption.
      * rewrite lookup_app_l by (rewrite Hlen; lia).
        rewrite lookup_app_r by lia. rewrite Nat.sub_diag. reflexivity.
      * intros j x Hj. apply lookup_app_Some in Hj as [Hj|[_ Hj]].
        -- apply fle_trans with mp; [eapply Hpre; eassumption|].
           apply fle_total; assumption.
        -- destruct (j - length pre) as [|n]; simpl in Hj; [|discriminate].
           injection Hj as <-. apply fle_refl. assumption.
Qed.

(** On an array without NaN, [np.argmax] is the index of an entry that
    no entry exceeds. *)
Lemma argmax_spec (l : list float) (idx : nat) :
  (forall j x, l !! j = Some x -> is_nan x = false) ->
  Numpy.argmax l = Ok idx ->
  exists m, l !! idx = Some m /\ forall j x, l !! j = Some x -> fle x m = true.
Proof.
  destruct l as [|y l]; [discriminate|]. intros Hl [= <-].
  assert (Hy : is_nan y = false) by (apply (Hl 0); reflexivity).
  apply (argmax_from_spec [y] l y 0); try assumption; try reflexivity.
  - intros j x Hj. destruct j; simpl in Hj; [|discriminate].
    injection Hj as <-. apply fle_refl. assumption.
  - intros j x Hj. apply (Hl (S j)). exact Hj.
Qed.

Lemma argmax_nonempty (l : list float) :
  l <> [] -> exists idx, Numpy.argmax l = Ok idx.
Proof. destruct l; [congruence|]. intros _. eexists. reflexivity. Qed.

(** The entries of the working array: zero where the mask holds, the
    score elsewhere. *)
Lemma masked_snr_lookup (lc : Lightcurve) (j : nat) (y : float) :
  masked_snr f lc !! j = Some y ->
  exists col det x d fl,
    snr (data lc) = Some col /\ detected (data lc) = Some det
    /\ (if abs_snr f then fabs <$> col !! j else col !! j) = Some x
    /\ det !! j = Some d /\ flag (data lc) !! j = Some fl
    /\ y = (if d || fl || is_nan x then fzero else x).
Proof.
  unfold masked_snr.
  destruct (snr (data lc)) as [col|]; [|discriminate].
  destruct (detected (data lc)) as [det|]; [|discriminate].
  unfold Numpy.set_where. intros Hj.
  apply lookup_zip_with_Some in Hj as (x & b & -> & Hx & Hb).
  apply lookup_zip_with_Some in Hb as (b1 & b2 & -> & Hb1 & Hb2).
  apply lookup_zip_with_Some in Hb1 as (d & fl & -> & Hd & Hfl).
  exists col, det, x, d, fl. repeat split; try assumption.
  - destruct (abs_snr f); [|assumption].
    change (@map float float) with (@fmap list _ float float) in Hx.
    rewrite list_lookup_fmap in Hx. assumption.
  - change (@map float bool) with (@fmap list _ float bool) in Hb2.
    rewrite list_lookup_fmap, Hx in Hb2. injection Hb2 as <-. reflexivity.
Qed.

Lemma masked_snr_lookup_inv (lc : Lightcurve) (col : list float)
    (det : list bool) (j : nat) (x : float) (d fl : bool) :
  snr (data lc) = Some col -> detected (data lc) = Some det ->
  (if abs_snr f then fabs <$> col !! j else col !! j) = Some x ->
  det !! j = Some d -> flag (data lc) !! j = Some fl ->
  masked_snr f lc !! j = Some (if d || fl || is_nan x then fzero else x).
Proof.
  intros Hcol Hdet Hx Hd Hfl. unfold masked_snr. rewrite Hcol, Hdet.
  unfold Numpy.set_where. apply lookup_zip_with_Some.
  exists x, (d || fl || is_nan x). split; [reflexivity|].
  assert (Hx' : (if abs_snr f then map fabs col else col) !! j = Some x).
  { destruct (abs_snr f); [|assumption].
    change (@map float float) with (@fmap list _ float float).
    rewrite list_lookup_fmap. assumption. }
  split; [assumption|].
  apply lookup_zip_with_Some. exists (d || fl), (is_nan x).
  split; [reflexivity|]. split.
  - apply lookup_zip_with_Some. exists d, fl. auto.
  - change (@map float bool) with (@fmap list _ float bool).
    rewrite list_lookup_fmap, Hx'. reflexivity.
Qed.

Lemma masked_snr_no_nan (lc : Lightcurve) (j : nat) (y : float) :
  masked_snr f lc !! j = Some y -> is_nan y = false.
Proof.
  intros Hj. apply masked_snr_lookup in Hj
    as (col & det & x & d & fl & _ & _ & _ & _ & _ & ->).
  destruct (is_nan x) eqn:Hx; [rewrite !orb_true_r; reflexivity|].
  rewrite orb_false_r. destruct (d || fl); [reflexivity | assumption].
Qed.

(** What [select_peak] returns and leaves behind. *)
Lemma select_peak_Ok (lc lc1 : Lightcurve) (p : nat * float) :
  select_peak f lc = (Ok p, lc1) ->
  Numpy.argmax (masked_snr f lc) = Ok (fst p)
  /\ masked_snr f lc !! fst p = Some (snd p)
  /\ lc1 = (if abs_snr f then lc else set_snr (masked_snr f lc) lc)
  /\ exists col det,
       snr (data lc) = Some col /\ detected (data lc) = Some det.
Proof.
  unfold select_peak, masked_snr, bind, column, get, modify, lift, ret, index.
  destruct (snr (data lc)) as [col|]; [|discriminate].
  destruct (detected (data lc)) as [det|] eqn:Hdet; [|discriminate].
  destruct (abs_snr f) eqn:Habs; simpl.
  - match goal with |- context [Numpy.argmax ?w] => set (w1 := w) end.
    destruct (Numpy.argmax w1) as [idx|e]; [|discriminate].
    destruct (w1 !! idx) as [mx|] eqn:Hmx; [|discriminate].
    intros [= <- <-]. simpl. eauto 10.
  - destruct (writeable (data lc)); [simpl | discriminate].
    match goal with |- context [Numpy.argmax ?w] => set (w1 := w) end.
    destruct (Numpy.argmax w1) as [idx|e]; [|discriminate].
    destruct (w1 !! idx) as [mx|] eqn:Hmx; [|discriminate].
    intros [= <- <-]. simpl. eauto 10.
Qed.

Lemma select_peak_max (lc lc1 : Lightcurve) (p : nat * float) :
  select_peak f lc = (Ok p, lc1) ->
  forall j x, masked_snr f lc !! j = Some x -> fle x (snd p) = true.
Proof.
  intros Hp. apply select_peak_Ok in Hp as (Harg & Hmx & _).
  apply argmax_spec in Harg as (m & Hm & Hmax).
  - rewrite Hmx in Hm. injection Hm as <-. exact Hmax.
  - apply masked_snr_no_nan.
Qed.

End Pass.

Section Detection.
Import Float Py Finder.
Context (f : Pars) (source : option Source) (sim : option SimPars).

Lemma column_Ok {A} (c : DataFrame -> option A) (lc lc' : Lightcurve)
    (v : A) :
  column c lc = (Ok v, lc') -> c (data lc) = Some v /\ lc' = lc.
Proof.
  unfold column. destruct (c (data lc)); [|discriminate].
  intros [= -> ->]. auto.
Qed.

Lemma loc_Ok {A} (col : list A) (label : nat) (x : A) :
  loc col label = Ok x -> col !! label = Some x.
Proof. unfold loc. destruct (col !! label); [congruence | discriminate]. Qed.

(** What [make_detection] returns and leaves behind. *)
Lemma make_detection_Ok (idx : nat) (lc1 lc2 : Lightcurve) (d : Detection) :
  make_detection f idx source sim lc1 = (Ok d, lc2) ->
  exists col det,
    snr (data lc1) = Some col /\ detected (data lc1) = Some det
    /\ time_indices d = map (fun x => flt (event_threshold f) x) col
    /\ lc2 = set_detected (Some (zip_with orb det (time_indices d))) lc1
    /\ col !! idx = Some (det_snr d)
    /\ times lc1 !! idx = Some (time_peak d)
    /\ Numpy.where_true (time_indices d) <> [].
Proof.
  unfold make_detection, get_event_indices, mark_detected. intros H.
  returns_steps. subst.
  repeat match goal with
  | H : column _ _ = (Ok _, _) |- _ => apply column_Ok in H as [H ?]
  end. subst.
  repeat match goal with
  | H : bind _ _ _ = (Ok _, _) |- _ => simpl in H
  end.
  returns_steps. subst.
  match goal with H : loc _ _ = Ok _ |- _ => apply loc_Ok in H end.
  simpl. eexists _, _. repeat split; try eassumption.
  - congruence.
  - intros Hnil.
    match goal with H : Numpy.where_true _ !! 0 = Some _ |- _ =>
      rewrite Hnil in H; discriminate end.
Qed.

(** From one pass to the next: an entry of the working array is the
    entry of the pass before, or zero. *)
Lemma masked_snr_next (lc lc1 lc2 : Lightcurve) (p : nat * float)
    (d : Detection) (j : nat) (y : float) :
  select_peak f lc = (Ok p, lc1) ->
  make_detection f (fst p) source sim lc1 = (Ok d, lc2) ->
  masked_snr f lc2 !! j = Some y ->
  y = fzero \/ masked_snr f lc !! j = Some y.
Proof.
  intros Hp Hd Hj.
  apply select_peak_Ok in Hp as (_ & _ & -> & col & det & Hcol & Hdet).
  apply make_detection_Ok in Hd
    as (col1 & det1 & Hcol1 & Hdet1 & Hti & -> & _).
  apply masked_snr_lookup in Hj
    as (col2 & det2 & x & d2 & fl & Hcol2 & Hdet2 & Hx & Hd2 & Hfl & ->).
  simpl in Hcol2, Hdet2, Hfl. injection Hdet2 as <-.
  apply lookup_zip_with_Some in Hd2 as (b & t & -> & Hb & Ht).
  destruct (b || t || fl || is_nan x) eqn:Hmask; [left; reflexivity|right].
  apply orb_false_elim in Hmask as [Hmask Hnan].
  apply orb_false_elim in Hmask as [Hmask ->].
  apply orb_false_elim in Hmask as [-> ->].
  destruct (abs_snr f) eqn:Habs.
  - rewrite Hcol in Hcol1, Hcol2. rewrite Hdet in Hdet1.
    injection Hcol1 as <-. injection Hcol2 as <-. injection Hdet1 as <-.
    rewrite (masked_snr_lookup_inv f lc col det j x false false);
      try assumption.
    + simpl. rewrite Hnan. reflexivity.
    + rewrite Habs. assumption.
  - simpl in Hcol1, Hdet1, Hcol2. injection Hcol2 as <-. assumption.
Qed.

(** The maximum of a pass is at most the maximum of the pass before. *)
Lemma peak_next (lc lc1 lc2 lc3 : Lightcurve) (p p' : nat * float)
    (d : Detection) :
  fle fzero (snr_threshold f) = true ->
  select_peak f lc = (Ok p, lc1) ->
  flt (snr_threshold f) (snd p) = true ->
  make_detection f (fst p) source sim lc1 = (Ok d, lc2) ->
  select_peak f lc2 = (Ok p', lc3) ->
  fle (snd p') (snd p) = true.
Proof.
  intros Hthr Hp Hmx Hd Hp'.
  pose proof (select_peak_Ok f _ _ _ Hp') as (_ & Hmx' & _).
  destruct (masked_snr_next _ _ _ _ _ _ _ Hp Hd Hmx') as [->|Hprev].
  - apply flt_fle. eapply fle_flt_trans; eassumption.
  - eapply select_peak_max; eassumption.
Qed.

Lemma peak_trace_non_increasing (k : nat) (lc : Lightcurve) :
  fle fzero (snr_threshold f) = true ->
  non_increasing (peak_trace f k source sim lc).
Proof.
  intros Hthr. revert lc. induction k as [|k IH]; intros lc i a b; simpl.
  - discriminate.
  - destruct (select_peak f lc) as [[p|e] lc1] eqn:Hp; [|discriminate].
    destruct (flt (snr_threshold f) (snd p)) eqn:Hmx;
      [|destruct i; discriminate].
    destruct (make_detection f (fst p) source sim lc1) as [[d|e] lc2] eqn:Hd;
      [|destruct i; discriminate].
    destruct i as [|i]; simpl.
    + intros [= <-] Hb. destruct k as [|k']; simpl in Hb; [discriminate|].
      destruct (select_peak f lc2) as [[p'|e] lc3] eqn:Hp'; [|discriminate].
      simpl in Hb. injection Hb as <-.
      eapply peak_next; eassumption.
    + apply IH.
Qed.

(** The score of an emitted detection, as the threshold sees it, is the
    masked maximum of its pass. *)
Lemma pass_score (lc lc1 lc2 : Lightcurve) (p : nat * float)
    (d : Detection) :
  fle fzero (snr_threshold f) = true ->
  select_peak f lc = (Ok p, lc1) ->
  flt (snr_threshold f) (snd p) = true ->
  make_detection f (fst p) source sim lc1 = (Ok d, lc2) ->
  seen f (det_snr d) = snd p.
Proof.
  intros Hthr Hp Hmx Hd.
  apply select_peak_Ok in Hp as (_ & Hpeak & Hlc1 & _).
  apply make_detection_Ok in Hd
    as (col1 & det1 & Hcol1 & _ & _ & _ & Hs & _).
  pose proof Hpeak as Hpk.
  apply masked_snr_lookup in Hpeak
    as (col & det & x & b & fl & Hcol & Hdet & Hx & Hb & Hfl & Hval).
  assert (Hm : b || fl || is_nan x = false).
  { destruct (b || fl || is_nan x); [|reflexivity].
    rewrite Hval in Hmx. apply fle_not_flt in Hthr. congruence. }
  rewrite Hm in Hval. unfold seen.
  destruct (abs_snr f) eqn:Habs; subst lc1.
  - rewrite Hcol in Hcol1. injection Hcol1 as <-.
    rewrite Hs in Hx. simpl in Hx. congruence.
  - simpl in Hcol1. injection Hcol1 as <-. congruence.
Qed.

(** The scores of the detections that the loop returns are the masked
    maxima of its passes, in the order of the passes. *)
Lemma extract_scores (k : nat) (lc lc' : Lightcurve)
    (dets : list Detection) :
  fle fzero (snr_threshold f) = true ->
  extract f k source sim lc = (Ok dets, lc') ->
  map (fun d => seen f (det_snr d)) dets
  = take (length dets) (peak_trace f k source sim lc).
Proof.
  intros Hthr. revert lc dets.
  induction k as [|k IH]; intros lc dets Hrun.
  - injection Hrun as <- _. reflexivity.
  - simpl in Hrun. apply bind_Ok in Hrun as (p & lc1 & Hp & Hrun).
    simpl. rewrite Hp.
    destruct (flt (snr_threshold f) (snd p)) eqn:Hmx.
    2:{ injection Hrun as <- _. reflexivity. }
    apply bind_Ok in Hrun as (d0 & lc2 & Hd0 & Hrun).
    apply bind_Ok in Hrun as (dets' & lc3 & Hrest & Hrun).
    injection Hrun as <- <-. rewrite Hd0. simpl.
    rewrite (pass_score _ _ _ _ _ Hthr Hp Hmx Hd0).
    f_equal. apply IH. exact Hrest.
Qed.

Lemma non_increasing_take (n : nat) (l : list float) :
  non_increasing l -> non_increasing (take n l).
Proof.
  intros Hl i a b Ha Hb.
  apply lookup_take_Some in Ha as [Ha _].
  apply lookup_take_Some in Hb as [Hb _].
  exact (Hl i a b Ha Hb).
Qed.

(** C10. With [snr_threshold >= 0], the detections that one call on a
    lightcurve returns come in non-increasing order of significance:
    the score of each detection, as the threshold sees it, is the
    masked maximum of the pass that emitted it, these maxima are the
    first entries of the maxima of all passes of the call, and the
    maximum of each pass is at most the maximum of the pass before. *)
Theorem peaks_non_increasing (lc : Lightcurve) :
  fle fzero (snr_threshold f) = true ->
  let dets := emitted (fst (ingest_lightcurve f source sim lc)) in
  let scores := map (fun d => seen f (det_snr d)) dets in
  let trace :=
    peak_trace f (max_det_per_lc f) source sim (scored f source lc) in
  non_increasing scores
  /\ scores = take (length dets) trace
  /\ non_increasing trace.
Proof.
  intros Hthr dets scores trace.
  pose proof (peak_trace_non_increasing (max_det_per_lc f)
                (scored f source lc) Hthr) as Htrace.
  assert (Hscores : scores = take (length dets) trace).
  { unfold scores, dets, trace. rewrite ingest_lightcurve_scored.
    destruct (extract f (max_det_per_lc f) source sim (scored f source lc))
      as [[ds|e] lc'] eqn:Hrun; [|reflexivity].
    simpl. eapply extract_scores; eassumption. }
  split; [|split; assumption].
  rewrite Hscores. apply non_increasing_take. exact Htrace.
Qed.

End Detection.

(** ** A lightcurve without usable points *)

Section NoUsablePoint.
Import Float Py Finder.
Context (f : Pars) (source : option Source) (sim : option SimPars).

Lemma wf_lc_lengths (lc : Lightcurve) :
  wf_lc lc = true ->
  length (fluxerr (data lc)) = nrows lc
  /\ length (flag (data lc)) = nrows lc
  /\ length (times lc) = nrows lc
  /\ (forall c, snr (data lc) = Some c -> length c = nrows lc)
  /\ (forall c, detected (data lc) = Some c -> length c = nrows lc).
Proof.
  unfold wf_lc, same_length. intros H.
  repeat (apply andb_prop in H; destruct H as [H ?]).
  repeat match goal with
  | H : Nat.eqb _ _ = true |- _ => apply Nat.eqb_eq in H
  end.
  repeat split; try assumption.
  - intros c Hc. rewrite Hc in *. apply Nat.eqb_eq. assumption.
  - intros c Hc. rewrite Hc in *. apply Nat.eqb_eq. assumption.
Qed.

(** The lightcurve when the loop starts: both score columns are new, and
    the [detected] column is the one that was there, or all False. *)
Lemma scored_eq (lc : Lightcurve) :
  scored f source lc
  = set_detected
      (Some (match detected (data lc) with
             | Some det => det
             | None => replicate (nrows lc) false
             end))
      (set_dmag
         (map (fun m => fsub m (Numpy.median (mag (data lc)))) (mag (data lc)))
         (set_snr
            (zip_with fdiv
               (map (fun x => fsub x (flux_mean_robust lc)) (flux (data lc)))
               (map (fun e => Numpy.maximum e (flux_rms_robust lc))
                    (fluxerr (data lc))))
            lc)).
Proof.
  unfold scored, add_scores, init_detected, estimate_flux_noise, bind, get,
    modify, ret. simpl.
  destruct lc as [[fl fe mg fg s dm [det|] w] ts mean rms raw]; reflexivity.
Qed.

Lemma scored_columns (lc : Lightcurve) :
  wf_lc lc = true ->
  exists col det,
    snr (data (scored f source lc)) = Some col
    /\ detected (data (scored f source lc)) = Some det
    /\ flag (data (scored f source lc)) = flag (data lc)
    /\ times (scored f source lc) = times lc
    /\ length col = nrows lc /\ length det = nrows lc.
Proof.
  intros Hwf. apply wf_lc_lengths in Hwf as (Hfe & Hfg & Hts & _ & Hdet).
  rewrite scored_eq. simpl. eexists _, _. repeat split.
  - rewrite length_zip_with, !length_map, Hfe. unfold nrows. lia.
  - destruct (detected (data lc)) as [det|].
    + apply Hdet. reflexivity.
    + apply length_replicate.
Qed.

(** [select_peak] on a lightcurve that has both columns, when the
    working array can be assigned to. *)
Lemma select_peak_run (lc : Lightcurve) (col : list float) (det : list bool) :
  snr (data lc) = Some col -> detected (data lc) = Some det ->
  abs_snr f = true \/ writeable (data lc) = true ->
  select_peak f lc
  = (match Numpy.argmax (masked_snr f lc) with
     | Ok idx =>
         match index (masked_snr f lc) idx with
         | Ok mx => Ok (idx, mx)
         | Raise e => Raise e
         end
     | Raise e => Raise e
     end,
     if abs_snr f then lc else set_snr (masked_snr f lc) lc).
Proof.
  intros Hcol Hdet Hw.
  unfold select_peak, masked_snr, bind, column, get, modify, lift, ret.
  rewrite Hcol. cbn. rewrite Hdet. cbn.
  destruct (abs_snr f); cbn.
  - destruct (Numpy.argmax _) as [idx|e]; [|reflexivity].
    destruct (index _ idx); reflexivity.
  - destruct Hw as [Hw|Hw]; [discriminate|]. rewrite Hw. cbn.
    destruct (Numpy.argmax _) as [idx|e]; [|reflexivity].
    destruct (index _ idx); reflexivity.
Qed.

(** With [abs_snr] off and a read-only array, the assignment
    [snr[mask] = 0] raises before anything is selected. *)
Lemma select_peak_read_only (lc : Lightcurve) (col : list float)
    (det : list bool) :
  snr (data lc) = Some col -> detected (data lc) = Some det ->
  abs_snr f = false -> writeable (data lc) = false ->
  select_peak f lc = (Raise ValueError, lc).
Proof.
  intros Hcol Hdet Habs Hw.
  unfold select_peak, bind, column, get, raise.
  rewrite Hcol. cbn. rewrite Hdet. cbn. rewrite Habs, Hw. reflexivity.
Qed.

Lemma masked_snr_length (lc : Lightcurve) (col : list float)
    (det : list bool) :
  snr (data lc) = Some col -> detected (data lc) = Some det ->
  length col = length (flag (data lc)) -> length det = length col ->
  length (masked_snr f lc) = length col.
Proof.
  intros Hcol Hdet Hfg Hd. unfold masked_snr, Numpy.set_where.
  rewrite Hcol, Hdet. rewrite !length_zip_with.
  destruct (abs_snr f); rewrite !length_map; lia.
Qed.

(** When no point is usable, the working array is all zero. *)
Lemma masked_snr_unusable (lc : Lightcurve) (j : nat) (y : float) :
  usable lc j = false -> masked_snr f lc !! j = Some y -> y = fzero.
Proof.
  intros Hu Hj. apply masked_snr_lookup in Hj
    as (col & det & x & d & fl & Hcol & Hdet & Hx & Hd & Hfl & ->).
  unfold usable in Hu. rewrite Hcol, Hdet, Hd, Hfl in Hu. simpl in Hu.
  assert (Hn : default true (is_nan <$> col !! j) = is_nan x).
  { destruct (abs_snr f).
    - destruct (col !! j) as [c|]; [|discriminate]. simpl in *.
      injection Hx as <-. symmetry. apply is_nan_fabs.
    - rewrite Hx. reflexivity. }
  rewrite Hn in Hu.
  destruct d, fl, (is_nan x); simpl in *; try reflexivity; discriminate.
Qed.

Lemma select_peak_unusable (lc : Lightcurve) (col : list float)
    (det : list bool) :
  snr (data lc) = Some col -> detected (data lc) = Some det ->
  abs_snr f = true \/ writeable (data lc) = true ->
  masked_snr f lc <> [] ->
  (forall j, j < length (masked_snr f lc) -> usable lc j = false) ->
  exists idx,
    select_peak f lc
    = (Ok (idx, fzero), if abs_snr f then lc else set_snr (masked_snr f lc) lc).
Proof.
  intros Hcol Hdet Hw Hne Hu.
  rewrite (select_peak_run lc col det Hcol Hdet Hw).
  destruct (argmax_nonempty _ Hne) as [idx Hidx]. rewrite Hidx.
  destruct (argmax_spec _ _ (masked_snr_no_nan f lc) Hidx) as (m & Hm & _).
  exists idx. unfold index. rewrite Hm.
  assert (m = fzero) as ->; [|reflexivity].
  eapply masked_snr_unusable; [|exact Hm].
  apply Hu. eapply lookup_lt_Some. exact Hm.
Qed.

Lemma scored_writeable (lc : Lightcurve) :
  writeable (data (scored f source lc)) = writeable (data lc).
Proof. rewrite scored_eq. reflexivity. Qed.

(** C8, as the code has it. For a lightcurve with at least one row, all
    rows unusable (detected, flagged, or with a NaN score), and with
    [snr_threshold >= 0]: when [abs_snr] is on, or the arrays of the
    dataframe can be written to, the call returns without raising and
    emits no detection; the loop takes one pass, whose masked maximum
    is 0, and stops. When [abs_snr] is off and the arrays are read-only,
    the first pass raises ValueError at [snr[mask] = 0]. *)
Theorem no_usable_point_no_detection (lc : Lightcurve) :
  fle fzero (snr_threshold f) = true ->
  wf_lc lc = true ->
  0 < nrows lc ->
  (forall i, i < nrows lc -> usable (scored f source lc) i = false) ->
  (abs_snr f = true \/ writeable (data lc) = true ->
   (exists lc', ingest_lightcurve f source sim lc = (Ok [], lc'))
   /\ peak_trace f (max_det_per_lc f) source sim (scored f source lc)
      = match max_det_per_lc f with O => [] | S _ => [fzero] end)
  /\ (abs_snr f = false -> writeable (data lc) = false ->
      0 < max_det_per_lc f ->
      ingest_lightcurve f source sim lc
      = (Raise ValueError, scored f source lc)).
Proof.
  intros Hthr Hwf Hrows Hu.
  rewrite ingest_lightcurve_scored.
  destruct (scored_columns lc Hwf)
    as (col & det & Hcol & Hdet & Hfg & _ & Hlc & Hld).
  apply wf_lc_lengths in Hwf as (_ & Hflag & _).
  assert (Hlen : length (masked_snr f (scored f source lc)) = nrows lc).
  { rewrite (masked_snr_length _ col det); try assumption.
    - rewrite Hfg. lia.
    - lia. }
  split.
  - intros Hw. rewrite <- scored_writeable in Hw.
    destruct (select_peak_unusable (scored f source lc) col det Hcol Hdet Hw)
      as [idx Hidx].
    + intros Hnil. rewrite Hnil in Hlen. simpl in Hlen. lia.
    + intros j Hj. apply Hu. lia.
    + assert (Hno : flt (snr_threshold f) fzero = false)
        by (apply fle_not_flt; assumption).
      destruct (max_det_per_lc f) as [|k]; simpl.
      * split; [eexists; reflexivity | reflexivity].
      * unfold bind. rewrite Hidx. simpl. rewrite Hno.
        split; [eexists; reflexivity | reflexivity].
  - intros Habs Hw Hk. rewrite <- scored_writeable in Hw.
    destruct (max_det_per_lc f) as [|k]; [lia|]. simpl. unfold bind.
    rewrite (select_peak_read_only _ col det Hcol Hdet Habs Hw).
    reflexivity.
Qed.

End NoUsablePoint.

(** ** Ingesting a lightcurve again *)

Section Again.
Import Float Py Finder Examples.
Context (f : Pars) (source : option Source) (sim : option SimPars).

(** The state in which the loop starts depends on the raw columns and on
    the [detected] column only. *)
Lemma scored_same_raw (lc lc' : Lightcurve) :
  same_raw lc lc' -> detected (data lc') = detected (data lc) ->
  scored f source lc' = scored f source lc.
Proof.
  intros Hraw Hdet. rewrite !scored_eq. unfold nrows.
  destruct lc as [[fl fe mg fg s dm det w] ts mean rms raw].
  destruct lc' as [[fl' fe' mg' fg' s' dm' det' w'] ts' mean' rms' raw'].
  unfold same_raw in Hraw. simpl in *.
  destruct Hraw as (-> & -> & -> & -> & -> & -> & -> & -> & ->). subst det'.
  reflexivity.
Qed.

(** C4, as the code has it. The marks that a call leaves in the
    [detected] column stay on the lightcurve, and the next call starts
    from them. The finder itself keeps nothing: once the column is put
    back to what it was before the call, ingesting the lightcurve again
    with the same finder gives the result of the first call again, the
    same detections and the same lightcurve afterwards. *)
Theorem reingest_after_reset (lc : Lightcurve) :
  ingest_lightcurve f source sim
    (set_detected (detected (data lc))
       (snd (ingest_lightcurve f source sim lc)))
  = ingest_lightcurve f source sim lc.
Proof.
  set (lc1 := snd (ingest_lightcurve f source sim lc)).
  rewrite (ingest_lightcurve_scored f source sim (set_detected _ lc1)).
  rewrite (ingest_lightcurve_scored f source sim lc).
  f_equal. apply scored_same_raw; [|reflexivity].
  eapply same_raw_trans; [apply ingest_lightcurve_frame|].
  apply same_raw_set_detected.
Qed.

End Again.

Section AgainExamples.
Import Float Py Finder Examples.

(** The claim C4 fails on [lc_peak]: the first call emits the detection
    of the point at 8 and marks it; the second call on the same
    lightcurve finds the point masked and emits nothing. *)
Lemma second_ingest_differs :
  let first := ingest_lightcurve default_pars None None lc_peak in
  let second := ingest_lightcurve default_pars None None (snd first) in
  length (emitted (fst first)) = 1
  /\ emitted (fst second) = []
  /\ fst second <> fst first.
Proof. vm_compute. repeat split. discriminate. Qed.

(** C2 on the code, with the default parameters and a single dip at -8:
    the loop selects index 1 with [|snr| = 8 > 5], but the window is
    taken from the signed scores, [snr > 5 + (-2)], and holds no index
    at all, not even the peak; [make_detection] raises IndexError. *)
Theorem dip_detection_raises :
  let lc0 := scored default_pars None lc_dip in
  fst (select_peak default_pars lc0) = Ok (1, of_Z 8)
  /\ flt (snr_threshold default_pars) (of_Z 8) = true
  /\ fst (get_event_indices default_pars lc0) = Ok [false; false; false]
  /\ fst (ingest_lightcurve default_pars None None lc_dip) = Raise IndexError.
Proof. vm_compute. repeat split. Qed.

(** C1 on the code, with a peak at 9, a dip at -8 and up to two
    detections: the second detection is the dip, and its window is the
    window of the first one again. *)
Theorem peak_and_dip_overlap :
  exists d1 d2 lc',
    ingest_lightcurve (pars_upto 2) None None lc_peak_dip = (Ok [d1; d2], lc')
    /\ time_indices d1 = [true; false]
    /\ time_indices d2 = [true; false]
    /\ ~ disjoint_masks (time_indices d1) (time_indices d2).
Proof.
  eexists _, _, _. split; [vm_compute; reflexivity|]. simpl.
  repeat split. intros H. apply (H 0); reflexivity.
Qed.

End AgainExamples.

(** ** CircularBufferList *)

Section CircularBuffer.
Import Py CircularBufferList.
Context {A : Type}.
Implicit Types (l h vs : list A) (b : t A).

Lemma last_n_length (n : nat) l : length (last_n n l) = Nat.min n (length l).
Proof. unfold last_n. rewrite length_drop. lia. Qed.

Lemma last_n_all (n : nat) l : length l <= n -> last_n n l = l.
Proof.
  intros H. unfold last_n. replace (length l - n) with 0 by lia.
  apply drop_0.
Qed.

(** Only the last [n] elements of what was there matter for the last [n]
    elements after more have been added. *)
Lemma last_n_app (n : nat) h vs :
  last_n n (last_n n h ++ vs) = last_n n (h ++ vs).
Proof.
  destruct (Nat.le_gt_cases (length h) n) as [Hle|Hgt].
  - rewrite (last_n_all n h) by assumption. reflexivity.
  - unfold last_n at 1 3. rewrite !length_app, last_n_length.
    unfold last_n.
    replace (Nat.min n (length h) + length vs - n) with (length vs) by lia.
    replace (length h + length vs - n)
      with ((length h - n) + length vs) by lia.
    rewrite <- drop_drop. f_equal.
    rewrite drop_app_le by lia. reflexivity.
Qed.

Lemma slice_from_last_n (sz : Z) l :
  (1 <= sz)%Z -> slice_from (- sz) l = last_n (Z.to_nat sz) l.
Proof.
  intros Hsz. unfold slice_from, last_n.
  destruct (Z.ltb_spec (- sz) 0); [|lia]. f_equal. lia.
Qed.

Lemma append_holds (sz : Z) h b (v : A) :
  (1 <= sz)%Z -> holds sz h b ->
  exists b', append v b = (Ok tt, b') /\ holds sz (h ++ [v]) b'.
Proof.
  intros Hsz (Hit & Htot & Hsize).
  unfold append, pop0, bind, get, modify, ret, raise. rewrite Hsize.
  assert (Hlen : length (items b) = Nat.min (Z.to_nat sz) (length h))
    by (rewrite Hit; apply last_n_length).
  destruct (Z.eqb_spec (Z.of_nat (length (items b))) sz) as [Heq|Hne].
  - destruct (items b) as [|x l] eqn:Hitems; [simpl in Heq; lia|].
    simpl. eexists. split; [reflexivity|].
    unfold holds. simpl. repeat split; try assumption.
    + rewrite <- last_n_app, <- Hit. unfold last_n.
      simpl in Heq. rewrite length_app. simpl.
      replace (S (length l + 1) - Z.to_nat sz) with 1 by lia.
      reflexivity.
    + rewrite length_app. simpl. lia.
  - simpl. eexists. split; [reflexivity|].
    unfold holds. simpl. repeat split; try assumption.
    + rewrite <- last_n_app, <- Hit. symmetry. apply last_n_all.
      rewrite length_app. simpl. lia.
    + rewrite length_app. simpl. lia.
Qed.

Lemma extend_holds (sz : Z) h b vs :
  (1 <= sz)%Z -> holds sz h b ->
  exists b', extend vs b = (Ok tt, b') /\ holds sz (h ++ vs) b'.
Proof.
  intros Hsz (Hit & Htot & Hsize).
  unfold extend, bind, modify. simpl. eexists. split; [reflexivity|].
  unfold holds. simpl. repeat split; try assumption.
  - rewrite Hsize, slice_from_last_n by assumption.
    rewrite Hit. apply last_n_app.
  - rewrite length_app. lia.
Qed.

Lemma run_holds (sz : Z) (ops : list (op A)) h b :
  (1 <= sz)%Z -> holds sz h b ->
  exists b', run ops b = (Ok tt, b') /\ holds sz (h ++ inserted ops) b'.
Proof.
  intros Hsz. revert h b. induction ops as [|o ops IH]; intros h b Hb.
  - exists b. split; [reflexivity|]. unfold inserted. simpl.
    rewrite app_nil_r. assumption.
  - assert (Hstep : exists b1, run_op o b = (Ok tt, b1)
      /\ holds sz (h ++ inserted [o]) b1).
    { unfold inserted. simpl. rewrite app_nil_r. destruct o as [v|vs].
      - apply append_holds; assumption.
      - apply extend_holds; assumption. }
    destruct Hstep as (b1 & Hrun & Hb1).
    destruct (IH _ _ Hb1) as (b' & Hrun' & Hb').
    exists b'. split.
    + simpl. unfold bind. rewrite Hrun. assumption.
    + unfold inserted in *. simpl in *.
      rewrite app_nil_r, <- app_assoc in Hb'. assumption.
Qed.

(** C6, as the code has it. For a capacity [size >= 1], every sequence
    of [append] and [extend] calls on a new buffer returns, and leaves
    the buffer with the last [size] of all elements it was given, in the
    order of insertion; its length is [min(total, size)], and [total]
    is the number of all elements given, evicted ones included. *)
Theorem circular_buffer_keeps_last (sz : Z) (ops : list (op A)) :
  (1 <= sz)%Z ->
  exists b,
    run ops (init sz) = (Ok tt, b)
    /\ items b = last_n (Z.to_nat sz) (inserted ops)
    /\ Z.of_nat (length (items b)) = Z.min (Z.of_nat (total b)) sz
    /\ total b = length (inserted ops)
    /\ size b = sz.
Proof.
  intros Hsz.
  destruct (run_holds sz ops [] (init sz) Hsz) as (b & Hrun & Hit & Htot & Hs).
  { unfold holds, init, last_n. simpl. auto. }
  simpl in *. exists b. repeat split; try assumption.
  rewrite Hit, last_n_length, Htot. lia.
Qed.

End CircularBuffer.

Section CircularBufferExamples.
Import Py CircularBufferList.

(** The claim C6 fails for the capacity 0: [extend] keeps everything, as
    [self[-0:]] is the whole list, and [append] raises, as it pops from
    the empty list. *)
Lemma zero_capacity_buffer :
  (exists b, run [Extend [1; 2]] (init 0%Z) = (Ok tt, b)
     /\ items b = [1; 2]
     /\ Z.of_nat (length (items b)) <> Z.min (Z.of_nat (total b)) (size b))
  /\ fst (run [Append 1] (init 0%Z)) = Raise IndexError.
Proof.
  split; [|reflexivity].
  eexists. split; [reflexivity|]. split; [reflexivity|]. simpl. lia.
Qed.

(** The run of the test suite: capacity 3, appending 1, 2, 3, 4, then
    extending with 5 and 6. *)
Example circular_buffer_test :
  let b1 := snd (run [Append 1; Append 2; Append 3; Append 4] (init 3%Z)) in
  let b2 := snd (run [Extend [5; 6]] b1) in
  items b1 = [2; 3; 4] /\ total b1 = 4 /\ items b2 = [4; 5; 6] /\ total b2 = 6.
Proof. vm_compute. repeat split. Qed.

End CircularBufferExamples.

(** ** UniqueList *)

Section Unique.
Import Py UniqueList.
Implicit Types (ul : t) (o value other : obj) (l : list obj).

Lemma _compare_normal ul (k1 k2 : UniqueList.value) :
  _compare ul k1 k2 = bool_decide (normal ul k1 = normal ul k2).
Proof.
  unfold _compare, normal.
  destruct k1 as [s1|z1], k2 as [s2|z2], (ignorecase ul);
    try reflexivity; apply bool_decide_ext; split; congruence.
Qed.

Lemma check_attributes_key ul (atts : list string) value other :
  Forall (fun att => is_Some (value !! att)) atts ->
  Forall (fun att => is_Some (other !! att)) atts ->
  check_attributes ul atts value other
  = Ok (bool_decide
          (map (fun att => normal ul <$> value !! att) atts
           = map (fun att => normal ul <$> other !! att) atts)).
Proof.
  induction atts as [|att atts IH]; intros Hv Ho; simpl.
  - reflexivity.
  - apply Forall_cons in Hv as [[k1 Hk1] Hv].
    apply Forall_cons in Ho as [[k2 Hk2] Ho].
    unfold getattr. rewrite Hk1, Hk2. simpl.
    rewrite _compare_normal.
    destruct (decide (normal ul k1 = normal ul k2)) as [Hk|Hk].
    + rewrite (bool_decide_eq_true_2 _ Hk), IH by assumption.
      f_equal. apply bool_decide_ext.
      rewrite Hk. split; [congruence|]. intros H. injection H. auto.
    + rewrite (bool_decide_eq_false_2 _ Hk).
      f_equal. symmetry. apply bool_decide_eq_false. congruence.
Qed.

(** On elements that have the attributes, [_check] decides the equality
    of the composite keys. *)
Lemma _check_key ul value other :
  complete ul value -> complete ul other ->
  _check ul value other = Ok (bool_decide (key ul value = key ul other)).
Proof. apply check_attributes_key. Qed.

Lemma remove_from_others value (i : nat) ul l :
  complete ul value -> Forall (complete ul) l -> i <= length l ->
  remove_from value i (set_items l ul)
  = (Ok tt, set_items (others ul value (take i l) ++ drop i l) ul).
Proof.
  intros Hv. revert l. induction i as [|j IH]; intros l Hall Hi.
  - reflexivity.
  - destruct (lookup_lt_is_Some_2 l j) as [other Hj]; [lia|].
    assert (Hother : complete ul other).
    { eapply Forall_lookup_1; eassumption. }
    simpl. unfold bind at 1. unfold get. unfold bind at 1.
    unfold lift at 1, index. simpl. rewrite Hj.
    unfold bind at 1. unfold lift at 1.
    rewrite (_check_key (set_items l ul)) by assumption.
    change (key (set_items l ul)) with (key ul).
    rewrite (take_S_r _ _ _ Hj). unfold others. rewrite filter_app.
    destruct (decide (key ul value = key ul other)) as [Hk|Hk].
    + rewrite (bool_decide_eq_true_2 _ Hk). simpl.
      rewrite filter_cons_False, filter_nil by tauto.
      unfold bind at 1. unfold modify at 1.
      change (set_items (delete j l) (set_items l ul))
        with (set_items (delete j l) ul).
      rewrite IH.
      * f_equal. f_equal. rewrite app_nil_r.
        rewrite !delete_take_drop.
        rewrite take_app_le by (rewrite length_take; lia).
        rewrite take_take.
        rewrite drop_app_le by (rewrite length_take; lia).
        replace (j `min` j) with j by lia.
        rewrite (drop_ge (take j l)) by (rewrite length_take; lia).
        reflexivity.
      * apply Forall_delete. exact Hall.
      * rewrite length_delete by (eexists; exact Hj). lia.
    + rewrite (bool_decide_eq_false_2 _ Hk). simpl.
      rewrite filter_cons_True, filter_nil by assumption.
      unfold bind at 1. unfold ret at 1.
      rewrite IH by (assumption || lia).
      f_equal. f_equal. rewrite <- app_assoc. simpl.
      rewrite (drop_S _ _ _ Hj). reflexivity.
Qed.

Lemma set_items_items ul : set_items (items ul) ul = ul.
Proof. destruct ul; reflexivity. Qed.

Lemma _check_and_remove_others value ul :
  complete ul value -> Forall (complete ul) (items ul) ->
  _check_and_remove value ul
  = (Ok tt, set_items (others ul value (items ul)) ul).
Proof.
  intros Hv Hall. unfold _check_and_remove, bind, get.
  rewrite <- (set_items_items ul) at 2.
  rewrite remove_from_others by (assumption || lia).
  rewrite firstn_all, drop_all, app_nil_r. reflexivity.
Qed.

(** [append] removes the elements with the key of [value] and puts
    [value] at the tail. *)
Lemma append_others value ul :
  complete ul value -> Forall (complete ul) (items ul) ->
  append value ul
  = (Ok tt, set_items (others ul value (items ul) ++ [value]) ul).
Proof.
  intros Hv Hall. unfold append, bind.
  rewrite _check_and_remove_others by assumption. reflexivity.
Qed.

Lemma others_keys ul value l :
  NoDup (key ul <$> l) ->
  NoDup (key ul <$> (others ul value l ++ [value])).
Proof.
  intros Hl. rewrite fmap_app. apply NoDup_app. repeat split.
  - unfold others. induction l as [|o l IH]; [constructor|].
    rewrite fmap_cons in Hl. apply NoDup_cons in Hl as [Ho Hl].
    rewrite filter_cons. destruct (decide _); [|auto].
    rewrite fmap_cons. apply NoDup_cons. split; [|auto].
    intros Hin. apply Ho.
    apply list_elem_of_fmap in Hin as (o' & Hk & Hin).
    apply list_elem_of_filter in Hin as [_ Hin].
    apply list_elem_of_fmap. eauto.
  - intros k Hk Hv. apply list_elem_of_fmap in Hk as (o & -> & Ho).
    apply list_elem_of_filter in Ho as [Hne _].
    apply list_elem_of_singleton in Hv. simpl in Hv. congruence.
  - apply NoDup_singleton.
Qed.

(** On elements that have the attributes, [unique] says that the keys
    of the list are pairwise different. *)
Lemma unique_keys ul :
  Forall (complete ul) (items ul) ->
  unique ul <-> NoDup (key ul <$> items ul).
Proof.
  intros Hall. rewrite NoDup_alt. unfold unique, same_key. split.
  - intros Hu i j k Hi Hj.
    rewrite list_lookup_fmap in Hi, Hj.
    destruct (items ul !! i) as [a|] eqn:Ha; [|discriminate].
    destruct (items ul !! j) as [b|] eqn:Hb; [|discriminate].
    simpl in Hi, Hj. apply (Hu i j a b Ha Hb).
    rewrite _check_key by (eapply Forall_lookup_1; eassumption).
    f_equal. apply bool_decide_eq_true_2. congruence.
  - intros Hn i j a b Ha Hb Hsame.
    rewrite _check_key in Hsame by (eapply Forall_lookup_1; eassumption).
    injection Hsame as Hsame. apply bool_decide_eq_true_1 in Hsame.
    apply (Hn i j (key ul a)); rewrite list_lookup_fmap.
    + rewrite Ha. reflexivity.
    + rewrite Hb, Hsame. reflexivity.
Qed.

Lemma append_all_keys (values : list obj) ul l :
  Forall (complete ul) values -> Forall (complete ul) l ->
  NoDup (key ul <$> l) ->
  exists l',
    append_all values (set_items l ul) = (Ok tt, set_items l' ul)
    /\ Forall (complete ul) l' /\ NoDup (key ul <$> l').
Proof.
  revert l. induction values as [|v values IH]; intros l Hvs Hl Hn.
  - exists l. repeat split; assumption.
  - apply Forall_cons in Hvs as [Hv Hvs].
    simpl. unfold bind. rewrite append_others by assumption. simpl.
    change (key (set_items l ul)) with (key ul).
    change (set_items ?x (set_items l ul)) with (set_items x ul).
    change (others (set_items l ul)) with (others ul).
    apply IH; [assumption| |].
    + apply Forall_app. split; [|constructor; [assumption|constructor]].
      unfold others. apply Forall_forall. intros o Ho.
      apply list_elem_of_filter in Ho as [_ Ho].
      eapply Forall_forall in Hl; eassumption.
    + apply others_keys. assumption.
Qed.

(** What the code does for C5 on the [append] path: any sequence of
    [append] calls, on elements that have the comparison attributes,
    returns and leaves a list without two elements of equal keys; one
    [append] leaves its value at the tail, after the elements of the
    other keys. *)
Lemma append_keeps_unique (attributes : list string) (ic : bool)
    (values : list obj) :
  let ul0 := init attributes ic in
  Forall (complete ul0) values ->
  exists ul,
    append_all values ul0 = (Ok tt, ul) /\ unique ul
    /\ forall value,
         complete ul0 value ->
         exists ul',
           append value ul = (Ok tt, ul')
           /\ items ul' = others ul value (items ul) ++ [value]
           /\ unique ul'.
Proof.
  intros ul0 Hvs.
  destruct (append_all_keys values ul0 [] Hvs) as (l & Hrun & Hl & Hn);
    [constructor | constructor |].
  exists (set_items l ul0). split; [exact Hrun|]. split.
  - apply unique_keys; assumption.
  - intros value Hv. eexists. split; [apply append_others; assumption|].
    split; [reflexivity|].
    apply unique_keys; simpl.
    + apply Forall_app. split; [|constructor; [assumption|constructor]].
      unfold others. apply Forall_forall. intros o Ho.
      apply list_elem_of_filter in Ho as [_ Ho].
      eapply Forall_forall in Hl; eassumption.
    + apply (others_keys ul0). assumption.
Qed.

End Unique.

Section UniqueExamples.
Import Py UniqueList.

(** C5 on the code: [extend] with two elements of the name "a" on an
    empty list checks each of them against the list only, and adds
    both. *)
Theorem extend_keeps_duplicates :
  let a1 := named "a" 1 in
  let a2 := named "a" 2 in
  let r := extend [a1; a2] (init [] false) in
  fst r = Ok tt
  /\ items (snd r) = [a1; a2]
  /\ same_key (snd r) a1 a2
  /\ ~ unique (snd r).
Proof.
  split; [reflexivity|]. split; [reflexivity|]. split; [reflexivity|].
  intros Hu.
  specialize (Hu 0 1 (named "a" 1) (named "a" 2) eq_refl eq_refl eq_refl).
  discriminate.
Qed.

(** The run of the test suite: "object one", "object two", then another
    "object one"; the first one is gone and the new one is at the tail. *)
Example unique_list_test :
  let r := append_all [named "object one" 1; named "object two" 2;
                       named "object one" 3] (init [] false) in
  fst r = Ok tt
  /\ items (snd r) = [named "object two" 2; named "object one" 3].
Proof. split; reflexivity. Qed.

End UniqueExamples.

(** ** The theorems at work on concrete runs *)

Section Witnesses.
Import Float Py Finder Examples.

Lemma estimate_flux_noise_floor_witness :
  exists noise,
    estimate_flux_noise default_pars None lc_peak = (Ok noise, lc_peak)
    /\ length noise = 3
    /\ noise !! 1 = Some (of_Z 1)
    /\ fle (of_Z 1) (of_Z 1) = true.
Proof.
  destruct (estimate_flux_noise_floor default_pars None lc_peak)
    as (noise & Hrun & _ & Hrows & Hmax & Hge & _).
  exists noise. split; [exact Hrun|]. split; [exact (Hrows eq_refl)|].
  split; [exact (Hmax 1 (of_Z 1) eq_refl)|].
  exact (proj1 (Hge 1 (of_Z 1) (of_Z 1) eq_refl
                  (Hmax 1 (of_Z 1) eq_refl) eq_refl eq_refl)).
Defined.

Lemma extractor_bounded_and_stops_witness :
  let f := pars_narrow 3 in
  length (emitted (fst (ingest_lightcurve f None None lc_three))) <= 3
  /\ extract f 1 None None (scored f None lc_flagged)
     = (Ok [], scored f None lc_flagged)
  /\ length (peak_trace f 3 None None (scored f None lc_flagged)) = 1.
Proof.
  split.
  - exact (proj1 (extractor_bounded_and_stops
                    (pars_narrow 3) None None lc_three)).
  - destruct (extractor_bounded_and_stops (pars_narrow 3) None None lc_flagged)
      as (_ & _ & Hstop & Hlast & _).
    split.
    + apply (Hstop 0 _ _ (0, fzero)); reflexivity.
    + apply (Hlast 0 fzero); reflexivity.
Defined.

Lemma peaks_non_increasing_witness :
  fle fzero (snr_threshold (pars_narrow 3)) = true
  /\ non_increasing
       (map (fun d => seen (pars_narrow 3) (det_snr d))
          (emitted (fst (ingest_lightcurve (pars_narrow 3) None None
                           lc_three))))
  /\ non_increasing
       (peak_trace (pars_narrow 3) 3 None None
          (scored (pars_narrow 3) None lc_three)).
Proof.
  split; [reflexivity|].
  destruct (peaks_non_increasing (pars_narrow 3) None None lc_three eq_refl)
    as (Hscores & _ & Htrace).
  split; [exact Hscores | exact Htrace].
Defined.

(** The scores of the detections of that run: 9, then 7 twice. *)
Example scores_of_lc_three :
  map (fun d => seen (pars_narrow 3) (det_snr d))
    (emitted (fst (ingest_lightcurve (pars_narrow 3) None None lc_three)))
  = [of_Z 9; of_Z 7; of_Z 7].
Proof. vm_compute. reflexivity. Qed.

(** The maxima of that run: 9, then 7 twice. *)
Example peaks_of_lc_three :
  peak_trace (pars_narrow 3) 3 None None (scored (pars_narrow 3) None lc_three)
  = [of_Z 9; of_Z 7; of_Z 7].
Proof. vm_compute. reflexivity. Qed.

Lemma no_usable_point_no_detection_witness :
  ((exists lc',
      ingest_lightcurve default_pars None None lc_flagged = (Ok [], lc'))
   /\ peak_trace default_pars 1 None None (scored default_pars None lc_flagged)
      = [fzero])
  /\ fst (ingest_lightcurve (pars_signed 1) None None (read_only lc_flagged))
     = Raise ValueError.
Proof.
  split.
  - apply (no_usable_point_no_detection default_pars None None lc_flagged).
    + reflexivity.
    + reflexivity.
    + unfold nrows. simpl. lia.
    + intros i Hi. unfold nrows in Hi. simpl in Hi.
      destruct i as [|[|i]]; [reflexivity | reflexivity | lia].
    + left. reflexivity.
  - rewrite (proj2 (no_usable_point_no_detection (pars_signed 1) None None
                      (read_only lc_flagged) eq_refl eq_refl
                      ltac:(unfold nrows; simpl; lia)
                      ltac:(intros [|[|i]] Hi;
                            [reflexivity | reflexivity
                            | unfold nrows in Hi; simpl in Hi; lia]))
               eq_refl eq_refl ltac:(simpl; lia)).
    reflexivity.
Defined.

(** The claim C8 fails for a threshold below zero: both points of
    [lc_flagged] are flagged, none is usable, and yet the masked maximum
    0 exceeds the threshold -1 and a detection is emitted at index 0.
    It also fails for the lightcurve without rows, on which [np.argmax]
    raises, and with [abs_snr] off on read-only arrays, where the
    masking itself raises. *)
Lemma negative_threshold_detects_masked :
  ((forall i, usable (scored pars_negative None lc_flagged) i = false)
   /\ exists d lc',
        ingest_lightcurve pars_negative None None lc_flagged = (Ok [d], lc')
        /\ time_peak d = of_Z 0)
  /\ ((forall i, usable (scored default_pars None lc_empty) i = false)
      /\ fst (ingest_lightcurve default_pars None None lc_empty)
         = Raise ValueError)
  /\ ((forall i,
         usable (scored (pars_signed 1) None (read_only lc_flagged)) i = false)
      /\ fst (ingest_lightcurve (pars_signed 1) None None
                (read_only lc_flagged))
         = Raise ValueError).
Proof.
  split; [|split]; split.
  - intros i. destruct i as [|[|i]]; reflexivity.
  - eexists _, _. split; [vm_compute; reflexivity | reflexivity].
  - intros i. reflexivity.
  - reflexivity.
  - intros i. destruct i as [|[|i]]; reflexivity.
  - reflexivity.
Qed.

Lemma circular_buffer_keeps_last_witness :
  exists b,
    CircularBufferList.run
      [CircularBufferList.Append 1; CircularBufferList.Append 2;
       CircularBufferList.Append 3; CircularBufferList.Append 4;
       CircularBufferList.Extend [5; 6]]
      (CircularBufferList.init 3%Z) = (Ok tt, b)
    /\ CircularBufferList.items b = [4; 5; 6]
    /\ CircularBufferList.total b = 6.
Proof.
  destruct (circular_buffer_keeps_last 3%Z
    [CircularBufferList.Append 1; CircularBufferList.Append 2;
     CircularBufferList.Append 3; CircularBufferList.Append 4;
     CircularBufferList.Extend [5; 6]])
    as (b & Hrun & Hitems & _ & Htotal & _); [lia|].
  exists b. split; [exact Hrun|]. split; [exact Hitems | exact Htotal].
Defined.

End Witnesses.

(** ** The signed path: [abs_snr] off *)

Section Signed.
Import Float Py Finder.
Context (f : Pars) (source : option Source) (sim : option SimPars).

Lemma where_from_bound (k : nat) (mask : list bool) (n i : nat) :
  Numpy.where_from k mask !! n = Some i -> k <= i < k + length mask.
Proof.
  revert k n. induction mask as [|b mask IH]; intros k n; simpl.
  - discriminate.
  - destruct b.
    + destruct n as [|n]; simpl.
      * intros [= <-]. lia.
      * intros H. apply IH in H. lia.
    + intros H. apply IH in H. lia.
Qed.

Lemma where_from_true (k : nat) (mask : list bool) (j : nat) :
  mask !! j = Some true -> Numpy.where_from k mask <> [].
Proof.
  revert k j. induction mask as [|b mask IH]; intros k j; simpl.
  - discriminate.
  - destruct b; [discriminate|].
    destruct j as [|j]; simpl; [discriminate|]. apply IH.
Qed.

(** [make_detection] when every index it uses is there. *)
Lemma make_detection_run (idx : nat) (lc : Lightcurve) (col : list float)
    (det : list bool) (tp s t0 t1 : float) (i0 i1 : nat) :
  let tidx := map (fun x => flt (event_threshold f) x) col in
  times lc !! idx = Some tp ->
  snr (data lc) = Some col -> col !! idx = Some s ->
  detected (data lc) = Some det ->
  Numpy.where_true tidx !! 0 = Some i0 -> times lc !! i0 = Some t0 ->
  Numpy.where_true tidx !! (length (Numpy.where_true tidx) - 1) = Some i1 ->
  times lc !! i1 = Some t1 ->
  make_detection f idx source sim lc
  = (Ok {| det_source := source; det_raw_data := raw_data lc;
           time_peak := tp; det_snr := s; time_indices := tidx;
           time_start := t0; time_end := t1;
           simulated := bool_decide (sim <> None); sim_pars := sim |},
     set_detected (Some (zip_with orb det tidx)) lc).
Proof.
  intros tidx Htp Hcol Hs Hdet Hi0 Ht0 Hi1 Ht1.
  unfold make_detection, get_event_indices, mark_detected, bind, column,
    get, modify, lift, ret, index, loc.
  rewrite Htp, Hcol, Hs. cbn. rewrite Hcol. cbn. rewrite Hdet. cbn.
  fold tidx. rewrite Hi0, Ht0, Hi1, Ht1. reflexivity.
Qed.

Lemma scored_aligned (lc : Lightcurve) :
  wf_lc lc = true -> aligned (scored f source lc).
Proof.
  intros Hwf.
  destruct (scored_columns f source lc Hwf)
    as (col & det & Hcol & Hdet & Hfg & Hts & Hlc & Hld).
  apply wf_lc_lengths in Hwf as (_ & Hflag & Htimes & _).
  exists col, det. rewrite Hfg, Hts. repeat split; try assumption; lia.
Qed.

(** With signed scores and a window threshold that is not above the
    detection threshold, the window of a detection holds its peak, and
    [make_detection] returns. *)
Lemma signed_peak_in_window (lc lc1 : Lightcurve) (p : nat * float) :
  abs_snr f = false ->
  fle (event_threshold f) (snr_threshold f) = true ->
  aligned lc ->
  select_peak f lc = (Ok p, lc1) ->
  flt (snr_threshold f) (snd p) = true ->
  exists d lc2,
    make_detection f (fst p) source sim lc1 = (Ok d, lc2)
    /\ time_indices d !! fst p = Some true.
Proof.
  intros Habs Hle (col & det & Hcol & Hdet & Hld & Hlf & Hlt) Hp Hmx.
  apply select_peak_Ok in Hp as (_ & Hpeak & -> & _). rewrite Habs.
  pose proof (masked_snr_length f lc col det Hcol Hdet Hlf (eq_sym Hld))
    as Hlen.
  set (w := masked_snr f lc) in *.
  set (tidx := map (fun x => flt (event_threshold f) x) w).
  assert (Hin : tidx !! fst p = Some true).
  { unfold tidx. change (@map float bool) with (@fmap list _ float bool).
    rewrite list_lookup_fmap, Hpeak. simpl. f_equal.
    eapply fle_flt_trans; eassumption. }
  assert (Htimes : forall i, i < length w -> is_Some (times lc !! i)).
  { intros i Hi. apply lookup_lt_is_Some_2. lia. }
  assert (Hlt' : length tidx = length w) by apply length_map.
  destruct (Htimes (fst p)) as [tp Htp];
    [eapply lookup_lt_Some; exact Hpeak|].
  pose proof (where_from_true 0 tidx (fst p) Hin) as Hne.
  fold (Numpy.where_true tidx) in Hne.
  destruct (lookup_lt_is_Some_2 (Numpy.where_true tidx) 0) as [i0 Hi0].
  { destruct (Numpy.where_true tidx); [congruence | simpl; lia]. }
  destruct (lookup_lt_is_Some_2 (Numpy.where_true tidx)
              (length (Numpy.where_true tidx) - 1)) as [i1 Hi1].
  { destruct (Numpy.where_true tidx); [congruence | simpl; lia]. }
  destruct (Htimes i0) as [t0 Ht0].
  { apply where_from_bound in Hi0. lia. }
  destruct (Htimes i1) as [t1 Ht1].
  { apply where_from_bound in Hi1. lia. }
  eexists _, _. split.
  - apply (make_detection_run (fst p) (set_snr w lc) w det tp (snd p) t0 t1
             i0 i1); try assumption; reflexivity.
  - exact Hin.
Qed.

(** One detection on the signed path: the scores are the working array
    from then on, and the window is marked. *)
Lemma signed_step (lc lc1 lc2 : Lightcurve) (p : nat * float)
    (d : Detection) :
  abs_snr f = false -> aligned lc ->
  select_peak f lc = (Ok p, lc1) ->
  make_detection f (fst p) source sim lc1 = (Ok d, lc2) ->
  exists det,
    detected (data lc) = Some det
    /\ time_indices d
       = map (fun x => flt (event_threshold f) x) (masked_snr f lc)
    /\ length (time_indices d) = length det
    /\ snr (data lc2) = Some (masked_snr f lc)
    /\ detected (data lc2) = Some (zip_with orb det (time_indices d))
    /\ aligned lc2.
Proof.
  intros Habs (col & det & Hcol & Hdet & Hld & Hlf & Hlt) Hp Hd.
  apply select_peak_Ok in Hp as (_ & _ & -> & _). rewrite Habs in Hd.
  pose proof (masked_snr_length f lc col det Hcol Hdet Hlf (eq_sym Hld))
    as Hlen.
  apply make_detection_Ok in Hd
    as (col1 & det1 & Hcol1 & Hdet1 & Hti & -> & _).
  simpl in Hcol1, Hdet1. injection Hcol1 as <-.
  rewrite Hdet in Hdet1. injection Hdet1 as <-.
  assert (Hlti : length (time_indices d) = length det)
    by (rewrite Hti, length_map; lia).
  exists det. repeat split; try assumption.
  exists (masked_snr f lc), (zip_with orb det (time_indices d)). simpl.
  repeat split; rewrite ?length_zip_with; lia.
Qed.

(** A window threshold below zero and a detection threshold that is not:
    the first window holds every point above the detection threshold,
    and the next pass stops. *)
Lemma negative_window_stops (k : nat) (lc lc1 lc2 lc' : Lightcurve)
    (p : nat * float) (d : Detection) (dets : list Detection) :
  abs_snr f = false -> fle fzero (snr_threshold f) = true ->
  flt (event_threshold f) fzero = true ->
  aligned lc ->
  select_peak f lc = (Ok p, lc1) ->
  make_detection f (fst p) source sim lc1 = (Ok d, lc2) ->
  extract f k source sim lc2 = (Ok dets, lc') ->
  dets = [].
Proof.
  intros Habs Hthr Hneg Hal Hp Hd Hrun.
  destruct k as [|k]; [injection Hrun as <- _; reflexivity|].
  simpl in Hrun. apply bind_Ok in Hrun as (p' & lc3 & Hp' & Hrun).
  destruct (signed_step _ _ _ _ _ Habs Hal Hp Hd)
    as (det & Hdet & Hti & _ & Hcol2 & Hdet2 & _).
  apply select_peak_Ok in Hp' as (_ & Hpeak' & _).
  apply masked_snr_lookup in Hpeak'
    as (col2 & det2 & x & b & fl & Hcol2' & Hdet2' & Hx & Hb & _ & Hmx).
  rewrite Hcol2 in Hcol2'. injection Hcol2' as <-.
  rewrite Hdet2 in Hdet2'. injection Hdet2' as <-.
  rewrite Habs in Hx.
  apply lookup_zip_with_Some in Hb as (b0 & t & -> & _ & Ht).
  rewrite Hti in Ht.
  change (@map float bool) with (@fmap list _ float bool) in Ht.
  rewrite list_lookup_fmap, Hx in Ht. injection Ht as <-.
  assert (Hstop : flt (snr_threshold f) (snd p') = false).
  { rewrite Hmx.
    destruct (b0 || flt (event_threshold f) x || fl || is_nan x) eqn:Hm.
    - apply fle_not_flt. assumption.
    - apply orb_false_elim in Hm as [Hm _].
      apply orb_false_elim in Hm as [Hm _].
      apply orb_false_elim in Hm as [_ Hm].
      destruct (flt (snr_threshold f) x) eqn:Hgt; [|reflexivity].
      rewrite <- Hm. symmetry.
      eapply flt_trans; [|exact Hgt].
      eapply flt_fle_trans; eassumption. }
  rewrite Hstop in Hrun. injection Hrun as <- _. reflexivity.
Qed.

Lemma where_from_all_false (k : nat) (mask : list bool) :
  (forall x, mask !! x = Some true -> False) -> Numpy.where_from k mask = [].
Proof.
  revert k. induction mask as [|b mask IH]; intros k Hall; [reflexivity|].
  simpl. destruct b.
  - exfalso. apply (Hall 0). reflexivity.
  - apply IH. intros x Hx. apply (Hall (S x)). exact Hx.
Qed.

Lemma where_from_some_true (k : nat) (mask : list bool) :
  Numpy.where_from k mask <> [] -> exists x, mask !! x = Some true.
Proof.
  revert k. induction mask as [|b mask IH]; intros k; simpl; [congruence|].
  destruct b.
  - intros _. exists 0. reflexivity.
  - intros H. destruct (IH _ H) as [x Hx]. exists (S x). exact Hx.
Qed.

(** A window threshold that is not below zero: the first window holds
    every point above it, all of them have the working score 0 from
    then on, and no window can be formed again. *)
Lemma no_second_window (k : nat) (lc lc1 lc2 lc' : Lightcurve)
    (p : nat * float) (d : Detection) (dets : list Detection) :
  abs_snr f = false -> flt (event_threshold f) fzero = false ->
  aligned lc ->
  select_peak f lc = (Ok p, lc1) ->
  make_detection f (fst p) source sim lc1 = (Ok d, lc2) ->
  extract f k source sim lc2 = (Ok dets, lc') ->
  dets = [].
Proof.
  intros Habs Hpos Hal Hp Hd Hrun.
  destruct k as [|k]; [injection Hrun as <- _; reflexivity|].
  simpl in Hrun. apply bind_Ok in Hrun as (p' & lc3 & Hp' & Hrun).
  destruct (flt (snr_threshold f) (snd p'));
    [|injection Hrun as <- _; reflexivity].
  exfalso. apply bind_Ok in Hrun as (d' & lc4 & Hd' & _).
  destruct (signed_step _ _ _ _ _ Habs Hal Hp Hd)
    as (det & Hdet & Hti & _ & Hcol2 & Hdet2 & Hal2).
  destruct (signed_step _ _ _ _ _ Habs Hal2 Hp' Hd')
    as (_ & _ & Hti' & _).
  apply make_detection_Ok in Hd' as (_ & _ & _ & _ & _ & _ & _ & _ & Hne).
  apply Hne. apply where_from_all_false. intros x Hx.
  rewrite Hti' in Hx.
  change (@map float bool) with (@fmap list _ float bool) in Hx.
  rewrite list_lookup_fmap in Hx.
  destruct (masked_snr f lc2 !! x) as [y|] eqn:Hy; [|discriminate].
  simpl in Hx. injection Hx as Hx.
  apply masked_snr_lookup in Hy
    as (col2 & det2 & v & b & fl & Hcol2' & Hdet2' & Hv & Hb & _ & ->).
  rewrite Hcol2 in Hcol2'. injection Hcol2' as <-.
  rewrite Hdet2 in Hdet2'. injection Hdet2' as <-.
  rewrite Habs in Hv.
  apply lookup_zip_with_Some in Hb as (b0 & t & -> & _ & Ht).
  rewrite Hti in Ht.
  change (@map float bool) with (@fmap list _ float bool) in Ht.
  rewrite list_lookup_fmap, Hv in Ht. injection Ht as <-.
  destruct (b0 || flt (event_threshold f) v || fl || is_nan v) eqn:Hm.
  - congruence.
  - apply orb_false_elim in Hm as [Hm _].
    apply orb_false_elim in Hm as [Hm _].
    apply orb_false_elim in Hm as [_ Hm]. congruence.
Qed.

(** On the signed path with [snr_threshold >= 0], a call that returns
    has emitted at most one detection. *)
Lemma signed_at_most_one (lc lc' : Lightcurve) (dets : list Detection) :
  abs_snr f = false -> fle fzero (snr_threshold f) = true ->
  wf_lc lc = true ->
  ingest_lightcurve f source sim lc = (Ok dets, lc') ->
  length dets <= 1.
Proof.
  intros Habs Hthr Hwf Hrun. rewrite ingest_lightcurve_scored in Hrun.
  pose proof (scored_aligned lc Hwf) as Hal.
  destruct (max_det_per_lc f) as [|k];
    [injection Hrun as <- _; simpl; lia|].
  simpl in Hrun. apply bind_Ok in Hrun as (p & lc1 & Hp & Hrun).
  destruct (flt (snr_threshold f) (snd p));
    [|injection Hrun as <- _; simpl; lia].
  apply bind_Ok in Hrun as (d & lc2 & Hd & Hrun).
  apply bind_Ok in Hrun as (dets' & lc3 & Hrest & Hrun).
  injection Hrun as <- _.
  assert (dets' = []) as ->; [|simpl; lia].
  destruct (flt (event_threshold f) fzero) eqn:Hneg.
  - eapply negative_window_stops; eassumption.
  - eapply no_second_window; eassumption.
Qed.

(** With [abs_snr] on, the scores are never written to, and every
    detection of a call gets the same window, which is not empty. *)
Lemma abs_same_window (k : nat) (lc lc' : Lightcurve)
    (dets : list Detection) (col : list float) :
  abs_snr f = true -> snr (data lc) = Some col ->
  extract f k source sim lc = (Ok dets, lc') ->
  forall d, d ∈ dets ->
    time_indices d = map (fun x => flt (event_threshold f) x) col
    /\ exists x, time_indices d !! x = Some true.
Proof.
  intros Habs. revert lc dets.
  induction k as [|k IH]; intros lc dets Hcol Hrun d Hin.
  - injection Hrun as <- _. apply elem_of_nil in Hin. contradiction.
  - simpl in Hrun. apply bind_Ok in Hrun as (p & lc1 & Hp & Hrun).
    destruct (flt (snr_threshold f) (snd p)).
    2:{ injection Hrun as <- _. apply elem_of_nil in Hin. contradiction. }
    apply bind_Ok in Hrun as (d0 & lc2 & Hd0 & Hrun).
    apply bind_Ok in Hrun as (dets' & lc3 & Hrest & Hrun).
    injection Hrun as <- <-.
    apply select_peak_Ok in Hp as (_ & _ & -> & _). rewrite Habs in Hd0.
    apply make_detection_Ok in Hd0
      as (col1 & det1 & Hcol1 & _ & Hti & -> & _ & _ & Hne).
    rewrite Hcol in Hcol1. injection Hcol1 as <-.
    apply elem_of_cons in Hin as [->|Hin].
    + split; [exact Hti|]. eapply where_from_some_true. exact Hne.
    + eapply (IH _ dets'); [|exact Hrest | exact Hin]. exact Hcol.
Qed.

(** What the code does on C1 in general: with [snr_threshold >= 0],
    whenever a call returns two detections of a lightcurve, their
    windows are the same mask, with a True in it. *)
Lemma emitted_windows_coincide (lc lc' : Lightcurve)
    (dets : list Detection) :
  fle fzero (snr_threshold f) = true ->
  wf_lc lc = true ->
  ingest_lightcurve f source sim lc = (Ok dets, lc') ->
  forall i j d1 d2,
    i < j -> dets !! i = Some d1 -> dets !! j = Some d2 ->
    time_indices d1 = time_indices d2
    /\ ~ disjoint_masks (time_indices d1) (time_indices d2).
Proof.
  intros Hthr Hwf Hrun i j d1 d2 Hij H1 H2.
  destruct (abs_snr f) eqn:Habs.
  - rewrite ingest_lightcurve_scored in Hrun.
    destruct (scored_columns f source lc Hwf) as (col & _ & Hcol & _).
    destruct (abs_same_window _ _ _ _ col Habs Hcol Hrun d1) as [E1 [x Hx]];
      [eapply list_elem_of_lookup_2; eassumption|].
    destruct (abs_same_window _ _ _ _ col Habs Hcol Hrun d2) as [E2 _];
      [eapply list_elem_of_lookup_2; eassumption|].
    split; [congruence|].
    intros Hdis. apply (Hdis x); [|rewrite E2, <- E1]; exact Hx.
  - pose proof (signed_at_most_one _ _ _ Habs Hthr Hwf Hrun) as Hlen.
    apply lookup_lt_Some in H2. lia.
Qed.

End Signed.

Section SignedExamples.
Import Float Py Finder Examples.

(** Ten unflagged points, one of them at 8, the threshold 5 and one
    detection at most: the one detection is that of the point at 8. *)
Example single_peak_detected :
  exists d lc',
    ingest_lightcurve default_pars None None lc_ten = (Ok [d], lc')
    /\ times lc_ten !! 4 = Some (time_peak d)
    /\ det_snr d = of_Z 8
    /\ Numpy.where_true (time_indices d) = [4].
Proof.
  eexists _, _. split; [vm_compute; reflexivity|]. repeat split.
Qed.

(** Signed scores and three passes allowed: the window of the first
    detection takes the points at 9, 7 and 6, and the second pass
    stops. *)
Example signed_run :
  exists d lc',
    ingest_lightcurve (pars_signed 3) None None lc_three = (Ok [d], lc')
    /\ time_indices d = [true; false; true; true]
    /\ peak_trace (pars_signed 3) 3 None None
         (scored (pars_signed 3) None lc_three) = [of_Z 9; fzero].
Proof.
  eexists _, _. split; [vm_compute; reflexivity|]. split; reflexivity.
Qed.

End SignedExamples.

(** * Further properties of the finder *)

Section Marks.
Import Float Py Finder.
Context (f : Pars) (source : option Source) (sim : option SimPars).

(** What [select_peak] leaves behind, whether it returns or raises. *)
Lemma select_peak_state (lc : Lightcurve) :
  snd (select_peak f lc) = lc
  \/ (abs_snr f = false
      /\ snd (select_peak f lc) = set_snr (masked_snr f lc) lc).
Proof.
  destruct (snr (data lc)) as [col|] eqn:Hcol.
  - destruct (detected (data lc)) as [det|] eqn:Hdet.
    + destruct (abs_snr f) eqn:Habs.
      * rewrite (select_peak_run f lc col det Hcol Hdet (or_introl Habs)).
        simpl. rewrite Habs. auto.
      * destruct (writeable (data lc)) eqn:Hw.
        -- rewrite (select_peak_run f lc col det Hcol Hdet (or_intror Hw)).
           simpl. rewrite Habs. auto.
        -- rewrite (select_peak_read_only f lc col det Hcol Hdet Habs Hw).
           auto.
    + left. unfold select_peak, bind, column. rewrite Hcol. cbn.
      rewrite Hdet. reflexivity.
  - left. unfold select_peak, bind, column. rewrite Hcol. reflexivity.
Qed.

(** What [make_detection] leaves behind, whether it returns or raises. *)
Lemma make_detection_state (idx : nat) (lc : Lightcurve) :
  snd (make_detection f idx source sim lc) = lc
  \/ exists col det,
       snr (data lc) = Some col /\ detected (data lc) = Some det
       /\ snd (make_detection f idx source sim lc)
          = set_detected
              (Some (zip_with orb det
                       (map (fun x => flt (event_threshold f) x) col))) lc.
Proof.
  unfold make_detection, get_event_indices, mark_detected, bind, column,
    get, modify, lift, ret, index, loc.
  destruct (times lc !! idx) as [tp|]; [|left; reflexivity].
  destruct (snr (data lc)) as [col|] eqn:Hcol; [|left; reflexivity].
  destruct (col !! idx) as [s|]; [|left; reflexivity].
  cbn. rewrite Hcol. cbn.
  destruct (detected (data lc)) as [det|] eqn:Hdet; [|left; reflexivity].
  right. exists col, det. split; [reflexivity|]. split; [reflexivity|].
  cbn.
  destruct (Numpy.where_true _ !! 0) as [i0|]; [|reflexivity].
  destruct (times lc !! i0) as [t0|]; [|reflexivity].
  destruct (Numpy.where_true _ !! _) as [i1|]; [|reflexivity].
  destruct (times lc !! i1) as [t1|]; reflexivity.
Qed.

Lemma grows_refl (lc : Lightcurve) : grows lc lc.
Proof. intros Hal. split; [assumption|]. eauto. Qed.

Lemma grows_trans (lc1 lc2 lc3 : Lightcurve) :
  grows lc1 lc2 -> grows lc2 lc3 -> grows lc1 lc3.
Proof.
  intros H12 H23 Hal. destruct (H12 Hal) as [Hal2 Hm12].
  destruct (H23 Hal2) as [Hal3 Hm23]. split; [assumption|].
  intros det x Hdet Hx. destruct (Hm12 det x Hdet Hx) as (det2 & Hdet2 & Hx2).
  eauto.
Qed.

Lemma select_peak_grows : preserves grows (select_peak f).
Proof.
  intros lc. destruct (select_peak_state lc) as [->|[Habs ->]];
    [apply grows_refl|].
  intros (col & det & Hcol & Hdet & Hld & Hlf & Hlt). split.
  - exists (masked_snr f lc), det. simpl.
    rewrite (masked_snr_length f lc col det) by (assumption || lia).
    auto.
  - intros det' x Hdet' Hx. simpl. eauto.
Qed.

Lemma make_detection_grows (idx : nat) :
  preserves grows (make_detection f idx source sim).
Proof.
  intros lc.
  destruct (make_detection_state idx lc)
    as [->|(col & det & Hcol & Hdet & ->)]; [apply grows_refl|].
  intros (col' & det' & Hcol' & Hdet' & Hld & Hlf & Hlt).
  rewrite Hcol in Hcol'. injection Hcol' as <-.
  rewrite Hdet in Hdet'. injection Hdet' as <-.
  split.
  - exists col, (zip_with orb det
                   (map (fun x => flt (event_threshold f) x) col)).
    simpl. rewrite length_zip_with, length_map.
    repeat split; try assumption; lia.
  - intros det0 x Hdet0 Hx. rewrite Hdet in Hdet0. injection Hdet0 as <-.
    simpl. eexists. split; [reflexivity|].
    destruct (lookup_lt_is_Some_2
                (map (fun x => flt (event_threshold f) x) col) x) as [t Ht].
    { rewrite length_map. apply lookup_lt_Some in Hx. lia. }
    apply lookup_zip_with_Some. exists true, t. auto.
Qed.

Lemma extract_grows (k : nat) : preserves grows (extract f k source sim).
Proof.
  induction k as [|k IH]; simpl.
  - apply (preserves_ret _ grows_refl).
  - apply (preserves_bind _ grows_trans); [apply select_peak_grows|].
    intros p. destruct (flt _ _); [|apply (preserves_ret _ grows_refl)].
    apply (preserves_bind _ grows_trans); [apply make_detection_grows|].
    intros d. apply (preserves_bind _ grows_trans); [apply IH|].
    intros dets. apply (preserves_ret _ grows_refl).
Qed.

(** The window of a detection is marked when [make_detection] returns. *)
Lemma make_detection_marks (idx : nat) (lc lc2 : Lightcurve) (d : Detection) :
  aligned lc ->
  make_detection f idx source sim lc = (Ok d, lc2) ->
  aligned lc2
  /\ length (time_indices d) = length (times lc)
  /\ exists det2,
       detected (data lc2) = Some det2
       /\ forall x, time_indices d !! x = Some true -> det2 !! x = Some true.
Proof.
  intros Hal Hd.
  pose proof (make_detection_grows idx lc Hal) as [Hal2 _].
  rewrite Hd in Hal2. simpl in Hal2.
  destruct Hal as (col & det & Hcol & Hdet & Hld & Hlf & Hlt).
  apply make_detection_Ok in Hd
    as (col1 & det1 & Hcol1 & Hdet1 & Hti & -> & _).
  rewrite Hcol in Hcol1. injection Hcol1 as <-.
  rewrite Hdet in Hdet1. injection Hdet1 as <-.
  split; [assumption|]. split; [rewrite Hti, length_map; lia|].
  simpl. eexists. split; [reflexivity|]. intros x Hx.
  destruct (lookup_lt_is_Some_2 det x) as [b Hb].
  { apply lookup_lt_Some in Hx. rewrite Hti, length_map in Hx. lia. }
  apply lookup_zip_with_Some. exists b, true.
  split; [destruct b; reflexivity | auto].
Qed.

Lemma extract_marks (k : nat) (lc lc' : Lightcurve) (dets : list Detection) :
  aligned lc ->
  extract f k source sim lc = (Ok dets, lc') ->
  forall d, d ∈ dets ->
    length (time_indices d) = length (times lc)
    /\ exists det',
         detected (data lc') = Some det'
         /\ forall x, time_indices d !! x = Some true -> det' !! x = Some true.
Proof.
  revert lc dets. induction k as [|k IH]; intros lc dets Hal Hrun d Hin.
  - injection Hrun as <- _. apply elem_of_nil in Hin. contradiction.
  - simpl in Hrun. apply bind_Ok in Hrun as (p & lc1 & Hp & Hrun).
    destruct (flt (snr_threshold f) (snd p)).
    2:{ injection Hrun as <- _. apply elem_of_nil in Hin. contradiction. }
    apply bind_Ok in Hrun as (d0 & lc2 & Hd0 & Hrun).
    apply bind_Ok in Hrun as (dets' & lc3 & Hrest & Hrun).
    injection Hrun as <- <-.
    pose proof (select_peak_grows lc Hal) as [Hal1 _].
    rewrite Hp in Hal1. simpl in Hal1.
    assert (Ht1 : times lc1 = times lc).
    { pose proof (select_peak_frame f lc) as Hfr. rewrite Hp in Hfr.
      apply Hfr. }
    destruct (make_detection_marks _ _ _ _ Hal1 Hd0)
      as (Hal2 & Hlen & det2 & Hdet2 & Hmark).
    assert (Ht2 : times lc2 = times lc1).
    { pose proof (make_detection_frame f (fst p) source sim lc1) as Hfr.
      rewrite Hd0 in Hfr. apply Hfr. }
    apply elem_of_cons in Hin as [->|Hin].
    + split; [congruence|].
      pose proof (extract_grows k lc2 Hal2) as [Hal3 Hgrow].
      rewrite Hrest in Hal3, Hgrow. simpl in Hal3, Hgrow.
      destruct Hal3 as (col3 & det3 & _ & Hdet3 & _).
      exists det3. split; [assumption|]. intros x Hx.
      destruct (Hgrow det2 x Hdet2 (Hmark x Hx)) as (det' & Hdet' & Hx').
      rewrite Hdet3 in Hdet'. injection Hdet' as <-. exact Hx'.
    + destruct (IH lc2 dets' Hal2 Hrest d Hin) as [Hl Hm].
      split; [congruence | exact Hm].
Qed.

(** X1. On a well-formed lightcurve a call never removes a mark: every
    index marked in [detected] before the call is marked after it,
    whether the call returns or raises, and the column has one entry per
    row. When the call returns, the window of every detection it emits
    has one entry per row and lies inside the marks. *)
Theorem detected_marks_grow (lc : Lightcurve) :
  wf_lc lc = true ->
  let r := ingest_lightcurve f source sim lc in
  exists det',
    detected (data (snd r)) = Some det'
    /\ length det' = nrows lc
    /\ (forall det x,
          detected (data lc) = Some det -> det !! x = Some true ->
          det' !! x = Some true)
    /\ (forall d, d ∈ emitted (fst r) ->
          length (time_indices d) = nrows lc
          /\ forall x, time_indices d !! x = Some true ->
               det' !! x = Some true).
Proof.
  intros Hwf r. subst r. rewrite ingest_lightcurve_scored.
  pose proof (scored_aligned f source lc Hwf) as Hal.
  destruct (scored_columns f source lc Hwf)
    as (col & det0 & _ & Hdet0 & _ & Hts & _ & _).
  pose proof (wf_lc_lengths lc Hwf) as (_ & _ & Htimes & _ & _).
  set (lc0 := scored f source lc) in *.
  set (k := max_det_per_lc f).
  pose proof (extract_grows k lc0 Hal) as [Hal' Hgrow].
  pose proof (extract_frame f k source sim lc0) as Hfr.
  destruct (extract f k source sim lc0) as [res lc'] eqn:Hrun.
  simpl in *.
  destruct Hal' as (col' & det' & _ & Hdet' & Hld' & _ & Hlt').
  assert (Htimes' : times lc' = times lc).
  { destruct Hfr as (_ & _ & _ & _ & -> & _). exact Hts. }
  exists det'. split; [assumption|]. split; [rewrite <- Hld', Hlt'; congruence|].
  split.
  - intros det x Hdet Hx.
    assert (det0 = det) as ->.
    { unfold lc0 in Hdet0. rewrite scored_eq in Hdet0. simpl in Hdet0.
      rewrite Hdet in Hdet0. congruence. }
    destruct (Hgrow det x Hdet0 Hx) as (det'' & Hdet'' & Hx'').
    congruence.
  - intros d Hin. destruct res as [dets|e]; simpl in Hin;
      [|apply elem_of_nil in Hin; contradiction].
    destruct (extract_marks k lc0 lc' dets Hal Hrun d Hin)
      as (Hlen & det'' & Hdet'' & Hm).
    split; [rewrite Hlen, Hts; exact Htimes|].
    rewrite Hdet' in Hdet''. injection Hdet'' as <-. exact Hm.
Qed.

End Marks.

Section Significance.
Import Float Py Finder.
Context (f : Pars) (source : option Source) (sim : option SimPars).

(** A pass that emits: with a threshold that is not negative, the peak
    is at an index that is neither marked nor flagged, and its score
    exceeds the threshold. *)
Lemma pass_significant (lc lc1 lc2 : Lightcurve) (p : nat * float)
    (d : Detection) :
  fle fzero (snr_threshold f) = true ->
  select_peak f lc = (Ok p, lc1) ->
  flt (snr_threshold f) (snd p) = true ->
  make_detection f (fst p) source sim lc1 = (Ok d, lc2) ->
  times lc !! fst p = Some (time_peak d)
  /\ flag (data lc) !! fst p = Some false
  /\ (exists det, detected (data lc) = Some det /\ det !! fst p = Some false)
  /\ is_nan (det_snr d) = false
  /\ flt (snr_threshold f) (seen f (det_snr d)) = true.
Proof.
  intros Hthr Hp Hmx Hd.
  pose proof (select_peak_frame f lc) as Hfr. rewrite Hp in Hfr.
  destruct Hfr as (_ & _ & _ & _ & Hts & _). simpl in Hts.
  apply select_peak_Ok in Hp as (_ & Hpeak & Hlc1 & _).
  apply make_detection_Ok in Hd
    as (col1 & det1 & Hcol1 & _ & _ & _ & Hs & Htp & _).
  apply masked_snr_lookup in Hpeak
    as (col & det & x & b & fl & Hcol & Hdet & Hx & Hb & Hfl & Hval).
  assert (Hm : b || fl || is_nan x = false).
  { destruct (b || fl || is_nan x); [|reflexivity].
    rewrite Hval in Hmx. apply fle_not_flt in Hthr. congruence. }
  rewrite Hm in Hval.
  apply orb_false_elim in Hm as [Hm Hnan].
  apply orb_false_elim in Hm as [-> ->].
  rewrite Hts in Htp. unfold seen.
  split; [assumption|]. split; [assumption|].
  split; [eauto|].
  destruct (abs_snr f) eqn:Habs.
  - subst lc1. rewrite Hcol in Hcol1. injection Hcol1 as <-.
    rewrite Hs in Hx. simpl in Hx. injection Hx as <-.
    rewrite is_nan_fabs in Hnan. split; [assumption | congruence].
  - subst lc1. simpl in Hcol1. injection Hcol1 as <-.
    assert (Hpk : masked_snr f lc !! fst p = Some x).
    { rewrite (masked_snr_lookup_inv f lc col det (fst p) x false false);
        try assumption.
      - simpl. rewrite Hnan. reflexivity.
      - rewrite Habs. assumption. }
    rewrite Hpk in Hs. injection Hs as <-.
    split; [assumption | congruence].
Qed.

Lemma extract_significant (k : nat) (lc lc' : Lightcurve)
    (dets : list Detection) :
  fle fzero (snr_threshold f) = true ->
  extract f k source sim lc = (Ok dets, lc') ->
  forall d, d ∈ dets ->
    exists idx,
      times lc !! idx = Some (time_peak d)
      /\ flag (data lc) !! idx = Some false
      /\ (exists det, detected (data lc) = Some det /\ det !! idx = Some false)
      /\ is_nan (det_snr d) = false
      /\ flt (snr_threshold f) (seen f (det_snr d)) = true.
Proof.
  intros Hthr. revert lc dets.
  induction k as [|k IH]; intros lc dets Hrun d Hin.
  - injection Hrun as <- _. apply elem_of_nil in Hin. contradiction.
  - simpl in Hrun. apply bind_Ok in Hrun as (p & lc1 & Hp & Hrun).
    destruct (flt (snr_threshold f) (snd p)) eqn:Hmx.
    2:{ injection Hrun as <- _. apply elem_of_nil in Hin. contradiction. }
    apply bind_Ok in Hrun as (d0 & lc2 & Hd0 & Hrun).
    apply bind_Ok in Hrun as (dets' & lc3 & Hrest & Hrun).
    injection Hrun as <- <-.
    apply elem_of_cons in Hin as [->|Hin].
    + exists (fst p). eapply pass_significant; eassumption.
    + destruct (IH lc2 dets' Hrest d Hin)
        as (idx & Ht & Hf & (det2 & Hdet2 & Hidx) & Hnan & Hsig).
      pose proof (select_peak_frame f lc) as Hfr1. rewrite Hp in Hfr1.
      pose proof (make_detection_frame f (fst p) source sim lc1) as Hfr2.
      rewrite Hd0 in Hfr2.
      destruct Hfr1 as (_ & _ & _ & Hf1 & Ht1 & _).
      destruct Hfr2 as (_ & _ & _ & Hf2 & Ht2 & _). simpl in *.
      exists idx. rewrite <- Ht1, <- Ht2, <- Hf1, <- Hf2.
      split; [assumption|]. split; [assumption|].
      split; [|split; assumption].
      apply select_peak_Ok in Hp as (_ & _ & Hlc1 & col & det & _ & Hdet).
      apply make_detection_Ok in Hd0
        as (col1 & det1 & _ & Hdet1 & _ & -> & _).
      simpl in Hdet2. injection Hdet2 as <-.
      apply lookup_zip_with_Some in Hidx as (b & t & Hbt & Hb & _).
      exists det. split; [assumption|].
      assert (det1 = det) as ->.
      { destruct (abs_snr f); subst lc1; simpl in Hdet1; congruence. }
      destruct b; [discriminate | assumption].
Qed.

(** X2. With [snr_threshold >= 0], every detection that a call emits is
    significant and sits on a usable point: its peak time is the time of
    an index that is not flagged and was not marked detected when the
    call started, its score is a number, and that score (its absolute
    value when [abs_snr] is on) exceeds [snr_threshold]. *)
Theorem detections_significant (lc lc' : Lightcurve)
    (dets : list Detection) :
  fle fzero (snr_threshold f) = true ->
  ingest_lightcurve f source sim lc = (Ok dets, lc') ->
  forall d, d ∈ dets ->
    exists idx,
      times lc !! idx = Some (time_peak d)
      /\ flag (data lc) !! idx = Some false
      /\ (forall det, detected (data lc) = Some det -> det !! idx = Some false)
      /\ is_nan (det_snr d) = false
      /\ flt (snr_threshold f) (seen f (det_snr d)) = true.
Proof.
  intros Hthr Hrun d Hin. rewrite ingest_lightcurve_scored in Hrun.
  destruct (extract_significant _ _ _ _ Hthr Hrun d Hin)
    as (idx & Ht & Hf & (det0 & Hdet0 & Hidx) & Hnan & Hsig).
  rewrite scored_eq in Ht, Hf, Hdet0. simpl in Ht, Hf, Hdet0.
  exists idx. repeat split; try assumption.
  intros det Hdet. rewrite Hdet in Hdet0. congruence.
Qed.

End Significance.

Section Exhaustion.
Import Float Py Finder.
Context (f : Pars) (source : option Source) (sim : option SimPars).

Lemma usable_true (lc : Lightcurve) (i : nat) :
  usable lc i = true ->
  exists col det c,
    snr (data lc) = Some col /\ detected (data lc) = Some det
    /\ col !! i = Some c /\ det !! i = Some false
    /\ flag (data lc) !! i = Some false /\ is_nan c = false.
Proof.
  unfold usable.
  destruct (snr (data lc)) as [col|]; [|discriminate].
  destruct (detected (data lc)) as [det|]; [|discriminate].
  destruct (det !! i) as [[|]|] eqn:Hd; simpl; try discriminate.
  destruct (flag (data lc) !! i) as [[|]|] eqn:Hf; simpl; try discriminate.
  destruct (col !! i) as [c|] eqn:Hc; simpl; [|discriminate].
  destruct (is_nan c) eqn:Hn; simpl; [discriminate|]. intros _.
  exists col, det, c. auto 10.
Qed.

(** A pass that stops: no usable point of the lightcurve it leaves has a
    score above the threshold. *)
Lemma pass_stops_empty (lc lc1 : Lightcurve) (p : nat * float) (i : nat)
    (col1 : list float) (x : float) :
  select_peak f lc = (Ok p, lc1) ->
  flt (snr_threshold f) (snd p) = false ->
  usable lc1 i = true ->
  snr (data lc1) = Some col1 -> col1 !! i = Some x ->
  flt (snr_threshold f) (seen f x) = false.
Proof.
  intros Hp Hmx Hu Hcol1 Hx.
  pose proof (select_peak_max f _ _ _ Hp) as Hmax.
  apply select_peak_Ok in Hp as (_ & _ & Hlc1 & _).
  apply usable_true in Hu
    as (col1' & det & c & Hcol1' & Hdet & Hc & Hd & Hfl & Hnan).
  rewrite Hcol1 in Hcol1'. injection Hcol1' as <-.
  rewrite Hx in Hc. injection Hc as <-.
  assert (Hw : masked_snr f lc !! i = Some (seen f x)).
  { unfold seen. destruct (abs_snr f) eqn:Habs; subst lc1.
    - rewrite (masked_snr_lookup_inv f lc col1 det i (fabs x) false false);
        try assumption.
      + simpl. rewrite is_nan_fabs, Hnan. reflexivity.
      + rewrite Habs, Hx. reflexivity.
    - simpl in Hcol1. injection Hcol1 as <-. assumption. }
  destruct (flt (snr_threshold f) (seen f x)) eqn:Hgt; [|reflexivity].
  rewrite <- Hmx. symmetry. eapply flt_fle_trans; [exact Hgt|].
  eapply Hmax. exact Hw.
Qed.

Lemma extract_exhausts (k : nat) (lc lc' : Lightcurve)
    (dets : list Detection) :
  extract f k source sim lc = (Ok dets, lc') ->
  length dets < k ->
  forall i col' x,
    usable lc' i = true ->
    snr (data lc') = Some col' -> col' !! i = Some x ->
    flt (snr_threshold f) (seen f x) = false.
Proof.
  revert lc dets. induction k as [|k IH]; intros lc dets Hrun Hlen; [lia|].
  simpl in Hrun. apply bind_Ok in Hrun as (p & lc1 & Hp & Hrun).
  destruct (flt (snr_threshold f) (snd p)) eqn:Hmx.
  - apply bind_Ok in Hrun as (d0 & lc2 & Hd0 & Hrun).
    apply bind_Ok in Hrun as (dets' & lc3 & Hrest & Hrun).
    injection Hrun as <- <-. simpl in Hlen.
    apply (IH lc2 dets' Hrest). lia.
  - injection Hrun as _ <-. intros i col' x.
    eapply pass_stops_empty; eassumption.
Qed.

(** X3. A call stops short only when nothing is left: when it returns
    fewer than [max_det_per_lc] detections, no usable point of the
    lightcurve it leaves (not marked, not flagged, score a number) has a
    score above [snr_threshold]. *)
Theorem stops_only_when_exhausted (lc lc' : Lightcurve)
    (dets : list Detection) :
  ingest_lightcurve f source sim lc = (Ok dets, lc') ->
  length dets < max_det_per_lc f ->
  forall i col' x,
    usable lc' i = true ->
    snr (data lc') = Some col' -> col' !! i = Some x ->
    flt (snr_threshold f) (seen f x) = false.
Proof.
  intros Hrun. rewrite ingest_lightcurve_scored in Hrun.
  eapply extract_exhausts. exact Hrun.
Qed.

End Exhaustion.

Section Window.
Import Float Py Finder.
Context (f : Pars) (source : option Source) (sim : option SimPars).

Lemma where_from_lookup (k : nat) (mask : list bool) (n i : nat) :
  Numpy.where_from k mask !! n = Some i ->
  exists j, i = k + j /\ mask !! j = Some true.
Proof.
  revert k n. induction mask as [|b mask IH]; intros k n; simpl.
  - discriminate.
  - destruct b.
    + destruct n as [|n]; simpl.
      * intros [= <-]. exists 0. split; [lia | reflexivity].
      * intros H. apply IH in H as (j & -> & Hj). exists (S j).
        split; [lia | exact Hj].
    + intros H. apply IH in H as (j & -> & Hj). exists (S j).
      split; [lia | exact Hj].
Qed.

Lemma where_from_complete (k : nat) (mask : list bool) (j : nat) :
  mask !! j = Some true ->
  exists n, Numpy.where_from k mask !! n = Some (k + j).
Proof.
  revert k j. induction mask as [|b mask IH]; intros k j; simpl.
  - discriminate.
  - destruct j as [|j]; simpl.
    + intros [= ->]. exists 0. simpl. f_equal. lia.
    + intros Hj. destruct (IH (S k) j Hj) as [n Hn].
      replace (k + S j) with (S k + j) by lia.
      destruct b; [exists (S n) | exists n]; exact Hn.
Qed.

Lemma where_from_increasing (k : nat) (mask : list bool) (n1 n2 i1 i2 : nat) :
  n1 < n2 ->
  Numpy.where_from k mask !! n1 = Some i1 ->
  Numpy.where_from k mask !! n2 = Some i2 ->
  i1 < i2.
Proof.
  revert k n1 n2. induction mask as [|b mask IH]; intros k n1 n2 Hlt; simpl.
  - discriminate.
  - destruct b; [|apply IH; assumption].
    destruct n2 as [|n2]; [lia|]. destruct n1 as [|n1]; simpl.
    + intros [= <-] H2. apply where_from_bound in H2. lia.
    + apply IH. lia.
Qed.

(** The first and the last entry of [np.where(mask)[0]] are the first
    and the last True of the mask. *)
Lemma where_true_ends (mask : list bool) (i0 i1 : nat) :
  Numpy.where_true mask !! 0 = Some i0 ->
  Numpy.where_true mask !! (length (Numpy.where_true mask) - 1) = Some i1 ->
  mask !! i0 = Some true /\ mask !! i1 = Some true
  /\ forall x, mask !! x = Some true -> i0 <= x <= i1.
Proof.
  unfold Numpy.where_true. intros H0 H1.
  destruct (where_from_lookup _ _ _ _ H0) as (j0 & -> & Hj0).
  destruct (where_from_lookup _ _ _ _ H1) as (j1 & -> & Hj1).
  simpl. split; [assumption|]. split; [assumption|].
  intros x Hx. destruct (where_from_complete 0 mask x Hx) as [n Hn].
  simpl in Hn. split.
  - destruct n as [|n].
    + rewrite H0 in Hn. injection Hn as Hn. lia.
    + assert (Hlt : 0 < S n) by lia.
      pose proof (where_from_increasing 0 mask _ _ _ _ Hlt H0 Hn). lia.
  - pose proof (lookup_lt_Some _ _ _ Hn) as Hlen.
    destruct (decide (n = length (Numpy.where_from 0 mask) - 1)) as [->|Hne].
    + rewrite H1 in Hn. injection Hn as Hn. lia.
    + assert (Hlt : n < length (Numpy.where_from 0 mask) - 1) by lia.
      pose proof (where_from_increasing 0 mask _ _ _ _ Hlt Hn H1). lia.
Qed.

(** The fields of the detection that [make_detection] returns. *)
Lemma make_detection_fields (idx : nat) (lc lc2 : Lightcurve)
    (d : Detection) :
  make_detection f idx source sim lc = (Ok d, lc2) ->
  exists i0 i1,
    Numpy.where_true (time_indices d) !! 0 = Some i0
    /\ Numpy.where_true (time_indices d)
       !! (length (Numpy.where_true (time_indices d)) - 1) = Some i1
    /\ times lc !! i0 = Some (time_start d)
    /\ times lc !! i1 = Some (time_end d)
    /\ simulated d = bool_decide (sim <> None)
    /\ sim_pars d = sim
    /\ det_source d = source
    /\ det_raw_data d = raw_data lc.
Proof.
  unfold make_detection, get_event_indices, mark_detected. intros H.
  returns_steps. subst.
  repeat match goal with
  | H : column _ _ = (Ok _, _) |- _ => apply column_Ok in H as [H ?]
  end. subst.
  repeat match goal with
  | H : bind _ _ _ = (Ok _, _) |- _ => simpl in H
  end.
  returns_steps. subst. simpl. eexists _, _. repeat split; eassumption.
Qed.

Lemma extract_windows (k : nat) (lc lc' : Lightcurve)
    (dets : list Detection) :
  extract f k source sim lc = (Ok dets, lc') ->
  forall d, d ∈ dets ->
    exists i0 i1,
      time_indices d !! i0 = Some true /\ time_indices d !! i1 = Some true
      /\ (forall x, time_indices d !! x = Some true -> i0 <= x <= i1)
      /\ times lc !! i0 = Some (time_start d)
      /\ times lc !! i1 = Some (time_end d)
      /\ simulated d = bool_decide (sim <> None)
      /\ sim_pars d = sim
      /\ det_source d = source
      /\ det_raw_data d = raw_data lc.
Proof.
  revert lc dets. induction k as [|k IH]; intros lc dets Hrun d Hin.
  - injection Hrun as <- _. apply elem_of_nil in Hin. contradiction.
  - simpl in Hrun. apply bind_Ok in Hrun as (p & lc1 & Hp & Hrun).
    destruct (flt (snr_threshold f) (snd p)).
    2:{ injection Hrun as <- _. apply elem_of_nil in Hin. contradiction. }
    apply bind_Ok in Hrun as (d0 & lc2 & Hd0 & Hrun).
    apply bind_Ok in Hrun as (dets' & lc3 & Hrest & Hrun).
    injection Hrun as <- <-.
    pose proof (select_peak_frame f lc) as Hfr1. rewrite Hp in Hfr1.
    pose proof (make_detection_frame f (fst p) source sim lc1) as Hfr2.
    rewrite Hd0 in Hfr2.
    destruct Hfr1 as (_ & _ & _ & _ & Ht1 & _ & _ & Hr1 & _).
    destruct Hfr2 as (_ & _ & _ & _ & Ht2 & _ & _ & Hr2 & _). simpl in *.
    apply elem_of_cons in Hin as [->|Hin].
    + destruct (make_detection_fields _ _ _ _ Hd0)
        as (i0 & i1 & H0 & H1 & Hs & He & Hsim & Hpars & Hsrc & Hraw).
      destruct (where_true_ends _ _ _ H0 H1) as (Hm0 & Hm1 & Hbetween).
      exists i0, i1. rewrite <- Ht1, <- Hr1. auto 10.
    + destruct (IH lc2 dets' Hrest d Hin)
        as (i0 & i1 & Hm0 & Hm1 & Hb & Hs & He & Hrestf).
      exists i0, i1. rewrite <- Ht1, <- Ht2, <- Hr1, <- Hr2. auto 10.
Qed.

(** X4. Every detection that a call emits has a window with a first and
    a last True index; [time_start] and [time_end] are the times of
    these two indices, whatever lies between them; and the detection
    carries the source, the raw data of the lightcurve and the
    simulation parameters it was given, with [simulated] set exactly
    when parameters were given, even empty ones. *)
Theorem detection_window_ends (lc lc' : Lightcurve) (dets : list Detection) :
  ingest_lightcurve f source sim lc = (Ok dets, lc') ->
  forall d, d ∈ dets ->
    exists i0 i1,
      time_indices d !! i0 = Some true /\ time_indices d !! i1 = Some true
      /\ (forall x, time_indices d !! x = Some true -> i0 <= x <= i1)
      /\ times lc !! i0 = Some (time_start d)
      /\ times lc !! i1 = Some (time_end d)
      /\ simulated d = bool_decide (sim <> None)
      /\ sim_pars d = sim
      /\ det_source d = source
      /\ det_raw_data d = raw_data lc.
Proof.
  intros Hrun d Hin. rewrite ingest_lightcurve_scored in Hrun.
  destruct (extract_windows _ _ _ _ Hrun d Hin)
    as (i0 & i1 & Hm0 & Hm1 & Hb & Hs & He & Hsim & Hpars & Hsrc & Hraw).
  rewrite scored_eq in Hs, He, Hraw. simpl in Hs, He, Hraw.
  exists i0, i1. auto 10.
Qed.

End Window.

Section FloatStrict.
Import Float.

Lemma fle_false_flt (x y : float) :
  is_nan x = false -> is_nan y = false -> fle x y = false -> flt y x = true.
Proof.
  intros Hx Hy H. unfold flt, fle, SFltb, SFleb, SFcompare, is_nan in *.
  destruct x as [[]|[]| |[] m1 e1], y as [[]|[]| |[] m2 e2];
    simpl in *; try discriminate; try reflexivity;
    destruct (Z.compare_spec e1 e2); simpl in *;
    try discriminate; try reflexivity;
    change (Pos.compare_cont Eq m1 m2) with (Pos.compare m1 m2) in *;
    change (Pos.compare_cont Eq m2 m1) with (Pos.compare m2 m1) in *;
    destruct (Pos.compare_spec m1 m2); simpl in *;
    try discriminate; try reflexivity;
    destruct (Z.compare_spec e2 e1); simpl in *;
    try discriminate; try reflexivity; try lia;
    destruct (Pos.compare_spec m2 m1); simpl in *;
    try discriminate; try reflexivity; lia.
Qed.

End FloatStrict.

Section Earliest.
Import Float Py Finder.
Context (f : Pars).

Lemma argmax_from_first (pre l : list float) (mp : float) (best : nat) :
  (pre ++ l) !! best = Some mp ->
  best < length pre ->
  is_nan mp = false ->
  (forall j x, j < best -> pre !! j = Some x -> flt x mp = true) ->
  (forall j x, pre !! j = Some x -> fle x mp = true) ->
  (forall j x, l !! j = Some x -> is_nan x = false) ->
  exists m,
    (pre ++ l) !! Numpy.argmax_from mp best (length pre) l = Some m
    /\ forall j x,
         j < Numpy.argmax_from mp best (length pre) l ->
         (pre ++ l) !! j = Some x -> flt x m = true.
Proof.
  revert pre mp best.
  induction l as [|y l IH]; intros pre mp best Hb Hlt Hmp Hfirst Hpre Hl.
  - simpl. exists mp. split; [assumption|].
    intros j x Hj. rewrite app_nil_r. apply Hfirst. assumption.
  - simpl. rewrite Hmp.
    assert (Hy : is_nan y = false) by (apply (Hl 0); reflexivity).
    assert (Hl' : forall j x, l !! j = Some x -> is_nan x = false).
    { intros j x Hj. apply (Hl (S j)). exact Hj. }
    assert (Hlen : length (pre ++ [y]) = S (length pre)).
    { rewrite length_app. simpl. lia. }
    replace (pre ++ y :: l) with ((pre ++ [y]) ++ l) in *
      by (rewrite <- app_assoc; reflexivity).
    destruct (fle y mp) eqn:Hle.
    + rewrite <- Hlen. apply IH; try assumption; [lia| |].
      * intros j x Hj Hx. rewrite lookup_app_l in Hx by lia.
        eapply Hfirst; eassumption.
      * intros j x Hj. apply lookup_app_Some in Hj as [Hj|[_ Hj]].
        -- eapply Hpre; eassumption.
        -- destruct (j - length pre) as [|n]; simpl in Hj; [|discriminate].
           injection Hj as <-. assumption.
    + assert (Hgt : flt mp y = true) by (apply fle_false_flt; assumption).
      rewrite <- Hlen. apply IH; try assumption; [| lia | |].
      * rewrite lookup_app_l by (rewrite Hlen; lia).
        rewrite lookup_app_r by lia. rewrite Nat.sub_diag. reflexivity.
      * intros j x Hj Hx. rewrite lookup_app_l in Hx by lia.
        eapply fle_flt_trans; [eapply Hpre; eassumption | exact Hgt].
      * intros j x Hj. apply lookup_app_Some in Hj as [Hj|[_ Hj]].
        -- apply flt_fle. eapply fle_flt_trans; [|exact Hgt].
           eapply Hpre; eassumption.
        -- destruct (j - length pre) as [|n]; simpl in Hj; [|discriminate].
           injection Hj as <-. apply fle_refl. assumption.
Qed.

Lemma argmax_first (l : list float) (idx : nat) :
  (forall j x, l !! j = Some x -> is_nan x = false) ->
  Numpy.argmax l = Ok idx ->
  exists m,
    l !! idx = Some m
    /\ forall j x, j < idx -> l !! j = Some x -> flt x m = true.
Proof.
  destruct l as [|y l]; [discriminate|]. intros Hl [= <-].
  assert (Hy : is_nan y = false) by (apply (Hl 0); reflexivity).
  apply (argmax_from_first [y] l y 0); try assumption; try reflexivity.
  - simpl. lia.
  - intros j x Hj. lia.
  - intros j x Hj. destruct j; simpl in Hj; [|discriminate].
    injection Hj as <-. apply fle_refl. assumption.
  - intros j x Hj. apply (Hl (S j)). exact Hj.
Qed.

(** X5. The peak that a pass selects is the earliest index of the
    largest masked score: no entry of the working array exceeds it, and
    every entry before it is strictly smaller. *)
Theorem peak_is_earliest_maximum (lc lc1 : Lightcurve) (p : nat * float) :
  select_peak f lc = (Ok p, lc1) ->
  masked_snr f lc !! fst p = Some (snd p)
  /\ (forall j x, masked_snr f lc !! j = Some x -> fle x (snd p) = true)
  /\ (forall j x,
        j < fst p -> masked_snr f lc !! j = Some x -> flt x (snd p) = true).
Proof.
  intros Hp. pose proof (select_peak_max f _ _ _ Hp) as Hmax.
  apply select_peak_Ok in Hp as (Harg & Hpeak & _).
  split; [assumption|]. split; [assumption|].
  destruct (argmax_first _ _ (masked_snr_no_nan f lc) Harg) as (m & Hm & Hlt).
  rewrite Hpeak in Hm. injection Hm as <-. exact Hlt.
Qed.

End Earliest.

Section Errors.
Import Float Py Finder.
Context (f : Pars) (source : option Source) (sim : option SimPars).

(** [select_peak] raises a ValueError only: that of [np.argmax] on the
    lightcurve without rows, or that of the assignment to a read-only
    array when [abs_snr] is off. *)
Lemma select_peak_raises (lc lc1 : Lightcurve) (e : exn) :
  aligned lc ->
  select_peak f lc = (Raise e, lc1) ->
  e = ValueError
  /\ (length (times lc) = 0
      \/ (abs_snr f = false /\ writeable (data lc) = false)).
Proof.
  intros (col & det & Hcol & Hdet & Hld & Hlf & Hlt) Hp.
  pose proof (masked_snr_length f lc col det Hcol Hdet Hlf (eq_sym Hld))
    as Hlen.
  destruct (abs_snr f) eqn:Habs; [|destruct (writeable (data lc)) eqn:Hw].
  3:{ rewrite (select_peak_read_only f lc col det Hcol Hdet Habs Hw) in Hp.
      injection Hp as <- _. auto. }
  all: rewrite (select_peak_run f lc col det Hcol Hdet) in Hp by auto;
    destruct (Numpy.argmax (masked_snr f lc)) as [idx|e'] eqn:Harg;
    [ destruct (argmax_spec _ _ (masked_snr_no_nan f lc) Harg)
        as (m & Hm & _);
      unfold index in Hp; rewrite Hm in Hp; discriminate
    | destruct (masked_snr f lc) eqn:Hm; [|discriminate];
      simpl in Harg, Hlen; injection Harg as <-; injection Hp as <- _;
      split; [reflexivity | left; lia] ].
Qed.

(** With the columns in place and the peak inside them, the only error
    of [make_detection] is an IndexError. *)
Lemma make_detection_raises (idx : nat) (lc lc2 : Lightcurve)
    (col : list float) (det : list bool) (s : float) (e : exn) :
  snr (data lc) = Some col -> detected (data lc) = Some det ->
  col !! idx = Some s ->
  make_detection f idx source sim lc = (Raise e, lc2) ->
  e = IndexError.
Proof.
  intros Hcol Hdet Hs.
  unfold make_detection, get_event_indices, mark_detected, bind, column,
    get, modify, lift, ret, index, loc.
  destruct (times lc !! idx) as [tp|]; [|intros [= <- _]; reflexivity].
  rewrite Hcol, Hs. cbn. rewrite Hcol. cbn. rewrite Hdet. cbn.
  destruct (Numpy.where_true _ !! 0) as [i0|];
    [|intros [= <- _]; reflexivity].
  destruct (times lc !! i0) as [t0|]; [|intros [= <- _]; reflexivity].
  destruct (Numpy.where_true _ !! _) as [i1|];
    [|intros [= <- _]; reflexivity].
  destruct (times lc !! i1) as [t1|]; [discriminate|].
  intros [= <- _]. reflexivity.
Qed.

Lemma extract_raises (k : nat) (lc lc' : Lightcurve) (e : exn) :
  aligned lc -> 0 < length (times lc) ->
  abs_snr f = true \/ writeable (data lc) = true ->
  extract f k source sim lc = (Raise e, lc') ->
  e = IndexError.
Proof.
  revert lc. induction k as [|k IH]; intros lc Hal Hrows Hw Hrun.
  - discriminate.
  - simpl in Hrun. unfold bind in Hrun.
    destruct (select_peak f lc) as [[p|e1] lc1] eqn:Hp.
    2:{ apply (select_peak_raises _ _ _ Hal) in Hp as [_ [Hp|[Hp1 Hp2]]];
          [lia|]. destruct Hw; congruence. }
    pose proof (select_peak_grows f lc Hal) as [Hal1 _].
    pose proof (select_peak_frame f lc) as Hfr1.
    rewrite Hp in Hal1, Hfr1. simpl in Hal1, Hfr1.
    destruct (flt (snr_threshold f) (snd p)); [|discriminate].
    destruct (make_detection f (fst p) source sim lc1) as [[d|e2] lc2] eqn:Hd.
    + pose proof (make_detection_grows f source sim (fst p) lc1 Hal1)
        as [Hal2 _].
      pose proof (make_detection_frame f (fst p) source sim lc1) as Hfr2.
      rewrite Hd in Hal2, Hfr2. simpl in Hal2, Hfr2.
      destruct (extract f k source sim lc2) as [[dets|e3] lc3] eqn:Hrest;
        [discriminate|].
      injection Hrun as <- <-.
      destruct Hfr2 as (_ & _ & _ & _ & Ht2 & _ & _ & _ & Hw2).
      destruct Hfr1 as (_ & _ & _ & _ & Ht1 & _ & _ & _ & Hw1).
      eapply (IH lc2); [assumption | | | exact Hrest].
      * rewrite Ht2, Ht1. assumption.
      * rewrite Hw2, Hw1. assumption.
    + injection Hrun as <- _.
      destruct Hal1 as (col1 & det1 & Hcol1 & Hdet1 & _).
      apply select_peak_Ok in Hp as (_ & Hpeak & Hlc1 & _).
      assert (Hs : exists s, col1 !! fst p = Some s).
      { destruct (abs_snr f) eqn:Habs; subst lc1.
        - apply masked_snr_lookup in Hpeak
            as (col & _ & x & _ & _ & Hcol & _ & Hx & _).
          rewrite Habs in Hx. rewrite Hcol in Hcol1. injection Hcol1 as <-.
          destruct (col !! fst p) as [c|]; [eauto | discriminate].
        - simpl in Hcol1. injection Hcol1 as <-. eauto. }
      destruct Hs as [s Hs].
      eapply make_detection_raises; eassumption.
Qed.

(** X6. The errors of a call on a well-formed lightcurve. Without rows
    and with at least one pass allowed it raises a ValueError. With
    rows, and [abs_snr] on or arrays that can be written to, the only
    error it can raise is an IndexError, never a KeyError or a
    ValueError. With [abs_snr] off and read-only arrays, every call
    with at least one pass allowed raises the ValueError of the
    assignment [snr[mask] = 0]. *)
Theorem ingest_errors (lc : Lightcurve) :
  wf_lc lc = true ->
  (nrows lc = 0 -> 0 < max_det_per_lc f ->
   fst (ingest_lightcurve f source sim lc) = Raise ValueError)
  /\ (0 < nrows lc ->
      abs_snr f = true \/ writeable (data lc) = true ->
      forall e, fst (ingest_lightcurve f source sim lc) = Raise e ->
                e = IndexError)
  /\ (abs_snr f = false -> writeable (data lc) = false ->
      0 < max_det_per_lc f ->
      fst (ingest_lightcurve f source sim lc) = Raise ValueError).
Proof.
  intros Hwf. rewrite ingest_lightcurve_scored.
  pose proof (scored_aligned f source lc Hwf) as Hal.
  destruct (scored_columns f source lc Hwf)
    as (col & det & Hcol & Hdet & Hfg & Hts & Hlc & Hld).
  pose proof (wf_lc_lengths lc Hwf) as (_ & Hflag & Htimes & _ & _).
  pose proof (scored_writeable f source lc) as Hsw.
  assert (Hread : abs_snr f = false -> writeable (data lc) = false ->
                  0 < max_det_per_lc f ->
                  fst (extract f (max_det_per_lc f) source sim
                         (scored f source lc)) = Raise ValueError).
  { intros Habs Hw Hk. rewrite <- Hsw in Hw.
    destruct (max_det_per_lc f) as [|k]; [lia|]. simpl. unfold bind.
    rewrite (select_peak_read_only f _ col det Hcol Hdet Habs Hw).
    reflexivity. }
  split; [|split].
  - intros Hrows Hk.
    destruct (abs_snr f) eqn:Habs;
      [|destruct (writeable (data lc)) eqn:Hw; [|auto]].
    all: destruct (max_det_per_lc f) as [|k]; [lia|];
      simpl; unfold bind;
      rewrite (select_peak_run f _ col det Hcol Hdet)
        by (rewrite Hsw; auto);
      assert (Hm : masked_snr f (scored f source lc) = [])
        by (apply nil_length_inv;
            rewrite (masked_snr_length f _ col det Hcol Hdet);
            rewrite ?Hfg; lia);
      rewrite Hm; reflexivity.
  - intros Hrows Hw e He. rewrite <- Hsw in Hw.
    destruct (extract f (max_det_per_lc f) source sim (scored f source lc))
      as [res lc'] eqn:Hrun.
    simpl in He. subst res.
    eapply extract_raises; [exact Hal | | exact Hw | exact Hrun].
    rewrite Hts, Htimes. assumption.
  - exact Hread.
Qed.

End Errors.

Section Scores.
Import Float Py Finder.
Context (f : Pars) (source : option Source) (sim : option SimPars).

Lemma keeps_scores_refl (lc : Lightcurve) : keeps_scores f lc lc.
Proof. split; auto. Qed.

Lemma keeps_scores_trans (lc1 lc2 lc3 : Lightcurve) :
  keeps_scores f lc1 lc2 -> keeps_scores f lc2 lc3 -> keeps_scores f lc1 lc3.
Proof.
  intros [H1 H1'] [H2 H2']. split; [congruence|].
  intros Habs. rewrite H2', H1' by assumption. reflexivity.
Qed.

Lemma extract_keeps_scores (k : nat) :
  preserves (keeps_scores f) (extract f k source sim).
Proof.
  induction k as [|k IH]; simpl.
  - apply (preserves_ret _ keeps_scores_refl).
  - apply (preserves_bind _ keeps_scores_trans).
    { intros lc. destruct (select_peak_state f lc) as [->|[Habs ->]];
        [apply keeps_scores_refl|].
      split; [reflexivity | congruence]. }
    intros p.
    destruct (flt _ _); [|apply (preserves_ret _ keeps_scores_refl)].
    apply (preserves_bind _ keeps_scores_trans).
    { intros lc.
      destruct (make_detection_state f source sim (fst p) lc)
        as [->|(col & det & _ & _ & ->)];
        [apply keeps_scores_refl | split; reflexivity]. }
    intros d. apply (preserves_bind _ keeps_scores_trans); [apply IH|].
    intros dets. apply (preserves_ret _ keeps_scores_refl).
Qed.

(** X7. Whatever the score columns held before, and whether the call
    returns or raises, it leaves [dmag = mag - median(mag)]; with
    [abs_snr] on it leaves [snr = (flux - flux_mean_robust) / noise].
    So a second call on the lightcurve leaves the same two columns as
    the first. *)
Theorem scores_recomputed (lc : Lightcurve) :
  let lc1 := snd (ingest_lightcurve f source sim lc) in
  let lc2 := snd (ingest_lightcurve f source sim lc1) in
  dmag (data lc1)
  = Some (map (fun m => fsub m (Numpy.median (mag (data lc))))
              (mag (data lc)))
  /\ dmag (data lc2) = dmag (data lc1)
  /\ (abs_snr f = true ->
      snr (data lc1)
      = Some (zip_with fdiv
                (map (fun x => fsub x (flux_mean_robust lc)) (flux (data lc)))
                (map (fun e => Numpy.maximum e (flux_rms_robust lc))
                     (fluxerr (data lc))))
      /\ snr (data lc2) = snr (data lc1)).
Proof.
  intros lc1 lc2.
  assert (Hone : forall lc0,
    keeps_scores f (scored f source lc0)
                 (snd (ingest_lightcurve f source sim lc0))).
  { intros lc0. rewrite ingest_lightcurve_scored. apply extract_keeps_scores. }
  pose proof (ingest_lightcurve_frame f source sim lc) as Hraw.
  fold lc1 in Hraw.
  destruct Hraw as (Hfl & Hfe & Hmg & _ & _ & Hmean & Hrms & _).
  destruct (Hone lc) as [Hd1 Hs1]. destruct (Hone lc1) as [Hd2 Hs2].
  fold lc1 in Hd1, Hs1. fold lc2 in Hd2, Hs2.
  rewrite scored_eq in Hd1, Hs1, Hd2, Hs2. simpl in Hd1, Hs1, Hd2, Hs2.
  rewrite Hfl, Hfe, Hmg, Hmean, Hrms in *.
  split; [assumption|]. split; [congruence|].
  intros Habs. split; [auto|]. rewrite Hs2, Hs1 by assumption. reflexivity.
Qed.

End Scores.

(** * NamedList *)

Section Named.
Import Py NamedList.
Implicit Types (nl : t) (o : obj) (s : string).

(** The name a string key is compared as. *)
Local Abbreviation target nl s :=
  (UniqueList.normal_case (ignorecase nl) (UniqueList.VStr s)) (only parsing).

Lemma convert_name_str nl s :
  convert_name nl (UniqueList.VStr s) = Ok (target nl s).
Proof. unfold convert_name. simpl. destruct (ignorecase nl); reflexivity. Qed.

Lemma getattr_lookup (o : UniqueList.obj) (att : string)
    (v : UniqueList.value) :
  o !! att = Some v -> UniqueList.getattr o att = Ok v.
Proof. unfold UniqueList.getattr. intros ->. reflexivity. Qed.

Lemma traverse_names nl (l : list obj) :
  Forall (fun o => exists s, o !! "name"%string = Some (UniqueList.VStr s)) l ->
  exists ns,
    traverse (fun item =>
                result_bind (UniqueList.getattr item "name")
                            (convert_name nl)) l = Ok ns
    /\ Some <$> ns = converted nl <$> l.
Proof.
  induction 1 as [|o l [s Hs] _ (ns & Hns & Hconv)].
  - exists []. split; reflexivity.
  - exists (target nl s :: ns). cbn [traverse].
    rewrite (getattr_lookup o _ _ Hs). cbn [result_bind].
    rewrite convert_name_str, Hns.
    split; [reflexivity|].
    rewrite !fmap_cons, Hconv. unfold converted at 2. rewrite Hs. reflexivity.
Qed.

Lemma names_converted nl :
  named nl -> exists ns, names nl = Ok ns /\ Some <$> ns = converted nl <$> items nl.
Proof. apply traverse_names. Qed.

Lemma list_index_Ok (x : value) (l : list value) (n : nat) :
  list_index x l = Ok n <->
  l !! n = Some x /\ forall j, j < n -> l !! j <> Some x.
Proof.
  revert n. induction l as [|y l IH]; intros n; simpl.
  - split; [discriminate | intros [H _]; discriminate].
  - case_bool_decide as Hy.
    + subst y. split.
      * intros [= <-]. split; [reflexivity | intros j Hj; lia].
      * intros [Hn Hfirst]. destruct n as [|n]; [reflexivity|].
        exfalso. apply (Hfirst 0); [lia | reflexivity].
    + split.
      * destruct (list_index x l) as [m|e]; [|discriminate].
        intros [= <-]. destruct (proj1 (IH m) eq_refl) as [Hm Hfirst].
        split; [exact Hm|].
        intros [|j] Hj; simpl; [congruence|]. apply Hfirst. lia.
      * intros [Hn Hfirst]. destruct n as [|n]; simpl in Hn; [congruence|].
        rewrite (proj2 (IH n)); [reflexivity|].
        split; [exact Hn|]. intros j Hj. apply (Hfirst (S j)). lia.
Qed.

Lemma list_index_Raise (x : value) (l : list value) (e : exn) :
  list_index x l = Raise e <-> e = ValueError /\ x ∉ l.
Proof.
  induction l as [|y l IH]; simpl.
  - split; [intros [= <-]; split; [reflexivity | apply not_elem_of_nil]|].
    intros [-> _]. reflexivity.
  - case_bool_decide as Hy.
    + subst y. split; [discriminate|]. intros [_ Hx]. exfalso. apply Hx.
      apply elem_of_cons. auto.
    + split.
      * destruct (list_index x l) as [m|e']; [discriminate|].
        intros [= <-]. destruct (proj1 IH eq_refl) as [-> Hx].
        split; [reflexivity|]. intros Hin.
        apply elem_of_cons in Hin as [?|?]; [congruence | auto].
      * intros [He Hx]. rewrite (proj2 IH); [reflexivity|].
        split; [exact He|]. intros Hin. apply Hx. apply elem_of_cons. auto.
Qed.

(** The lookup by name on a list whose elements have string names. *)
Lemma getitem_names nl s (ns : list value) :
  names nl = Ok ns -> Some <$> ns = converted nl <$> items nl ->
  __getitem__ nl (KStr s)
  = match list_index (target nl s) ns with
    | Ok n => index (items nl) n
    | Raise e => Raise e
    end.
Proof.
  intros Hns _. unfold __getitem__, result_bind.
  rewrite convert_name_str, Hns. reflexivity.
Qed.

Lemma converted_lookup nl (ns : list value) (n : nat) (x : value) :
  Some <$> ns = converted nl <$> items nl ->
  ns !! n = Some x <->
  exists o, items nl !! n = Some o /\ converted nl o = Some x.
Proof.
  intros Hconv.
  assert (H : (Some <$> ns) !! n = (converted nl <$> items nl) !! n)
    by (rewrite Hconv; reflexivity).
  rewrite !list_lookup_fmap in H. split.
  - intros Hn. rewrite Hn in H. simpl in H.
    destruct (items nl !! n) as [o|]; [|discriminate].
    simpl in H. exists o. split; congruence.
  - intros (o & Ho & Hc). rewrite Ho in H. simpl in H.
    destruct (ns !! n) as [y|]; [|discriminate]. simpl in H. congruence.
Qed.

(** The lookup by name returns the first element of that name, and
    raises ValueError when there is none. *)
Lemma getitem_first nl s :
  named nl ->
  (forall o, __getitem__ nl (KStr s) = Ok o ->
     exists i,
       items nl !! i = Some o /\ converted nl o = Some (target nl s)
       /\ forall j o', j < i -> items nl !! j = Some o' ->
                       converted nl o' <> Some (target nl s))
  /\ (forall e, __getitem__ nl (KStr s) = Raise e ->
        e = ValueError
        /\ forall o, o ∈ items nl -> converted nl o <> Some (target nl s))
  /\ (forall o, o ∈ items nl -> converted nl o = Some (target nl s) ->
        exists o', __getitem__ nl (KStr s) = Ok o').
Proof.
  intros Hnamed. destruct (names_converted nl Hnamed) as (ns & Hns & Hconv).
  rewrite (getitem_names nl s ns Hns Hconv).
  split; [|split].
  - intros o Hget.
    destruct (list_index (target nl s) ns) as [n|e] eqn:Hidx; [|discriminate].
    apply index_Ok in Hget. apply list_index_Ok in Hidx as [Hn Hfirst].
    apply (converted_lookup nl ns n _ Hconv) in Hn as (o1 & Ho1 & Hc1).
    rewrite Hget in Ho1. injection Ho1 as <-.
    exists n. split; [assumption|]. split; [assumption|].
    intros j o' Hj Ho' Hc'. apply (Hfirst j Hj).
    apply (converted_lookup nl ns j _ Hconv). eauto.
  - intros e Hget.
    destruct (list_index (target nl s) ns) as [n|e'] eqn:Hidx.
    + apply list_index_Ok in Hidx as [Hn _].
      apply (converted_lookup nl ns n _ Hconv) in Hn as (o1 & Ho1 & _).
      unfold index in Hget. rewrite Ho1 in Hget. discriminate.
    + injection Hget as <-. apply list_index_Raise in Hidx as [-> Hnot].
      split; [reflexivity|]. intros o Hin Hc. apply Hnot.
      apply list_elem_of_lookup in Hin as [n Hn].
      apply list_elem_of_lookup. exists n.
      apply (converted_lookup nl ns n _ Hconv). eauto.
  - intros o Hin Hc.
    destruct (list_index (target nl s) ns) as [n|e] eqn:Hidx.
    + apply list_index_Ok in Hidx as [Hn _].
      apply (converted_lookup nl ns n _ Hconv) in Hn as (o1 & Ho1 & _).
      exists o1. unfold index. rewrite Ho1. reflexivity.
    + exfalso. apply list_index_Raise in Hidx as [_ Hnot]. apply Hnot.
      apply list_elem_of_lookup in Hin as [n Hn].
      apply list_elem_of_lookup. exists n.
      apply (converted_lookup nl ns n _ Hconv). eauto.
Qed.

(** X8. Lookup by name on a NamedList whose elements have string names:
    [nl[name]] returns the first element whose name equals the key (in
    lower case on both sides when the list ignores case); when no
    element has the name it raises ValueError, and nothing else. *)
Theorem named_list_first_match nl s :
  named nl ->
  (forall o, __getitem__ nl (KStr s) = Ok o ->
     exists i,
       items nl !! i = Some o /\ converted nl o = Some (target nl s)
       /\ forall j o', j < i -> items nl !! j = Some o' ->
                       converted nl o' <> Some (target nl s))
  /\ (forall e, __getitem__ nl (KStr s) = Raise e ->
        e = ValueError
        /\ forall o, o ∈ items nl -> converted nl o <> Some (target nl s))
  /\ (forall o, o ∈ items nl -> converted nl o = Some (target nl s) ->
        exists o', __getitem__ nl (KStr s) = Ok o').
Proof. apply getitem_first. Qed.

(** X9. [name in nl] and [nl[name]] agree on a NamedList whose elements
    have string names: the membership test is True exactly when the
    lookup returns an element, and False exactly when the lookup raises
    ValueError. *)
Theorem named_list_contains_agrees nl s :
  named nl ->
  (__contains__ nl (UniqueList.VStr s) = Ok true
   <-> exists o, __getitem__ nl (KStr s) = Ok o)
  /\ (__contains__ nl (UniqueList.VStr s) = Ok false
      <-> __getitem__ nl (KStr s) = Raise ValueError).
Proof.
  intros Hnamed. destruct (names_converted nl Hnamed) as (ns & Hns & Hconv).
  rewrite (getitem_names nl s ns Hns Hconv).
  unfold __contains__, result_bind. rewrite convert_name_str, Hns.
  destruct (list_index (target nl s) ns) as [n|e] eqn:Hidx.
  - pose proof Hidx as Hidx'. apply list_index_Ok in Hidx' as [Hn _].
    assert (Hin : target nl s ∈ ns) by (eapply list_elem_of_lookup_2; eauto).
    apply (converted_lookup nl ns n _ Hconv) in Hn as (o1 & Ho1 & _).
    unfold index. rewrite Ho1, (bool_decide_eq_true_2 _ Hin).
    split; split; eauto; discriminate.
  - apply list_index_Raise in Hidx as [-> Hnot].
    rewrite (bool_decide_eq_false_2 _ Hnot).
    split; split; try discriminate; try reflexivity.
    intros [o Ho]. discriminate.
Qed.

Lemma keys_names nl :
  named nl ->
  exists ks, keys nl = Ok ks
             /\ Some <$> ks = (fun o : obj => o !! "name"%string) <$> items nl.
Proof.
  unfold keys, named.
  induction 1 as [|o l [s Hs] _ (ks & Hks & Hraw)].
  - exists []. split; reflexivity.
  - exists (UniqueList.VStr s :: ks). cbn [traverse].
    rewrite (getattr_lookup o _ _ Hs), Hks. split; [reflexivity|].
    rewrite !fmap_cons, Hraw. f_equal. symmetry. exact Hs.
Qed.

(** X10. With pairwise different names (after the case conversion),
    every element is found under its own name: [nl[item.name]] is
    [item], and [keys()] lists the names in the order of the list. *)
Theorem named_list_round_trip nl (i : nat) o s :
  named nl ->
  NoDup (converted nl <$> items nl) ->
  items nl !! i = Some o ->
  o !! "name"%string = Some (UniqueList.VStr s) ->
  __getitem__ nl (KStr s) = Ok o
  /\ exists ks, keys nl = Ok ks /\ ks !! i = Some (UniqueList.VStr s)
                /\ length ks = length (items nl).
Proof.
  intros Hnamed Hnodup Hi Hs. split.
  - destruct (getitem_first nl s Hnamed) as (Hfirst & _ & Hex).
    assert (Hc : converted nl o = Some (target nl s)).
    { unfold converted. rewrite Hs. reflexivity. }
    destruct (Hex o) as [o' Ho']; [eapply list_elem_of_lookup_2; eauto | exact Hc|].
    destruct (Hfirst o' Ho') as (j & Hj & Hcj & _).
    rewrite Ho'. f_equal.
    assert (j = i).
    { eapply NoDup_lookup; [exact Hnodup | |];
        rewrite list_lookup_fmap; [rewrite Hj | rewrite Hi]; simpl;
        [rewrite Hcj | rewrite Hc]; reflexivity. }
    subst j. congruence.
  - destruct (keys_names nl Hnamed) as (ks & Hks & Hraw).
    exists ks. split; [exact Hks|].
    assert (Hlen : length ks = length (items nl)).
    { rewrite <- (length_fmap Some ks), Hraw. apply length_fmap. }
    split; [|exact Hlen].
    assert (H : (Some <$> ks) !! i = Some (Some (UniqueList.VStr s))).
    { rewrite Hraw, list_lookup_fmap, Hi. simpl. f_equal. exact Hs. }
    rewrite list_lookup_fmap in H. destruct (ks !! i); simpl in H; congruence.
Qed.

End Named.

(** * UniqueList: assignment and lookup *)

Section Assign.
Import Py UniqueList.
Implicit Types (ul : t) (value o : obj) (k : Z).

Lemma same_key_key ul (a b : obj) :
  complete ul a -> complete ul b ->
  same_key ul a b <-> key ul a = key ul b.
Proof.
  intros Ha Hb. unfold same_key. rewrite (_check_key ul a b Ha Hb). split.
  - intros [= H]. apply bool_decide_eq_true_1 in H. exact H.
  - intros H. rewrite (bool_decide_eq_true_2 _ H). reflexivity.
Qed.

Lemma check_others_Ok ul k value (i : nat) (rest : list obj) :
  complete ul value -> Forall (complete ul) rest ->
  (forall j o, rest !! j = Some o -> Z.of_nat (i + j) <> k ->
               ~ same_key ul value o) ->
  check_others ul k value i rest = Ok tt.
Proof.
  intros Hv Hall. revert i.
  induction Hall as [|other rest Ho _ IH]; intros i Hnone; simpl.
  - reflexivity.
  - assert (Hrest : check_others ul k value (S i) rest = Ok tt).
    { apply IH. intros j o Hj Hk. apply (Hnone (S j) o Hj).
      replace (i + S j) with (S i + j) by lia. exact Hk. }
    case_bool_decide as Hi; [exact Hrest|].
    rewrite (_check_key ul value other Hv Ho).
    rewrite bool_decide_eq_false_2; [exact Hrest|].
    intros Hk. apply (Hnone 0 other eq_refl).
    + rewrite Nat.add_0_r. exact Hi.
    + apply same_key_key; assumption.
Qed.

Lemma check_others_Raise ul k value (i : nat) (rest : list obj)
    (j : nat) o :
  complete ul value -> Forall (complete ul) rest ->
  rest !! j = Some o -> Z.of_nat (i + j) <> k -> same_key ul value o ->
  check_others ul k value i rest = Raise ValueError.
Proof.
  intros Hv Hall. revert i j.
  induction Hall as [|other rest Ho _ IH]; intros i j Hj Hk Hsame; simpl.
  - discriminate.
  - destruct j as [|j]; simpl in Hj.
    + injection Hj as ->. rewrite Nat.add_0_r in Hk.
      rewrite (bool_decide_eq_false_2 _ Hk). rewrite Hsame. reflexivity.
    + assert (Hrest : check_others ul k value (S i) rest = Raise ValueError).
      { apply (IH (S i) j Hj); [|exact Hsame].
        replace (S i + j) with (i + S j) by lia. exact Hk. }
      case_bool_decide; [exact Hrest|].
      rewrite (_check_key ul value other Hv Ho).
      destruct (bool_decide _); [reflexivity | exact Hrest].
Qed.

Lemma setitem_run ul k value (l : list obj) :
  check_others ul k value 0 (items ul) = Ok tt ->
  setitem (items ul) k value = Ok l ->
  __setitem__ k value ul = (Ok tt, set_items l ul).
Proof.
  intros Hcheck Hset. unfold __setitem__, bind, get, lift, modify.
  simpl. rewrite Hcheck. simpl. rewrite Hset. reflexivity.
Qed.

Lemma setitem_raise ul k value (e : exn) :
  check_others ul k value 0 (items ul) = Raise e ->
  __setitem__ k value ul = (Raise e, ul).
Proof.
  intros Hcheck. unfold __setitem__, bind, get, lift. simpl.
  rewrite Hcheck. reflexivity.
Qed.

Lemma insert_unique ul (n : nat) value :
  Forall (complete ul) (items ul) -> complete ul value -> unique ul ->
  (forall j o, items ul !! j = Some o -> j <> n -> ~ same_key ul value o) ->
  unique (set_items (<[n := value]> (items ul)) ul).
Proof.
  intros Hall Hv Hu Hnone i j a b Hi Hj Hsame. simpl in Hi, Hj.
  pose proof (Forall_insert _ _ n value Hall Hv) as Hall'.
  assert (Ha : complete ul a) by (eapply Forall_lookup_1; eauto).
  assert (Hb : complete ul b) by (eapply Forall_lookup_1; eauto).
  assert (Hkey : key ul a = key ul b).
  { apply (same_key_key (set_items (<[n := value]> (items ul)) ul) a b Ha Hb).
    exact Hsame. }
  apply list_lookup_insert_Some in Hi as [(<- & <- & Hlen)|[Hni Hi]];
    apply list_lookup_insert_Some in Hj as [(<- & <- & Hlen')|[Hnj Hj]].
  - reflexivity.
  - exfalso. apply (Hnone j b Hj); [congruence|].
    apply same_key_key; assumption.
  - exfalso. apply (Hnone i a Hi); [congruence|].
    apply same_key_key; [assumption..|]. symmetry. exact Hkey.
  - apply (Hu i j a b Hi Hj). apply same_key_key; assumption.
Qed.

(** X11. Assignment [ul[k] = value] with an index [0 <= k < len(ul)]
    on a list whose elements, like the value, have all the comparison
    attributes: when no element at another index has the key of the
    value, the element at [k] is replaced and a duplicate-free list
    stays duplicate-free; when one has, ValueError is raised and the
    list is left as it was. *)
Theorem setitem_keeps_unique ul k value :
  Forall (complete ul) (items ul) -> complete ul value ->
  (0 <= k < Z.of_nat (length (items ul)))%Z ->
  ((forall j o, items ul !! j = Some o -> Z.of_nat j <> k ->
                ~ same_key ul value o) ->
   __setitem__ k value ul
   = (Ok tt, set_items (<[Z.to_nat k := value]> (items ul)) ul)
   /\ (unique ul ->
       unique (set_items (<[Z.to_nat k := value]> (items ul)) ul)))
  /\ (forall j o, items ul !! j = Some o -> Z.of_nat j <> k ->
                  same_key ul value o ->
      __setitem__ k value ul = (Raise ValueError, ul)).
Proof.
  intros Hall Hv Hk. split.
  - intros Hnone. split.
    + apply setitem_run.
      * apply check_others_Ok; assumption.
      * unfold setitem, position.
        destruct (Z.leb_spec 0 k); [|lia].
        destruct (Z.ltb_spec k (Z.of_nat (length (items ul)))); [|lia].
        reflexivity.
    + intros Hu. apply insert_unique; try assumption.
      intros j o Hj Hne. apply (Hnone j o Hj). lia.
  - intros j o Hj Hne Hsame. apply setitem_raise.
    apply (check_others_Raise ul k value 0 (items ul) j o); assumption.
Qed.

(** X12. An element can be replaced by a value of the same key through
    its index counted from the front, but not through the same index
    counted from the end: with a negative [k] the check [i != k] never
    skips the element that is assigned to, so [ul[k] = value] raises
    ValueError where [ul[len(ul) + k] = value] replaces the element. *)
Theorem setitem_negative_index ul k value o :
  Forall (complete ul) (items ul) -> complete ul value -> unique ul ->
  (- Z.of_nat (length (items ul)) <= k < 0)%Z ->
  items ul !! Z.to_nat (Z.of_nat (length (items ul)) + k) = Some o ->
  same_key ul value o ->
  __setitem__ k value ul = (Raise ValueError, ul)
  /\ __setitem__ (Z.of_nat (length (items ul)) + k) value ul
     = (Ok tt,
        set_items (<[Z.to_nat (Z.of_nat (length (items ul)) + k) := value]>
                     (items ul)) ul).
Proof.
  intros Hall Hv Hu Hk Ho Hsame.
  set (n := Z.to_nat (Z.of_nat (length (items ul)) + k)) in *.
  assert (Hn : Z.of_nat n = (Z.of_nat (length (items ul)) + k)%Z)
    by (unfold n; lia).
  assert (Hco : complete ul o) by (eapply Forall_lookup_1; eauto).
  split.
  - apply setitem_raise.
    apply (check_others_Raise ul k value 0 (items ul) n o);
      try assumption. lia.
  - rewrite <- Hn. replace n with (Z.to_nat (Z.of_nat n)) at 2 by lia.
    apply setitem_run.
    + apply check_others_Ok; try assumption.
      intros j o' Hj Hne Hsame'. simpl in Hne.
      assert (Hco' : complete ul o') by (eapply Forall_lookup_1; eauto).
      assert (j = n); [|lia].
      apply (Hu j n o' o Hj Ho).
      apply same_key_key; try assumption.
      transitivity (key ul value).
      * symmetry. apply same_key_key; assumption.
      * apply same_key_key; assumption.
    + unfold setitem, position.
      destruct (Z.leb_spec 0 (Z.of_nat n)); [|lia].
      destruct (Z.ltb_spec (Z.of_nat n) (Z.of_nat (length (items ul))));
        [|lia].
      reflexivity.
Qed.

End Assign.

Section Lookup.
Import Py UniqueList.
Implicit Types (ul : t) (value o : obj) (ks : list UniqueList.value)
  (atts : list string).

Lemma key_matches_one ul (k : UniqueList.value) (att : string) o :
  key_matches ul [k] [att] o
  = match o !! att with Some v => _compare ul k v | None => false end.
Proof.
  unfold key_matches. cbn [zip_with forallb fst snd]. apply andb_true_r.
Qed.

Lemma key_matches_cons ul (k : UniqueList.value) ks (att : string) atts o :
  key_matches ul (k :: ks) (att :: atts) o
  = key_matches ul [k] [att] o && key_matches ul ks atts o.
Proof.
  rewrite key_matches_one. unfold key_matches.
  cbn [zip_with forallb fst snd]. reflexivity.
Qed.

Lemma matching_filter ul (k : UniqueList.value) (att : string)
    (l : list obj) :
  Forall (fun o => is_Some (o !! att)) l ->
  matching ul k att l
  = Ok (filter (fun o => key_matches ul [k] [att] o = true) l).
Proof.
  unfold matching.
  induction 1 as [|o l [v Hv] _ IH]; [reflexivity|].
  cbn [select]. unfold getattr at 1. rewrite Hv, IH.
  rewrite filter_cons, key_matches_one, Hv.
  destruct (_compare ul k v); destruct (decide _); congruence.
Qed.

Lemma filter_matches ul (k : UniqueList.value) ks (att : string) atts
    (l : list obj) :
  filter (fun o => key_matches ul ks atts o = true)
         (filter (fun o => key_matches ul [k] [att] o = true) l)
  = filter (fun o => key_matches ul (k :: ks) (att :: atts) o = true) l.
Proof.
  induction l as [|o l IH]; [reflexivity|].
  destruct (key_matches ul [k] [att] o) eqn:H1.
  - rewrite (filter_cons_True (fun o => key_matches ul [k] [att] o = true))
      by exact H1.
    destruct (key_matches ul ks atts o) eqn:H2.
    + rewrite !filter_cons_True; [f_equal; exact IH | | exact H2].
      rewrite key_matches_cons, H1, H2. reflexivity.
    + rewrite !filter_cons_False; [exact IH | | congruence].
      rewrite key_matches_cons, H1, H2. discriminate.
  - rewrite (filter_cons_False (fun o => key_matches ul [k] [att] o = true))
      by congruence.
    rewrite filter_cons_False; [exact IH|].
    rewrite key_matches_cons, H1. discriminate.
Qed.

(** The loop of the sequence branch as a filter, with the index that
    the loop variable ends at. *)
Lemma narrow_filter ul (i last : nat) atts ks (shortlist : list obj) :
  Forall (fun o => Forall (fun att => is_Some (o !! att)) atts) shortlist ->
  narrow ul i last atts ks shortlist
  = Ok (match atts with
        | [] => last
        | _ :: _ => i + Nat.min (length (drop i ks)) (length atts - 1)
        end,
        filter (fun o => key_matches ul (drop i ks) atts o = true) shortlist).
Proof.
  revert i last shortlist.
  induction atts as [|att atts IH]; intros i last shortlist Hall;
    cbn [narrow].
  - f_equal. f_equal. unfold key_matches. rewrite zip_with_nil_r.
    symmetry. induction shortlist as [|o l IHl]; [reflexivity|].
    rewrite filter_cons_True by reflexivity. f_equal. apply IHl.
    apply Forall_inv_tail in Hall. exact Hall.
  - destruct (ks !! i) as [k|] eqn:Hk.
    + rewrite matching_filter.
      2:{ eapply Forall_impl; [exact Hall|]. intros o Ho.
          apply Forall_inv in Ho. exact Ho. }
      rewrite IH.
      2:{ apply Forall_forall. intros o Ho.
          apply list_elem_of_filter in Ho as [_ Ho].
          rewrite Forall_forall in Hall. specialize (Hall o Ho).
          apply Forall_inv_tail in Hall. exact Hall. }
      rewrite (drop_S _ _ _ Hk), filter_matches. f_equal. f_equal.
      cbn [length]. destruct atts as [|att' atts]; simpl; lia.
    + apply lookup_ge_None in Hk. rewrite (drop_ge _ _ Hk).
      f_equal. f_equal; [simpl; lia|].
      unfold key_matches. simpl.
      symmetry. clear Hall. induction shortlist as [|o l IHl]; [reflexivity|].
      rewrite filter_cons_True by reflexivity. f_equal. exact IHl.
Qed.

Lemma extend_fresh (attributes : list string) (ic : bool) (l : list obj) :
  extend l (init attributes ic) = (Ok tt, set_items l (init attributes ic)).
Proof.
  unfold extend, bind.
  assert (H : remove_each l (init attributes ic) = (Ok tt, init attributes ic)).
  { induction l as [|v l IH]; [reflexivity|].
    cbn [remove_each]. unfold bind. cbn. exact IH. }
  rewrite H. reflexivity.
Qed.

Lemma narrowed_fresh atts (l : list obj) :
  atts <> [] ->
  narrowed atts l
  = Ok (Narrowed {| items := l; comparison_attributes := atts;
                    ignorecase := false |}).
Proof.
  intros Hne. unfold narrowed. rewrite extend_fresh.
  unfold set_items, init. simpl.
  destruct atts; [contradiction | reflexivity].
Qed.

Lemma complete_all ul :
  Forall (complete ul) (items ul) ->
  Forall (fun o => Forall (fun att => is_Some (o !! att))
                          (comparison_attributes ul)) (items ul).
Proof. intros H. exact H. Qed.

(** The sequence branch of [__getitem__] on complete elements. *)
Lemma getitem_seq ul ks :
  Forall (complete ul) (items ul) -> comparison_attributes ul <> [] ->
  let atts := comparison_attributes ul in
  let shortlist :=
    filter (fun o => key_matches ul ks atts o = true) (items ul) in
  __getitem__ ul (KSeq ks)
  = if bool_decide (length ks = length atts)
    then match shortlist with
         | [] => Raise IndexError
         | o :: _ => Ok (Item o)
         end
    else Ok (Narrowed
               {| items := shortlist;
                  comparison_attributes :=
                    drop (Nat.min (length ks) (length atts - 1)) atts;
                  ignorecase := false |}).
Proof.
  intros Hall Hne atts shortlist. unfold __getitem__. fold atts.
  rewrite (narrow_filter ul 0 0 atts ks (items ul) (complete_all ul Hall)).
  rewrite drop_0. fold shortlist.
  destruct atts as [|att atts'] eqn:Hatts; [contradiction|].
  rewrite <- Hatts. rewrite Nat.add_0_l.
  assert (Hlen : 0 < length atts) by (rewrite Hatts; simpl; lia).
  case_bool_decide as Hi; case_bool_decide as Hl; try lia.
  - destruct shortlist; reflexivity.
  - apply narrowed_fresh. intros Hd.
    apply (f_equal length) in Hd. rewrite length_drop in Hd. simpl in Hd. lia.
Qed.

(** X13. On a list whose elements all have the comparison attributes,
    lookup with a key that gives a value for every comparison
    attribute: [ul[key]] returns the first element that compares equal
    to the key on all of them, and raises IndexError when there is
    none. *)
Theorem getitem_full_key ul ks :
  Forall (complete ul) (items ul) -> comparison_attributes ul <> [] ->
  length ks = length (comparison_attributes ul) ->
  __getitem__ ul (KSeq ks)
  = match filter (fun o => key_matches ul ks (comparison_attributes ul) o
                           = true) (items ul) with
    | [] => Raise IndexError
    | o :: _ => Ok (Item o)
    end.
Proof.
  intros Hall Hne Hlen. rewrite (getitem_seq ul ks Hall Hne).
  rewrite (bool_decide_eq_true_2 _ Hlen). reflexivity.
Qed.

(** X14. On a list whose elements all have the comparison attributes,
    lookup with a key of another length than the list of comparison
    attributes never raises: it returns a new list over the
    attributes that the key does not cover (the last one when the key
    is too long), holding in their order the elements that compare
    equal to the key on the attributes it covers. The new list does
    not ignore case, whatever the list it comes from does. *)
Theorem getitem_partial_key ul ks :
  Forall (complete ul) (items ul) -> comparison_attributes ul <> [] ->
  length ks <> length (comparison_attributes ul) ->
  __getitem__ ul (KSeq ks)
  = Ok (Narrowed
          {| items :=
               filter (fun o => key_matches ul ks (comparison_attributes ul) o
                                = true) (items ul);
             comparison_attributes :=
               drop (Nat.min (length ks)
                             (length (comparison_attributes ul) - 1))
                    (comparison_attributes ul);
             ignorecase := false |}).
Proof.
  intros Hall Hne Hlen. rewrite (getitem_seq ul ks Hall Hne).
  rewrite (bool_decide_eq_false_2 _ Hlen). reflexivity.
Qed.

Lemma key_matches_own ul ks atts o :
  Some <$> ks = (fun att => o !! att) <$> atts ->
  key_matches ul ks atts o = true.
Proof.
  revert atts. induction ks as [|k ks IH]; intros [|att atts] Hown;
    try reflexivity; try discriminate.
  rewrite !fmap_cons in Hown. injection Hown as Hk Hown.
  rewrite key_matches_cons, key_matches_one, <- Hk, (IH atts Hown).
  rewrite _compare_normal, bool_decide_eq_true_2; reflexivity.
Qed.

(** Whether an element matches a key depends on its composite key
    only. *)
Lemma key_matches_normal ul ks atts o o' :
  map (fun att => normal ul <$> o !! att) atts
  = map (fun att => normal ul <$> o' !! att) atts ->
  key_matches ul ks atts o = key_matches ul ks atts o'.
Proof.
  revert ks. induction atts as [|att atts IH]; intros ks Hkey.
  - unfold key_matches. rewrite !zip_with_nil_r. reflexivity.
  - destruct ks as [|k ks]; [reflexivity|].
    simpl in Hkey. injection Hkey as Hatt Hkey.
    rewrite (key_matches_cons ul k ks att atts o),
      (key_matches_cons ul k ks att atts o'), !key_matches_one, (IH ks Hkey).
    f_equal.
    destruct (o !! att) as [v|], (o' !! att) as [v'|];
      simpl in Hatt; try discriminate; [|reflexivity].
    rewrite !_compare_normal. injection Hatt as ->. reflexivity.
Qed.

(** Two elements that match a full key have the same composite key. *)
Lemma key_matches_same ul ks atts o o' :
  length ks = length atts ->
  Forall (fun att => is_Some (o !! att)) atts ->
  Forall (fun att => is_Some (o' !! att)) atts ->
  key_matches ul ks atts o = true -> key_matches ul ks atts o' = true ->
  map (fun att => normal ul <$> o !! att) atts
  = map (fun att => normal ul <$> o' !! att) atts.
Proof.
  revert ks. induction atts as [|att atts IH]; intros ks Hlen Ho Ho' Hm Hm';
    [reflexivity|].
  destruct ks as [|k ks]; [discriminate|]. simpl in Hlen.
  rewrite key_matches_cons, key_matches_one in Hm, Hm'.
  apply andb_true_iff in Hm as [Hk Hm], Hm' as [Hk' Hm'].
  apply Forall_cons in Ho as [[v Hv] Ho], Ho' as [[v' Hv'] Ho'].
  rewrite Hv in Hk. rewrite Hv' in Hk'.
  rewrite _compare_normal in Hk, Hk'.
  apply bool_decide_eq_true_1 in Hk, Hk'.
  simpl. rewrite Hv, Hv'. simpl. f_equal; [congruence|].
  apply (IH ks); (assumption || lia).
Qed.

Lemma own_length ks atts o :
  Some <$> ks = (fun att => o !! att) <$> atts -> length ks = length atts.
Proof.
  intros H. apply (f_equal length) in H. rewrite !length_fmap in H. exact H.
Qed.

(** X15. In a duplicate-free list every element is found under its own
    key: [ul[key]], with the values of the comparison attributes of an
    element as the key, returns that element. *)
Theorem getitem_round_trip ul (i : nat) o ks :
  Forall (complete ul) (items ul) -> comparison_attributes ul <> [] ->
  unique ul ->
  items ul !! i = Some o ->
  Some <$> ks = (fun att => o !! att) <$> comparison_attributes ul ->
  __getitem__ ul (KSeq ks) = Ok (Item o).
Proof.
  intros Hall Hne Hu Hi Hown. rewrite (getitem_seq ul ks Hall Hne).
  pose proof (own_length _ _ _ Hown) as Hlen.
  rewrite (bool_decide_eq_true_2 _ Hlen).
  pose proof (key_matches_own ul _ _ _ Hown) as Hm.
  assert (Hco : complete ul o) by (eapply Forall_lookup_1; eauto).
  destruct (filter _ (items ul)) as [|o' l] eqn:Hf.
  - exfalso. eapply (filter_nil_not_elem_of _ _ o Hf Hm).
    eapply list_elem_of_lookup_2; eauto.
  - assert (Hin : o' ∈ filter (fun o => key_matches ul ks
                                 (comparison_attributes ul) o = true)
                               (items ul))
      by (rewrite Hf; apply elem_of_cons; auto).
    apply list_elem_of_filter in Hin as [Hm' Hin'].
    apply list_elem_of_lookup in Hin' as [j Hj].
    assert (Hco' : complete ul o') by (eapply Forall_lookup_1; eauto).
    assert (j = i).
    { apply (Hu j i o' o Hj Hi). apply same_key_key; try assumption.
      apply (key_matches_same ul ks); assumption. }
    subst j. do 2 f_equal. congruence.
Qed.

(** X16. Appending and looking up, on a list whose elements all have the
    comparison attributes, as [value] has: after [ul.append(value)] the
    lookup with the values of the comparison attributes of [value]
    returns [value], whether the list was free of duplicates or not;
    and a lookup with a full key that [value] does not match gives what
    it gave before. *)
Theorem append_then_lookup ul value ks :
  Forall (complete ul) (items ul) -> complete ul value ->
  comparison_attributes ul <> [] ->
  Some <$> ks = (fun att => value !! att) <$> comparison_attributes ul ->
  exists ul',
    append value ul = (Ok tt, ul')
    /\ __getitem__ ul' (KSeq ks) = Ok (Item value)
    /\ forall ks',
         length ks' = length (comparison_attributes ul) ->
         key_matches ul ks' (comparison_attributes ul) value = false ->
         __getitem__ ul' (KSeq ks') = __getitem__ ul (KSeq ks').
Proof.
  intros Hall Hv Hne Hown.
  exists (set_items (others ul value (items ul) ++ [value]) ul).
  split; [apply append_others; assumption|].
  set (ul' := set_items (others ul value (items ul) ++ [value]) ul).
  assert (Hall' : Forall (complete ul') (items ul')).
  { unfold ul'. simpl. apply Forall_app. split.
    - apply Forall_forall. intros o Ho.
      apply list_elem_of_filter in Ho as [_ Ho].
      rewrite Forall_forall in Hall. exact (Hall o Ho).
    - apply Forall_cons. split; [exact Hv | constructor]. }
  assert (Hother : forall ks',
             length ks' = length (comparison_attributes ul) ->
             filter (fun o => key_matches ul ks' (comparison_attributes ul) o
                              = true) (others ul value (items ul))
             = if key_matches ul ks' (comparison_attributes ul) value
               then []
               else filter (fun o => key_matches ul ks'
                                       (comparison_attributes ul) o = true)
                           (items ul)).
  { intros ks' Hlen'. unfold others.
    pose proof Hall as Hall0. revert Hall0.
    generalize (items ul) at 1 2 3. intros l Hl.
    induction Hl as [|o l Ho _ IH].
    - destruct (key_matches ul ks' (comparison_attributes ul) value);
        reflexivity.
    - destruct (decide (key ul value = key ul o)) as [Heq|Hneq].
      + rewrite (filter_cons_False (fun o => key ul value <> key ul o))
          by (intros H; exact (H Heq)).
        rewrite IH.
        rewrite (key_matches_normal ul ks' _ value o Heq).
        destruct (key_matches ul ks' (comparison_attributes ul) o) eqn:Hm; [reflexivity|].
        rewrite filter_cons_False by congruence. reflexivity.
      + rewrite (filter_cons_True (fun o => key ul value <> key ul o))
          by exact Hneq.
        destruct (key_matches ul ks' (comparison_attributes ul) value) eqn:Hmv.
        * rewrite filter_cons_False; [exact IH|].
          intros Hmo. apply Hneq.
          apply (key_matches_same ul ks'); assumption.
        * destruct (key_matches ul ks' (comparison_attributes ul) o) eqn:Hm.
          -- rewrite !filter_cons_True by exact Hm. f_equal. exact IH.
          -- rewrite !filter_cons_False by congruence. exact IH. }
  pose proof (own_length _ _ _ Hown) as Hlen.
  pose proof (key_matches_own ul _ _ _ Hown) as Hm.
  split.
  - rewrite (getitem_seq ul' ks Hall' Hne).
    change (comparison_attributes ul') with (comparison_attributes ul).
    rewrite (bool_decide_eq_true_2 _ Hlen).
    change (items ul') with (others ul value (items ul) ++ [value]).
    rewrite filter_app.
    change (key_matches ul') with (key_matches ul).
    rewrite (Hother ks Hlen), Hm.
    rewrite filter_cons_True by exact Hm. reflexivity.
  - intros ks' Hlen' Hmv.
    rewrite (getitem_seq ul' ks' Hall' Hne), (getitem_seq ul ks' Hall Hne).
    change (comparison_attributes ul') with (comparison_attributes ul).
    rewrite (bool_decide_eq_true_2 _ Hlen').
    change (items ul') with (others ul value (items ul) ++ [value]).
    rewrite filter_app.
    change (key_matches ul') with (key_matches ul).
    rewrite (Hother ks' Hlen'), Hmv.
    rewrite filter_cons_False by congruence.
    rewrite filter_nil, app_nil_r. reflexivity.
Qed.

(** X17. On a list whose elements all have the comparison attributes,
    lookup with a string key compares the string with the first
    comparison attribute only. With no match it raises KeyError; on a
    list with one comparison attribute it returns the first match; with
    more attributes it returns a new list of the matches, in their
    order, over the remaining attributes, which does not ignore
    case. *)
Theorem getitem_string_key ul (s : string) (att : string)
    (rest : list string) :
  Forall (complete ul) (items ul) ->
  comparison_attributes ul = att :: rest ->
  __getitem__ ul (KStr s)
  = match filter (fun o => key_matches ul [VStr s] [att] o = true)
                 (items ul) with
    | [] => Raise KeyError
    | o :: l =>
        match rest with
        | [] => Ok (Item o)
        | _ :: _ =>
            Ok (Narrowed {| items := o :: l; comparison_attributes := rest;
                            ignorecase := false |})
        end
    end.
Proof.
  intros Hall Hatts. unfold __getitem__. rewrite Hatts.
  rewrite matching_filter.
  2:{ eapply Forall_impl; [exact Hall|]. intros o Ho. unfold complete in Ho.
      rewrite Hatts in Ho. apply Forall_inv in Ho. exact Ho. }
  destruct (filter _ (items ul)) as [|o l]; [reflexivity|].
  destruct rest as [|att' rest]; [reflexivity|].
  apply narrowed_fresh. discriminate.
Qed.

End Lookup.

(** * legalize and unit_convert_bytes *)

Section Legalize.
Import Py Utils.
Import Stdlib.Strings.Ascii.
Implicit Types (s name r : string) (c : Ascii.ascii).

(** A fact about every character, by cases on its eight bits. *)
Ltac by_cases_on c :=
  destruct c as [[] [] [] [] [] [] [] []]; vm_compute;
  repeat split; congruence.

Lemma replace_map (a b : Ascii.ascii) s :
  replace a b s = map_chars (fun c => if Ascii.eqb c a then b else c) s.
Proof. induction s as [|c s IH]; simpl; congruence. Qed.

Lemma upper_map s : upper s = map_chars upper_ascii s.
Proof. induction s as [|c s IH]; simpl; congruence. Qed.

Lemma lower_map s : lower s = map_chars lower_ascii s.
Proof. induction s as [|c s IH]; simpl; congruence. Qed.

Lemma map_chars_compose (g h : Ascii.ascii -> Ascii.ascii) s :
  map_chars g (map_chars h s) = map_chars (fun c => g (h c)) s.
Proof. induction s as [|c s IH]; simpl; congruence. Qed.

Lemma map_chars_ext (g h : Ascii.ascii -> Ascii.ascii) s :
  (forall c, g c = h c) -> map_chars g s = map_chars h s.
Proof. intros H. induction s as [|c s IH]; simpl; congruence. Qed.

(** [legalize] as one pass over the stripped name. *)
Lemma legalize_map name (lo : bool) :
  legalize name lo
  = let r := map_chars (legal_char lo) (strip name) in
    if legal_name r then Ok r else Raise ValueError.
Proof.
  unfold legalize.
  assert (H : (if lo
               then lower (replace "-" "_" (replace " " "_" (strip name)))
               else upper (replace "-" "_" (replace " " "_" (strip name))))
              = map_chars (legal_char lo) (strip name)).
  { destruct lo; rewrite ?lower_map, ?upper_map, !replace_map,
      !map_chars_compose; reflexivity. }
  cbv zeta. rewrite H. reflexivity.
Qed.

Lemma rstrip_endswith s c :
  endswith (rstrip s) c = true -> is_space c = false.
Proof.
  induction s as [|c' s IH]; simpl; [discriminate|].
  destruct (rstrip s) as [|c'' r] eqn:Hr.
  - destruct (is_space c') eqn:Hc'; simpl; [discriminate|].
    intros H. apply Ascii.eqb_eq in H. congruence.
  - intros H. apply IH. exact H.
Qed.

Lemma chop_newline_endswith s (w : string) :
  chop_newline s = Some w -> endswith s (Ascii.ascii_of_nat 10) = true.
Proof.
  revert w. induction s as [|c s IH]; intros w; simpl; [discriminate|].
  destruct s as [|c' s'].
  - destruct (code c =? 10) eqn:Hc; [|discriminate]. intros _.
    apply Nat.eqb_eq in Hc. apply Ascii.eqb_eq.
    unfold code in Hc. rewrite <- Hc. symmetry. apply Ascii.ascii_nat_embedding.
  - destruct (chop_newline (String c' s')) as [r|]; [|discriminate].
    intros _. exact (IH r eq_refl).
Qed.

Lemma endswith_map (g : Ascii.ascii -> Ascii.ascii) s c :
  endswith (map_chars g s) c = true ->
  exists c0, endswith s c0 = true /\ g c0 = c.
Proof.
  induction s as [|c' s IH]; simpl; [discriminate|].
  destruct s as [|c'' s']; simpl.
  - intros H. apply Ascii.eqb_eq in H. exists c'. split; [|exact H].
    apply Ascii.eqb_refl.
  - intros H. exact (IH H).
Qed.

Lemma legal_char_newline (lo : bool) c :
  legal_char lo c = Ascii.ascii_of_nat 10 -> is_space c = true.
Proof. destruct lo; by_cases_on c. Qed.

Lemma legal_char_word (lo : bool) c :
  is_word (legal_char lo c) = true ->
  is_legal lo (legal_char lo c) = true.
Proof. destruct lo; by_cases_on c. Qed.

Lemma legal_char_digit (lo : bool) c :
  is_digit (legal_char lo c) = is_digit c.
Proof. destruct lo; by_cases_on c. Qed.

Lemma is_legal_fixed (lo : bool) c :
  is_legal lo c = true ->
  legal_char lo c = c /\ is_space c = false /\ is_word c = true.
Proof. destruct lo; by_cases_on c. Qed.

(** After [strip] the dollar can only match at the end. *)
Lemma legal_name_stripped name (lo : bool) :
  legal_name (map_chars (legal_char lo) (strip name))
  = word_string (map_chars (legal_char lo) (strip name)).
Proof.
  unfold legal_name.
  destruct (chop_newline _) as [w|] eqn:Hw; [|apply orb_false_r].
  exfalso. apply chop_newline_endswith in Hw.
  apply endswith_map in Hw as (c0 & Hc0 & Hg).
  apply rstrip_endswith in Hc0. apply legal_char_newline in Hg. congruence.
Qed.

Lemma all_chars_legal (lo : bool) s :
  all_chars is_word (map_chars (legal_char lo) s) = true ->
  all_chars (is_legal lo) (map_chars (legal_char lo) s) = true.
Proof.
  induction s as [|c s IH]; simpl; [reflexivity|].
  intros H. apply andb_true_iff in H as [Hc Hs].
  rewrite (legal_char_word lo c Hc), (IH Hs). reflexivity.
Qed.

(** The result of a call that returns. *)
Lemma legalize_Ok name (lo : bool) r :
  legalize name lo = Ok r ->
  r = map_chars (legal_char lo) (strip name)
  /\ word_string r = true /\ all_chars (is_legal lo) r = true.
Proof.
  rewrite legalize_map. cbv zeta. rewrite legal_name_stripped.
  destruct (word_string _) eqn:Hw; [|discriminate].
  intros [= <-]. split; [reflexivity|]. split; [exact Hw|].
  apply all_chars_legal. unfold word_string in Hw.
  destruct (map_chars _ _); [discriminate|].
  apply andb_true_iff in Hw as [_ Hw]. exact Hw.
Qed.

(** X18. A name that [legalize] returns is not empty, does not start
    with a digit, and is made of digits, underscores and letters of the
    chosen case only: upper case, or lower case with [to_lower]. *)
Theorem legalize_shape name (lo : bool) r :
  ascii_only name ->
  legalize name lo = Ok r ->
  (exists c r', r = String c r' /\ is_digit c = false)
  /\ all_chars (is_legal lo) r = true.
Proof.
  intros _ Hr. apply legalize_Ok in Hr as (_ & Hw & Hall).
  split; [|exact Hall].
  destruct r as [|c r']; [discriminate|]. exists c, r'.
  split; [reflexivity|]. simpl in Hw.
  apply andb_true_iff in Hw as [Hd _]. apply negb_true_iff in Hd. exact Hd.
Qed.

Lemma lstrip_fixed s :
  match s with
  | EmptyString => True
  | String c _ => is_space c = false
  end -> lstrip s = s.
Proof. destruct s as [|c s]; simpl; [reflexivity|]. intros ->. reflexivity. Qed.

Lemma lstrip_fixed_spaces (pad : string) :
  all_chars is_space pad = true -> lstrip pad = EmptyString.
Proof.
  induction pad as [|c pad IH]; simpl; [reflexivity|].
  intros H. apply andb_true_iff in H as [-> Hpad]. exact (IH Hpad).
Qed.

Lemma rstrip_fixed s :
  all_chars (fun c => negb (is_space c)) s = true -> rstrip s = s.
Proof.
  induction s as [|c s IH]; simpl; [reflexivity|].
  intros H. apply andb_true_iff in H as [Hc Hs].
  rewrite (IH Hs). apply negb_true_iff in Hc. rewrite Hc.
  destruct s; reflexivity.
Qed.

Lemma map_chars_fixed (g : Ascii.ascii -> Ascii.ascii)
    (p : Ascii.ascii -> bool) s :
  (forall c, p c = true -> g c = c) ->
  all_chars p s = true -> map_chars g s = s.
Proof.
  intros Hg. induction s as [|c s IH]; simpl; [reflexivity|].
  intros H. apply andb_true_iff in H as [Hc Hs].
  rewrite (Hg c Hc), (IH Hs). reflexivity.
Qed.

Lemma all_chars_impl (p q : Ascii.ascii -> bool) s :
  (forall c, p c = true -> q c = true) ->
  all_chars p s = true -> all_chars q s = true.
Proof.
  intros Hpq. induction s as [|c s IH]; simpl; [reflexivity|].
  intros H. apply andb_true_iff in H as [Hc Hs].
  rewrite (Hpq c Hc), (IH Hs). reflexivity.
Qed.

(** X19. [legalize] is idempotent: a name that it returns is returned
    as it is when legalized again in the same case. *)
Theorem legalize_idempotent name (lo : bool) r :
  ascii_only name ->
  legalize name lo = Ok r ->
  legalize r lo = Ok r.
Proof.
  intros _ Hr. apply legalize_Ok in Hr as (_ & Hw & Hall).
  assert (Hns : all_chars (fun c => negb (is_space c)) r = true).
  { apply (all_chars_impl (is_legal lo)); [|exact Hall].
    intros c Hc. apply is_legal_fixed in Hc as (_ & -> & _). reflexivity. }
  assert (Hstrip : strip r = r).
  { unfold strip. rewrite lstrip_fixed; [apply rstrip_fixed; exact Hns|].
    destruct r as [|c r']; [exact I|]. simpl in Hns.
    apply andb_true_iff in Hns as [Hc _]. apply negb_true_iff in Hc.
    exact Hc. }
  assert (Hmap : map_chars (legal_char lo) r = r).
  { apply (map_chars_fixed _ (is_legal lo)); [|exact Hall].
    intros c Hc. apply is_legal_fixed in Hc as (-> & _). reflexivity. }
  rewrite legalize_map. cbv zeta. rewrite Hstrip, Hmap.
  unfold legal_name. rewrite Hw. reflexivity.
Qed.

Lemma lstrip_pad (pad : string) s :
  all_chars is_space pad = true -> lstrip (pad +:+ s) = lstrip s.
Proof.
  induction pad as [|c pad IH]; simpl; [reflexivity|].
  intros H. apply andb_true_iff in H as [-> Hpad]. exact (IH Hpad).
Qed.

Lemma rstrip_spaces (pad : string) :
  all_chars is_space pad = true -> rstrip pad = EmptyString.
Proof.
  induction pad as [|c pad IH]; simpl; [reflexivity|].
  intros H. apply andb_true_iff in H as [-> Hpad]. rewrite (IH Hpad).
  reflexivity.
Qed.

Lemma rstrip_pad (pad : string) s :
  all_chars is_space pad = true -> rstrip (s +:+ pad) = rstrip s.
Proof.
  intros Hpad. induction s as [|c s IH]; simpl.
  - apply rstrip_spaces. exact Hpad.
  - rewrite IH. reflexivity.
Qed.

Lemma strip_pad (pad pad' : string) s :
  all_chars is_space pad = true -> all_chars is_space pad' = true ->
  strip (pad +:+ (s +:+ pad')) = strip s.
Proof.
  intros Hpad Hpad'. unfold strip. rewrite (lstrip_pad pad _ Hpad).
  induction s as [|c s IH].
  - change (EmptyString +:+ pad') with pad'.
    rewrite (lstrip_fixed_spaces pad' Hpad'). reflexivity.
  - change (String c s +:+ pad') with (String c (s +:+ pad')).
    cbn [lstrip]. destruct (is_space c); [exact IH|].
    change (String c (s +:+ pad')) with (String c s +:+ pad').
    apply rstrip_pad. exact Hpad'.
Qed.

Lemma lstrip_map (g : Ascii.ascii -> Ascii.ascii) s :
  (forall c, is_space (g c) = is_space c) ->
  lstrip (map_chars g s) = map_chars g (lstrip s).
Proof.
  intros Hg. induction s as [|c s IH]; simpl; [reflexivity|].
  rewrite Hg. destruct (is_space c); [exact IH | reflexivity].
Qed.

Lemma rstrip_map (g : Ascii.ascii -> Ascii.ascii) s :
  (forall c, is_space (g c) = is_space c) ->
  rstrip (map_chars g s) = map_chars g (rstrip s).
Proof.
  intros Hg. induction s as [|c s IH]; simpl; [reflexivity|].
  rewrite IH, Hg. destruct (rstrip s); simpl; [|reflexivity].
  destruct (is_space c); reflexivity.
Qed.

Lemma strip_map (g : Ascii.ascii -> Ascii.ascii) s :
  (forall c, is_space (g c) = is_space c) ->
  strip (map_chars g s) = map_chars g (strip s).
Proof.
  intros Hg. unfold strip. rewrite (lstrip_map g s Hg).
  apply rstrip_map. exact Hg.
Qed.

Lemma case_char (lo : bool) c :
  is_space (upper_ascii c) = is_space c
  /\ is_space (lower_ascii c) = is_space c
  /\ legal_char lo (upper_ascii c) = legal_char lo c
  /\ legal_char lo (lower_ascii c) = legal_char lo c.
Proof. destruct lo; by_cases_on c. Qed.

(** X20. [legalize] does not see the whitespace around a name or the
    case of its letters: a name padded with whitespace, and the name in
    upper or in lower case, give what the name gives, the same result
    or the same error. *)
Theorem legalize_insensitive name (lo : bool) (pad pad' : string) :
  ascii_only name ->
  all_chars is_space pad = true -> all_chars is_space pad' = true ->
  legalize (pad +:+ (name +:+ pad')) lo = legalize name lo
  /\ legalize (upper name) lo = legalize name lo
  /\ legalize (lower name) lo = legalize name lo.
Proof.
  intros _ Hpad Hpad'. rewrite !legalize_map. cbv zeta.
  rewrite (strip_pad pad pad' name Hpad Hpad').
  split; [reflexivity|].
  rewrite upper_map, lower_map.
  rewrite !strip_map by (intros c; apply (case_char lo c)).
  rewrite !map_chars_compose.
  rewrite (map_chars_ext (fun c => legal_char lo (upper_ascii c))
                         (legal_char lo))
    by (intros c; apply (case_char lo c)).
  rewrite (map_chars_ext (fun c => legal_char lo (lower_ascii c))
                         (legal_char lo))
    by (intros c; apply (case_char lo c)).
  split; reflexivity.
Qed.

Lemma endswith_app s c : endswith (s +:+ String c EmptyString) c = true.
Proof.
  induction s as [|c' s IH]; simpl; [apply Ascii.eqb_refl|].
  destruct (s +:+ String c EmptyString) eqn:Hs; [|exact IH].
  destruct s; discriminate.
Qed.

Lemma endswith_app_other s c c' :
  endswith (s +:+ String c EmptyString) c' = Ascii.eqb c c'.
Proof.
  induction s as [|c'' s IH]; simpl; [reflexivity|].
  destruct (s +:+ String c EmptyString) eqn:Hs; [|exact IH].
  destruct s; discriminate.
Qed.

Lemma drop_last_app s c : drop_last (s +:+ String c EmptyString) = s.
Proof.
  induction s as [|c' s IH]; simpl; [reflexivity|].
  destruct (s +:+ String c EmptyString) eqn:Hs.
  - destruct s; discriminate.
  - rewrite IH. reflexivity.
Qed.

Lemma lower_app s s' : lower (s +:+ s') = lower s +:+ lower s'.
Proof.
  induction s as [|c s IH]; [reflexivity|].
  change (lower (String c (s +:+ s'))
          = String (lower_ascii c) (lower s +:+ lower s')).
  simpl. congruence.
Qed.

Lemma eqb_endswith s (k : string) c :
  String.eqb (s +:+ String c EmptyString) k = true -> endswith k c = true.
Proof.
  intros H. apply String.eqb_eq in H. subst k. apply endswith_app.
Qed.

Lemma bytes_per_plural s :
  bytes_per (s +:+ "s") = 1%Z.
Proof.
  unfold bytes_per.
  destruct (String.eqb (s +:+ "s") "byte") eqn:H1;
    [apply eqb_endswith in H1; discriminate|].
  destruct (String.eqb (s +:+ "s") "kb") eqn:H2;
    [apply eqb_endswith in H2; discriminate|].
  destruct (String.eqb (s +:+ "s") "mb") eqn:H3;
    [apply eqb_endswith in H3; discriminate|].
  destruct (String.eqb (s +:+ "s") "gb") eqn:H4;
    [apply eqb_endswith in H4; discriminate|].
  reflexivity.
Qed.

(** X21. [unit_convert_bytes] drops one plural "s" in lower case and
    then looks the unit up without regard to case; a plural "S" in
    upper case is not dropped, and no unit with it is known: with "s"
    the result is that of the singular, with "S" it is 1. *)
Theorem unit_convert_bytes_plural (units : string) :
  ascii_only units ->
  unit_convert_bytes (units +:+ "s") = bytes_per (lower units)
  /\ unit_convert_bytes (units +:+ "S") = 1%Z.
Proof.
  intros _. unfold unit_convert_bytes. split.
  - rewrite endswith_app, drop_last_app. reflexivity.
  - rewrite endswith_app_other.
    change (Ascii.eqb "S" "s") with false. cbv iota.
    rewrite lower_app. apply bytes_per_plural.
Qed.

End Legalize.

(** * The further properties on examples *)

Section FinderWitnesses.
Import Float Py Finder Examples.

Lemma detected_marks_grow_witness :
  wf_lc lc_three = true
  /\ exists det',
       detected (data (snd (ingest_lightcurve (pars_narrow 3) None None
                              lc_three))) = Some det'
       /\ length det' = 4.
Proof.
  split; [reflexivity|].
  destruct (detected_marks_grow (pars_narrow 3) None None lc_three eq_refl)
    as (det' & Hdet & Hlen & _).
  exists det'. split; [exact Hdet | exact Hlen].
Defined.

Lemma detections_significant_witness :
  let f := pars_narrow 3 in
  let r := ingest_lightcurve f None None lc_three in
  fle fzero (snr_threshold f) = true
  /\ forall d, d ∈ emitted (fst r) ->
       is_nan (det_snr d) = false
       /\ flt (snr_threshold f) (seen f (det_snr d)) = true.
Proof.
  intros f r. split; [reflexivity|]. intros d Hd.
  assert (Hrun : ingest_lightcurve f None None lc_three
                 = (Ok (emitted (fst r)), snd r))
    by (vm_compute; reflexivity).
  destruct (detections_significant f None None lc_three (snd r)
              (emitted (fst r)) eq_refl Hrun d Hd)
    as (idx & _ & _ & _ & Hnan & Hsig).
  split; [exact Hnan | exact Hsig].
Defined.

Lemma stops_only_when_exhausted_witness :
  let f := pars_upto 2 in
  let r := ingest_lightcurve f None None lc_peak in
  length (emitted (fst r)) < max_det_per_lc f
  /\ forall i col' x,
       usable (snd r) i = true ->
       snr (data (snd r)) = Some col' -> col' !! i = Some x ->
       flt (snr_threshold f) (seen f x) = false.
Proof.
  intros f r.
  assert (Hrun : ingest_lightcurve f None None lc_peak
                 = (Ok (emitted (fst r)), snd r))
    by (vm_compute; reflexivity).
  assert (Hlen : length (emitted (fst r)) < max_det_per_lc f)
    by (vm_compute; lia).
  split; [exact Hlen|].
  exact (stops_only_when_exhausted f None None lc_peak (snd r)
           (emitted (fst r)) Hrun Hlen).
Defined.

Lemma detection_window_ends_witness :
  let f := pars_narrow 3 in
  let r := ingest_lightcurve f None None lc_three in
  length (emitted (fst r)) = 3
  /\ forall d, d ∈ emitted (fst r) ->
       exists i0 i1,
         times lc_three !! i0 = Some (time_start d)
         /\ times lc_three !! i1 = Some (time_end d)
         /\ simulated d = false.
Proof.
  intros f r. split; [vm_compute; reflexivity|]. intros d Hd.
  assert (Hrun : ingest_lightcurve f None None lc_three
                 = (Ok (emitted (fst r)), snd r))
    by (vm_compute; reflexivity).
  destruct (detection_window_ends f None None lc_three (snd r)
              (emitted (fst r)) Hrun d Hd)
    as (i0 & i1 & _ & _ & _ & Hs & He & Hsim & _).
  exists i0, i1. split; [exact Hs|]. split; [exact He | exact Hsim].
Defined.

Lemma peak_is_earliest_maximum_witness :
  let f := pars_narrow 3 in
  select_peak f lc_three_scored
  = (Ok (0, of_Z 9), snd (select_peak f lc_three_scored))
  /\ forall j x, masked_snr f lc_three_scored !! j = Some x ->
                 fle x (of_Z 9) = true.
Proof.
  intros f.
  assert (Hrun : select_peak f lc_three_scored
                 = (Ok (0, of_Z 9), snd (select_peak f lc_three_scored)))
    by (vm_compute; reflexivity).
  split; [exact Hrun|].
  exact (proj1 (proj2 (peak_is_earliest_maximum f lc_three_scored _ _ Hrun))).
Defined.

Lemma ingest_errors_witness :
  (wf_lc lc_dip = true
   /\ fst (ingest_lightcurve default_pars None None lc_dip) <> Raise ValueError
   /\ fst (ingest_lightcurve default_pars None None lc_dip) <> Raise KeyError)
  /\ (wf_lc (read_only lc_peak) = true
      /\ fst (ingest_lightcurve (pars_signed 1) None None (read_only lc_peak))
         = Raise ValueError)
  /\ (wf_lc lc_empty = true
      /\ fst (ingest_lightcurve default_pars None None lc_empty)
         = Raise ValueError).
Proof.
  assert (Hrows : 0 < nrows lc_dip) by (vm_compute; lia).
  pose proof (proj1 (proj2 (ingest_errors default_pars None None lc_dip
                              eq_refl)) Hrows (or_introl eq_refl)) as Hdip.
  split; [|split].
  - split; [reflexivity|].
    split; intros He; apply Hdip in He; discriminate.
  - split; [reflexivity|].
    apply (proj2 (proj2 (ingest_errors (pars_signed 1) None None
                           (read_only lc_peak) eq_refl))).
    + reflexivity.
    + reflexivity.
    + vm_compute. lia.
  - split; [reflexivity|].
    apply (proj1 (ingest_errors default_pars None None lc_empty eq_refl)).
    + reflexivity.
    + vm_compute. lia.
Defined.

Lemma scores_recomputed_witness :
  let lc1 := snd (ingest_lightcurve default_pars None None lc_peak) in
  let lc2 := snd (ingest_lightcurve default_pars None None lc1) in
  abs_snr default_pars = true /\ snr (data lc2) = snr (data lc1).
Proof.
  intros lc1 lc2. split; [reflexivity|].
  exact (proj2 (proj2 (proj2 (scores_recomputed default_pars None None
                                lc_peak)) eq_refl)).
Defined.

End FinderWitnesses.

Section ListWitnesses.
Import Py Examples.

Lemma nl_two_named : NamedList.named nl_two.
Proof. repeat constructor; eexists; reflexivity. Qed.

Lemma ul_two_complete :
  Forall (UniqueList.complete ul_two) (UniqueList.items ul_two).
Proof. repeat constructor; eexists; reflexivity. Qed.

Lemma ul_pair_complete :
  Forall (UniqueList.complete ul_pair) (UniqueList.items ul_pair).
Proof. repeat constructor; eexists; reflexivity. Qed.

Lemma named_complete_two (name : string) (tag : Z) :
  UniqueList.complete ul_two (UniqueList.named name tag).
Proof. repeat constructor; eexists; reflexivity. Qed.

Lemma ul_two_unique : UniqueList.unique ul_two.
Proof.
  apply unique_keys; [exact ul_two_complete|].
  match goal with |- ?P => apply (bool_decide_unpack P) end.
  vm_compute. exact I.
Qed.

Lemma ul_pair_unique : UniqueList.unique ul_pair.
Proof.
  apply unique_keys; [exact ul_pair_complete|].
  match goal with |- ?P => apply (bool_decide_unpack P) end.
  vm_compute. exact I.
Qed.

Lemma named_list_first_match_witness :
  NamedList.named nl_two
  /\ exists i, NamedList.items nl_two !! i = Some (UniqueList.named "Two" 2).
Proof.
  split; [exact nl_two_named|].
  destruct (proj1 (named_list_first_match nl_two "Two" nl_two_named)
              (UniqueList.named "Two" 2) eq_refl) as (i & Hi & _).
  exists i. exact Hi.
Defined.

Lemma named_list_contains_agrees_witness :
  NamedList.named nl_two
  /\ NamedList.__getitem__ nl_two (NamedList.KStr "Three") = Raise ValueError.
Proof.
  split; [exact nl_two_named|].
  apply (proj2 (named_list_contains_agrees nl_two "Three" nl_two_named)).
  reflexivity.
Defined.

Lemma named_list_round_trip_witness :
  NamedList.named nl_two
  /\ NamedList.__getitem__ nl_two (NamedList.KStr "Two")
     = Ok (UniqueList.named "Two" 2).
Proof.
  split; [exact nl_two_named|].
  refine (proj1 (named_list_round_trip nl_two 1 (UniqueList.named "Two" 2)
                   "Two" nl_two_named _ eq_refl eq_refl)).
  match goal with |- ?P => apply (bool_decide_unpack P) end.
  vm_compute. exact I.
Defined.

Lemma setitem_keeps_unique_witness :
  (0 <= 0 < Z.of_nat (length (UniqueList.items ul_two)))%Z
  /\ UniqueList.__setitem__ 0 (UniqueList.named "b" 3) ul_two
     = (Raise ValueError, ul_two).
Proof.
  assert (Hk : (0 <= 0 < Z.of_nat (length (UniqueList.items ul_two)))%Z)
    by (simpl; lia).
  split; [exact Hk|].
  apply (proj2 (setitem_keeps_unique ul_two 0 (UniqueList.named "b" 3)
                  ul_two_complete (named_complete_two "b" 3) Hk)
           1 (UniqueList.named "b" 2)).
  - reflexivity.
  - lia.
  - reflexivity.
Defined.

Lemma setitem_negative_index_witness :
  UniqueList.__setitem__ (-1) (UniqueList.named "b" 9) ul_two
  = (Raise ValueError, ul_two)
  /\ fst (UniqueList.__setitem__ 1 (UniqueList.named "b" 9) ul_two) = Ok tt.
Proof.
  destruct (setitem_negative_index ul_two (-1) (UniqueList.named "b" 9)
              (UniqueList.named "b" 2) ul_two_complete
              (named_complete_two "b" 9) ul_two_unique)
    as [Hneg Hpos].
  - simpl. lia.
  - reflexivity.
  - reflexivity.
  - split; [exact Hneg | exact (f_equal fst Hpos)].
Defined.

Lemma getitem_full_key_witness :
  UniqueList.__getitem__ ul_pair
    (UniqueList.KSeq [UniqueList.VStr "a"; UniqueList.VInt 2])
  = Ok (UniqueList.Item (UniqueList.named "a" 2))
  /\ UniqueList.__getitem__ ul_pair
       (UniqueList.KSeq [UniqueList.VStr "c"; UniqueList.VInt 2])
     = Raise IndexError.
Proof.
  split.
  - rewrite (getitem_full_key ul_pair _ ul_pair_complete);
      [reflexivity | discriminate | reflexivity].
  - rewrite (getitem_full_key ul_pair _ ul_pair_complete);
      [reflexivity | discriminate | reflexivity].
Defined.

Lemma getitem_partial_key_witness :
  UniqueList.__getitem__ ul_pair (UniqueList.KSeq [UniqueList.VStr "a"])
  = Ok (UniqueList.Narrowed
          {| UniqueList.items :=
               [UniqueList.named "a" 1; UniqueList.named "a" 2];
             UniqueList.comparison_attributes := ["tag"%string];
             UniqueList.ignorecase := false |}).
Proof.
  rewrite (getitem_partial_key ul_pair _ ul_pair_complete);
    [reflexivity | discriminate | simpl; lia].
Defined.

Lemma getitem_round_trip_witness :
  UniqueList.unique ul_pair
  /\ UniqueList.__getitem__ ul_pair
       (UniqueList.KSeq [UniqueList.VStr "a"; UniqueList.VInt 2])
     = Ok (UniqueList.Item (UniqueList.named "a" 2)).
Proof.
  split; [exact ul_pair_unique|].
  apply (getitem_round_trip ul_pair 1 (UniqueList.named "a" 2)
           [UniqueList.VStr "a"; UniqueList.VInt 2] ul_pair_complete).
  - discriminate.
  - exact ul_pair_unique.
  - reflexivity.
  - reflexivity.
Defined.

Lemma append_then_lookup_witness :
  exists ul',
    UniqueList.append (UniqueList.named "a" 7) ul_two = (Ok tt, ul')
    /\ UniqueList.__getitem__ ul' (UniqueList.KSeq [UniqueList.VStr "a"])
       = Ok (UniqueList.Item (UniqueList.named "a" 7)).
Proof.
  destruct (append_then_lookup ul_two (UniqueList.named "a" 7)
              [UniqueList.VStr "a"] ul_two_complete
              (named_complete_two "a" 7))
    as (ul' & Happ & Hget & _).
  - discriminate.
  - reflexivity.
  - exists ul'. split; [exact Happ | exact Hget].
Defined.

Lemma append_keeps_unique_witness :
  exists ul,
    UniqueList.append_all
      [UniqueList.named "a" 1; UniqueList.named "b" 2; UniqueList.named "a" 3]
      (UniqueList.init ["name"%string] false) = (Ok tt, ul)
    /\ UniqueList.unique ul.
Proof.
  destruct (append_keeps_unique ["name"%string] false
              [UniqueList.named "a" 1; UniqueList.named "b" 2;
               UniqueList.named "a" 3])
    as (ul & Hrun & Hu & _).
  - repeat constructor; eexists; reflexivity.
  - exists ul. split; [exact Hrun | exact Hu].
Defined.

Lemma getitem_string_key_witness :
  UniqueList.__getitem__ ul_two (UniqueList.KStr "zz") = Raise KeyError
  /\ UniqueList.__getitem__ ul_two (UniqueList.KStr "b")
     = Ok (UniqueList.Item (UniqueList.named "b" 2)).
Proof.
  split;
    rewrite (getitem_string_key ul_two _ "name" [] ul_two_complete eq_refl);
    reflexivity.
Defined.

End ListWitnesses.

Section UtilsWitnesses.
Import Py Utils.

Lemma legalize_shape_witness :
  ascii_only "  my-name " /\ all_chars (is_legal false) "MY_NAME" = true.
Proof.
  split; [reflexivity|].
  exact (proj2 (legalize_shape "  my-name " false "MY_NAME"
                  eq_refl eq_refl)).
Defined.

Lemma legalize_idempotent_witness :
  legalize "  my-name " false = Ok "MY_NAME"
  /\ legalize "MY_NAME" false = Ok "MY_NAME".
Proof.
  split; [reflexivity|].
  exact (legalize_idempotent "  my-name " false "MY_NAME" eq_refl eq_refl).
Defined.

Lemma legalize_insensitive_witness :
  legalize "  My name " false = legalize "My name" false
  /\ legalize "MY NAME" false = legalize "My name" false.
Proof.
  destruct (legalize_insensitive "My name" false "  " " "
              eq_refl eq_refl eq_refl) as (Hpad & Hup & _).
  split; [exact Hpad | exact Hup].
Defined.

Lemma unit_convert_bytes_plural_witness :
  unit_convert_bytes "KBs" = 1024%Z /\ unit_convert_bytes "KBS" = 1%Z.
Proof. exact (unit_convert_bytes_plural "KB" eq_refl). Defined.

End UtilsWitnesses.
